(** * sigil_bs4/element.py: the node model, the selector evaluator and the
      serializer, embedded over an explicit object store.

    Python objects are addressed by identity.  The store keeps one map per
    attribute ([parent], [contents], [next_element], ...), so that an
    assignment [x.next_sibling = y] is an update of one map at one object and
    every other attribute of every object is left as it was.  A reference is
    an object identity; [None] is [None] of [option].  Methods that loop
    ([_last_descendant], the walk up the parents in [insert], [Tag.__eq__],
    the generators) take a [fuel] bound on the number of iterations and
    answer [OutOfFuel] when the bound is reached. *)

From Stdlib Require Import String Ascii ZArith Lia Bool Arith PeanoNat List.
From Stdlib Require Import Permutation.

Import ListNotations.

Local Open Scope Z_scope.

(** ** Values *)

Definition id := nat.

(** The classes of string nodes, [NavigableString] and its subclasses. *)
Inductive strclass :=
| NavigableString | PreformattedString | CData | ProcessingInstruction
| Comment | Declaration | Doctype.

Inductive nkind := KTag | KStr (c : strclass).

(** An attribute value: a string, a list of strings (multi-valued attributes
    such as [class]) or [None] (a bare attribute). *)
Inductive attrval := AStr (s : string) | AList (l : list string) | ANone.

(** What a caller may pass as [new_child] or [replace_with]: a node, a plain
    [str], or [None]. *)
Inductive pyval := VNode (x : id) | VStr (s : string) | VNone.

(** The exceptions that the code raises.  A message is kept without the
    value that the code formats into it (the offending token of a
    selector). *)
Inductive exn :=
| ValueError (why : string)
| NotImplementedError (why : string)
| AttributeError
| IndexError
| TypeError.

Inductive res (A : Type) :=
| Ok (a : A)
| Raise (e : exn)
| OutOfFuel.

Arguments Ok {A} a.

Arguments Raise {A} e.

Arguments OutOfFuel {A}.

Definition rbind {A B} (r : res A) (k : A -> res B) : res B :=
  match r with
  | Ok a => k a
  | Raise e => Raise e
  | OutOfFuel => OutOfFuel
  end.

(** ** The object store *)

(** One map per attribute.  [is_xml] is an attribute that [element.py] reads
    and never writes: it is [None] at an object that has no such attribute,
    as the objects that the constructors of this file make, and [Some b] at
    an object on which it has been set from outside, as on the root of a
    parsed tree. *)
Record heap := mkHeap {
  kind : id -> nkind;
  name : id -> string;
  attrs : id -> list (string * attrval);
  text : id -> string;
  hidden : id -> bool;
  can_be_empty_element : id -> bool;
  prefix : id -> option string;
  is_xml : id -> option bool;
  contents : id -> list id;
  parent : id -> option id;
  previous_element : id -> option id;
  next_element : id -> option id;
  previous_sibling : id -> option id;
  next_sibling : id -> option id;
  fresh : id
}.

Definition upd {A} (f : id -> A) (x : id) (v : A) : id -> A :=
  fun y => if Nat.eqb y x then v else f y.

Definition set_contents (x : id) (v : list id) (h : heap) : heap :=
  mkHeap (kind h) (name h) (attrs h) (text h) (hidden h)
    (can_be_empty_element h) (prefix h) (is_xml h)
    (upd (contents h) x v) (parent h) (previous_element h) (next_element h)
    (previous_sibling h) (next_sibling h) (fresh h).

Definition set_parent (x : id) (v : option id) (h : heap) : heap :=
  mkHeap (kind h) (name h) (attrs h) (text h) (hidden h)
    (can_be_empty_element h) (prefix h) (is_xml h)
    (contents h) (upd (parent h) x v) (previous_element h) (next_element h)
    (previous_sibling h) (next_sibling h) (fresh h).

Definition set_previous_element (x : id) (v : option id) (h : heap) : heap :=
  mkHeap (kind h) (name h) (attrs h) (text h) (hidden h)
    (can_be_empty_element h) (prefix h) (is_xml h)
    (contents h) (parent h) (upd (previous_element h) x v) (next_element h)
    (previous_sibling h) (next_sibling h) (fresh h).

Definition set_next_element (x : id) (v : option id) (h : heap) : heap :=
  mkHeap (kind h) (name h) (attrs h) (text h) (hidden h)
    (can_be_empty_element h) (prefix h) (is_xml h)
    (contents h) (parent h) (previous_element h) (upd (next_element h) x v)
    (previous_sibling h) (next_sibling h) (fresh h).

Definition set_previous_sibling (x : id) (v : option id) (h : heap) : heap :=
  mkHeap (kind h) (name h) (attrs h) (text h) (hidden h)
    (can_be_empty_element h) (prefix h) (is_xml h)
    (contents h) (parent h) (previous_element h) (next_element h)
    (upd (previous_sibling h) x v) (next_sibling h) (fresh h).

Definition set_next_sibling (x : id) (v : option id) (h : heap) : heap :=
  mkHeap (kind h) (name h) (attrs h) (text h) (hidden h)
    (can_be_empty_element h) (prefix h) (is_xml h)
    (contents h) (parent h) (previous_element h) (next_element h)
    (previous_sibling h) (upd (next_sibling h) x v) (fresh h).

(** The store before any object is made. *)
Definition empty_heap : heap :=
  mkHeap (fun _ => KTag) (fun _ => EmptyString) (fun _ => []) (fun _ => EmptyString)
    (fun _ => false) (fun _ => false) (fun _ => None) (fun _ => None)
    (fun _ => []) (fun _ => None) (fun _ => None) (fun _ => None)
    (fun _ => None) (fun _ => None) O.

(** ** Statements that read and write the store *)

Definition M (A : Type) := heap -> heap * res A.

Definition ret {A} (a : A) : M A := fun h => (h, Ok a).

Definition raise {A} (e : exn) : M A := fun h => (h, Raise e).

Definition bind {A B} (m : M A) (k : A -> M B) : M B :=
  fun h => match m h with
           | (h', Ok a) => k a h'
           | (h', Raise e) => (h', Raise e)
           | (h', OutOfFuel) => (h', OutOfFuel)
           end.

Definition read {A} (f : heap -> id -> A) (x : id) : M A := fun h => (h, Ok (f h x)).

Definition pure_call {A} (f : heap -> res A) : M A := fun h => (h, f h).

Definition write (f : heap -> heap) : M unit := fun h => (f h, Ok tt).

Notation "x <- m ;; k" := (bind m (fun x => k))
  (at level 61, m at next level, right associativity).

Notation "m ;;; k" := (bind m (fun _ => k))
  (at level 61, right associativity).

(** ** Python lists *)

(** [l[i]] with Python's negative indices. *)
Definition py_nth {A} (l : list A) (i : Z) : option A :=
  let n := Z.of_nat (length l) in
  if (0 <=? i) && (i <? n) then nth_error l (Z.to_nat i)
  else if (- n <=? i) && (i <? 0) then nth_error l (Z.to_nat (n + i))
  else None.

(** [l.insert(i, x)]: a negative [i] counts from the end, and the index is
    clipped to the list. *)
Definition py_insert {A} (l : list A) (i : Z) (x : A) : list A :=
  let n := Z.of_nat (length l) in
  let j := if i <? 0 then Z.max 0 (n + i) else Z.min i n in
  firstn (Z.to_nat j) l ++ x :: skipn (Z.to_nat j) l.

(** [del l[i]] for an index in range. *)
Definition remove_at {A} (i : nat) (l : list A) : list A :=
  firstn i l ++ skipn (S i) l.

(** The first index at which [x] occurs, by identity. *)
Fixpoint index_of (x : id) (l : list id) : option nat :=
  match l with
  | [] => None
  | y :: l' => if Nat.eqb y x then Some O
               else match index_of x l' with
                    | Some i => Some (S i)
                    | None => None
                    end
  end.

(** ** Truth value and equality of nodes *)

(** [Tag.__bool__] answers [True]; a string node is a [str] and is false
    when it is empty. *)
Definition truthy (h : heap) (x : id) : bool :=
  match kind h x with
  | KTag => true
  | KStr _ => negb (String.eqb (text h x) EmptyString)
  end.

Definition opt_truthy (h : heap) (o : option id) : bool :=
  match o with
  | Some x => truthy h x
  | None => false
  end.

Definition attrval_eqb (a b : attrval) : bool :=
  match a, b with
  | AStr s, AStr t => String.eqb s t
  | AList l, AList m =>
      Nat.eqb (length l) (length m)
      && forallb (fun p => String.eqb (fst p) (snd p)) (combine l m)
  | ANone, ANone => true
  | _, _ => false
  end.

Definition attrs_eqb (a b : list (string * attrval)) : bool :=
  Nat.eqb (length a) (length b)
  && forallb (fun p => String.eqb (fst (fst p)) (fst (snd p))
                       && attrval_eqb (snd (fst p)) (snd (snd p)))
       (combine a b).

(** [a == b] on two nodes: [str.__eq__] between two string nodes (the
    payloads are compared), [Tag.__eq__] between two tags (lines 1044-1059),
    and [False] between a tag and a string (the string has no [attrs]). *)
Fixpoint py_eq (fuel : nat) (h : heap) (a b : id) : res bool :=
  match fuel with
  | O => OutOfFuel
  | S f =>
      match kind h a, kind h b with
      | KStr _, KStr _ => Ok (String.eqb (text h a) (text h b))
      | KTag, KTag =>
          if Nat.eqb a b then Ok true
          else if negb (String.eqb (name h a) (name h b))
                  || negb (attrs_eqb (attrs h a) (attrs h b))
                  || negb (Nat.eqb (length (contents h a)) (length (contents h b)))
          then Ok false
          else (fix children (l1 l2 : list id) : res bool :=
                  match l1, l2 with
                  | x :: l1', y :: l2' =>
                      match py_eq f h x y with
                      | Ok true => children l1' l2'
                      | r => r
                      end
                  | _, _ => Ok true
                  end) (contents h a) (contents h b)
      | _, _ => Ok false
      end
  end.

(** [a != b] where [b] may be [None]. *)
Definition py_ne (fuel : nat) (h : heap) (a : id) (b : option id) : res bool :=
  match b with
  | None => Ok true
  | Some b => rbind (py_eq fuel h a b) (fun e => Ok (negb e))
  end.

(** ** Node model *)

(** The loop of [_last_descendant] (lines 320-322). *)
Fixpoint descend (fuel : nat) (h : heap) (last_child : id) : res id :=
  match fuel with
  | O => OutOfFuel
  | S f =>
      match kind h last_child with
      | KTag => match py_nth (contents h last_child) (-1) with
                | Some c => descend f h c
                | None => Ok last_child
                end
      | KStr _ => Ok last_child
      end
  end.

(** [_last_descendant] (lines 315-325). *)
Definition _last_descendant (fuel : nat) (self : id)
    (is_initialized accept_self : bool) (h : heap) : res (option id) :=
  rbind (if is_initialized && opt_truthy h (next_sibling h self)
         then match next_sibling h self with
              | Some s => Ok (previous_element h s)
              | None => Ok None
              end
         else rbind (descend fuel h self) (fun l => Ok (Some l)))
    (fun last_child =>
       if negb accept_self
       then match last_child with
            | Some l => rbind (py_eq fuel h l self)
                          (fun e => Ok (if e then None else Some l))
            | None => Ok None
            end
       else Ok last_child).

(** [x.contents] of a node: string nodes have no such attribute. *)
Definition get_contents (x : id) : M (list id) :=
  fun h => match kind h x with
           | KTag => (h, Ok (contents h x))
           | KStr _ => (h, Raise AttributeError)
           end.

(** [self.index(element)]: [Tag.index] (lines 968-976) on a tag; on a string
    node the name resolves to [str.index]. *)
Definition index (self element : id) : M nat :=
  fun h => match kind h self with
           | KTag =>
               match index_of element (contents h self) with
               | Some i => (h, Ok i)
               | None => (h, Raise (ValueError "Tag.index: element not in tag"))
               end
           | KStr _ =>
               match kind h element with
               | KTag => (h, Raise TypeError)
               | KStr _ =>
                   match String.index O (text h element) (text h self) with
                   | Some i => (h, Ok i)
                   | None => (h, Raise (ValueError "substring not found"))
                   end
               end
           end.

(** An attribute of [None] is an [AttributeError]. *)
Definition deref {A} (o : option A) : M A :=
  match o with
  | Some x => ret x
  | None => raise AttributeError
  end.

Definition when (b : bool) (m : M unit) : M unit :=
  if b then m else ret tt.

Definition is_some {A} (o : option A) : bool :=
  match o with Some _ => true | None => false end.

(** The statement [if a is not None and a != b: a.f = b], which [extract]
    uses four times; [setf a b] is the assignment [a.f = b]. *)
Definition heal (fuel : nat) (a b : option id)
    (setf : id -> option id -> heap -> heap) : M unit :=
  match a with
  | Some a' =>
      ne <- pure_call (fun h => py_ne fuel h a' b) ;;
      when ne (write (setf a' b))
  | None => ret tt
  end.

(** [extract] (lines 286-313). *)
Definition extract (fuel : nat) (self : id) : M id :=
  p <- read parent self ;;
  match p with
  | Some q =>
      l <- get_contents q ;;
      i <- index q self ;;
      write (set_contents q (remove_at i l))
  | None => ret tt
  end ;;;
  lc <- pure_call (_last_descendant fuel self true true) ;;
  last_child <- deref lc ;;
  next_element_ <- read next_element last_child ;;
  pe <- read previous_element self ;;
  heal fuel pe next_element_ set_next_element ;;;
  pe' <- read previous_element self ;;
  heal fuel next_element_ pe' set_previous_element ;;;
  write (set_previous_element self None) ;;;
  write (set_next_element last_child None) ;;;
  write (set_parent self None) ;;;
  ps <- read previous_sibling self ;;
  ns <- read next_sibling self ;;
  heal fuel ps ns set_next_sibling ;;;
  ns' <- read next_sibling self ;;
  ps' <- read previous_sibling self ;;
  heal fuel ns' ps' set_previous_sibling ;;;
  write (set_previous_sibling self None) ;;;
  write (set_next_sibling self None) ;;;
  ret self.

(** [NavigableString.__new__] (lines 709-722): a new string node, whose
    [setup()] leaves every link [None]. *)
Definition new_NavigableString (c : strclass) (value : string) : M id :=
  fun h =>
    let u := fresh h in
    (mkHeap (upd (kind h) u (KStr c)) (upd (name h) u EmptyString)
       (upd (attrs h) u []) (upd (text h) u value) (upd (hidden h) u false)
       (upd (can_be_empty_element h) u false) (upd (prefix h) u None)
       (upd (is_xml h) u None)
       (upd (contents h) u []) (upd (parent h) u None)
       (upd (previous_element h) u None) (upd (next_element h) u None)
       (upd (previous_sibling h) u None) (upd (next_sibling h) u None)
       (S u),
     Ok u).

(** [Tag.__init__] (lines 812-847) without a builder, a parent or a previous
    element: [contents] is empty and [setup(None, None)] leaves every link
    [None]. *)
Definition new_Tag (nm : string) (ats : list (string * attrval)) : M id :=
  fun h =>
    let u := fresh h in
    (mkHeap (upd (kind h) u KTag) (upd (name h) u nm)
       (upd (attrs h) u ats) (upd (text h) u EmptyString) (upd (hidden h) u false)
       (upd (can_be_empty_element h) u false) (upd (prefix h) u None)
       (upd (is_xml h) u None)
       (upd (contents h) u []) (upd (parent h) u None)
       (upd (previous_element h) u None) (upd (next_element h) u None)
       (upd (previous_sibling h) u None) (upd (next_sibling h) u None)
       (S u),
     Ok u).

(** The loop of [insert] that looks for the next sibling of the nearest
    ancestor that has one (lines 368-375). *)
Fixpoint climb (fuel : nat) (h : heap) (parent_ : option id) : res (option id) :=
  match fuel with
  | O => OutOfFuel
  | S f =>
      match parent_ with
      | None => Ok None
      | Some p =>
          match next_sibling h p with
          | Some s => Ok (Some s)
          | None => climb f h (parent h p)
          end
      end
  end.

(** Lines 350-361 of [insert]: the new child gets its parent and is linked
    to what comes before it. *)
Definition link_previous (fuel : nat) (self : id) (position : Z) (new_child : id)
  : M unit :=
  write (set_parent new_child (Some self)) ;;;
  (if position =? 0 then
     write (set_previous_sibling new_child None) ;;;
     write (set_previous_element new_child (Some self))
   else
     l <- get_contents self ;;
     previous_child <- match py_nth l (position - 1) with
                       | Some c => ret c
                       | None => raise IndexError
                       end ;;
     write (set_previous_sibling new_child (Some previous_child)) ;;;
     ps <- read previous_sibling new_child ;;
     ps' <- deref ps ;;
     write (set_next_sibling ps' (Some new_child)) ;;;
     ld <- pure_call (_last_descendant fuel previous_child false true) ;;
     write (set_previous_element new_child ld)) ;;;
  pe <- read previous_element new_child ;;
  match pe with
  | Some a => write (set_next_element a (Some new_child))
  | None => ret tt
  end.

(** Lines 363-391 of [insert]: the last descendant of the new child is
    linked to what comes after it, and the child is stored in [contents]. *)
Definition link_next (fuel : nat) (self : id) (position : Z) (new_child : id)
  : M unit :=
  nl <- pure_call (_last_descendant fuel new_child false true) ;;
  new_childs_last_element <- deref nl ;;
  l <- get_contents self ;;
  (if position >=? Z.of_nat (length l) then
     write (set_next_sibling new_child None) ;;;
     parents_next_sibling <- pure_call (fun h => climb fuel h (Some self)) ;;
     write (set_next_element new_childs_last_element parents_next_sibling)
   else
     next_child <- match py_nth l position with
                   | Some c => ret c
                   | None => raise IndexError
                   end ;;
     write (set_next_sibling new_child (Some next_child)) ;;;
     ns <- read next_sibling new_child ;;
     match ns with
     | Some b => write (set_previous_sibling b (Some new_child))
     | None => ret tt
     end ;;;
     write (set_next_element new_childs_last_element (Some next_child))) ;;;
  ne <- read next_element new_childs_last_element ;;
  match ne with
  | Some b => write (set_previous_element b (Some new_childs_last_element))
  | None => ret tt
  end ;;;
  l' <- get_contents self ;;
  write (set_contents self (py_insert l' position new_child)).

(** Lines 350-391 of [insert]: the new child is wired into both orderings
    and stored in [contents]. *)
Definition insert_links (fuel : nat) (self : id) (position : Z) (new_child : id)
  : M unit :=
  link_previous fuel self position new_child ;;;
  link_next fuel self position new_child.

(** [insert] (lines 329-391). *)
Definition insert (fuel : nat) (self : id) (position : Z) (new_child : pyval)
  : M unit :=
  match new_child with
  | VNode c => if Nat.eqb c self
               then raise (ValueError "Cannot insert a tag into itself.")
               else ret tt
  | _ => ret tt
  end ;;;
  new_child' <- match new_child with
                | VStr s => u <- new_NavigableString NavigableString s ;; ret (VNode u)
                | v => ret v
                end ;;
  l <- get_contents self ;;
  let position := Z.min position (Z.of_nat (length l)) in
  match new_child' with
  | VNode c =>
      p <- read parent c ;;
      position' <-
        match p with
        | Some q =>
            position' <- (if Nat.eqb q self then
                            current_index <- index self c ;;
                            ret (if Z.of_nat current_index <? position
                                 then position - 1 else position)
                          else ret position) ;;
            extract fuel c ;;;
            ret position'
        | None => ret position
        end ;;
      insert_links fuel self position' c
  | _ => raise AttributeError
  end.

(** [append] (lines 393-395). *)
Definition append (fuel : nat) (self : id) (tag : pyval) : M unit :=
  l <- get_contents self ;;
  insert fuel self (Z.of_nat (length l)) tag.

(** [replace_with] (lines 251-264); the answer is [self] or [None]. *)
Definition replace_with (fuel : nat) (self : id) (replace_with_ : pyval)
  : M (option id) :=
  p <- read parent self ;;
  t <- pure_call (fun h => Ok (opt_truthy h p)) ;;
  if negb t then
    raise (ValueError "Cannot replace one element with another when theelement to be replaced is not part of a tree.")
  else if match replace_with_ with VNode m => Nat.eqb m self | _ => false end then
    ret None
  else if match replace_with_, p with
          | VNode m, Some q => Nat.eqb m q
          | _, _ => false
          end then
    raise (ValueError "Cannot replace a Tag with its parent.")
  else
    old_parent <- deref p ;;
    my_index <- index old_parent self ;;
    extract fuel self ;;;
    insert fuel old_parent (Z.of_nat my_index) replace_with_ ;;;
    ret (Some self).

Fixpoint for_each {A} (l : list A) (body : A -> M unit) : M unit :=
  match l with
  | [] => ret tt
  | a :: l' => body a ;;; for_each l' body
  end.

(** [unwrap] (lines 267-277). *)
Definition unwrap (fuel : nat) (self : id) : M id :=
  my_parent <- read parent self ;;
  t <- pure_call (fun h => Ok (opt_truthy h my_parent)) ;;
  if negb t then
    raise (ValueError "Cannot replace an element with its contents when thatelement is not part of a tree.")
  else
    q <- deref my_parent ;;
    my_index <- index q self ;;
    extract fuel self ;;;
    l <- get_contents self ;;
    for_each (rev l) (fun child => insert fuel q (Z.of_nat my_index) (VNode child)) ;;;
    ret self.

(** [wrap] (lines 281-284). *)
Definition wrap (fuel : nat) (self : id) (wrap_inside : pyval) : M pyval :=
  me <- replace_with fuel self wrap_inside ;;
  match wrap_inside with
  | VNode w => append fuel w (match me with Some x => VNode x | None => VNone end)
  | _ => raise AttributeError
  end ;;;
  ret wrap_inside.

(** [insert_before] (lines 397-414). *)
Definition insert_before (fuel : nat) (self : id) (predecessor : pyval) : M unit :=
  if match predecessor with VNode m => Nat.eqb m self | _ => false end then
    raise (ValueError "Can't insert an element before itself.")
  else
    parent_ <- read parent self ;;
    match parent_ with
    | None => raise (ValueError "Element has no parent, so 'before' has no meaning.")
    | Some q =>
        match predecessor with
        | VNode m => extract fuel m ;;; ret tt
        | _ => ret tt
        end ;;;
        i <- index q self ;;
        insert fuel q (Z.of_nat i) predecessor
    end.

(** [insert_after] (lines 416-433). *)
Definition insert_after (fuel : nat) (self : id) (successor : pyval) : M unit :=
  if match successor with VNode m => Nat.eqb m self | _ => false end then
    raise (ValueError "Can't insert an element after itself.")
  else
    parent_ <- read parent self ;;
    match parent_ with
    | None => raise (ValueError "Element has no parent, so 'after' has no meaning.")
    | Some q =>
        match successor with
        | VNode m => extract fuel m ;;; ret tt
        | _ => ret tt
        end ;;;
        i <- index q self ;;
        insert fuel q (Z.of_nat i + 1) successor
    end.

(** ** Walking the document-order chain *)

(** [next_elements] (lines 575-580), as the list of the nodes it yields. *)
Fixpoint next_elements_from (fuel : nat) (h : heap) (i : option id) : res (list id) :=
  match fuel with
  | O => OutOfFuel
  | S f =>
      match i with
      | None => Ok []
      | Some x => rbind (next_elements_from f h (next_element h x))
                    (fun l => Ok (x :: l))
      end
  end.

Definition next_elements (fuel : nat) (h : heap) (self : id) : res (list id) :=
  next_elements_from fuel h (next_element h self).

(** [previous_elements] (lines 589-594). *)
Fixpoint previous_elements_from (fuel : nat) (h : heap) (i : option id) : res (list id) :=
  match fuel with
  | O => OutOfFuel
  | S f =>
      match i with
      | None => Ok []
      | Some x => rbind (previous_elements_from f h (previous_element h x))
                    (fun l => Ok (x :: l))
      end
  end.

Definition previous_elements (fuel : nat) (h : heap) (self : id) : res (list id) :=
  previous_elements_from fuel h (previous_element h self).

(** ** Strings

    A Python [str] is a sequence of characters; the characters of a Rocq
    [string] stand for the code points below 256. *)

Definition chars (s : string) : list ascii := list_ascii_of_string s.

Definition str (l : list ascii) : string := string_of_list_ascii l.

Definition code (c : ascii) : nat := nat_of_ascii c.

Definition in_range (lo hi : nat) (c : ascii) : bool :=
  Nat.leb lo (code c) && Nat.leb (code c) hi.

(** [\s] and the separators of [str.split()]. *)
Definition is_space (c : ascii) : bool :=
  in_range 9 13 c || in_range 28 32 c || Nat.eqb (code c) 133
  || Nat.eqb (code c) 160.

(** [[a-zA-Z0-9]]. *)
Definition is_ascii_alnum (c : ascii) : bool :=
  in_range 48 57 c || in_range 65 90 c || in_range 97 122 c.

(** [\d]: the decimal digits. *)
Definition is_digit (c : ascii) : bool := in_range 48 57 c.

(** [\w]: the alphanumeric characters and the underscore. *)
Definition is_word (c : ascii) : bool :=
  is_ascii_alnum c || Nat.eqb (code c) 95
  || Nat.eqb (code c) 170 || Nat.eqb (code c) 178 || Nat.eqb (code c) 179
  || Nat.eqb (code c) 181 || in_range 185 186 c || in_range 188 190 c
  || in_range 192 214 c || in_range 216 246 c || in_range 248 255 c.

(** [[-.a-zA-Z0-9:_]]. *)
Definition is_tag_char (c : ascii) : bool :=
  is_ascii_alnum c || Ascii.eqb c "-" || Ascii.eqb c "." || Ascii.eqb c ":"
  || Ascii.eqb c "_".

Definition dquote : ascii := "034"%char.

(** The pieces of [s] between the characters accepted by [sep], empty
    pieces included; [cur] is the piece being read, reversed. *)
Fixpoint split_by (sep : ascii -> bool) (s cur : list ascii) : list (list ascii) :=
  match s with
  | [] => [rev cur]
  | c :: s' => if sep c then rev cur :: split_by sep s' []
               else split_by sep s' (c :: cur)
  end.

(** [s.split(c)]. *)
Definition split_on (c : ascii) (s : string) : list string :=
  map str (split_by (Ascii.eqb c) (chars s) []).

(** [s.split()]. *)
Definition split_ws (s : string) : list string :=
  map str (filter (fun p => negb (Nat.eqb (length p) 0))
             (split_by is_space (chars s) [])).

(** [s.split(c, 1)] for a string that holds [c]. *)
Fixpoint split_once_chars (c : ascii) (s cur : list ascii)
  : list ascii * list ascii :=
  match s with
  | [] => (rev cur, [])
  | d :: s' => if Ascii.eqb d c then (rev cur, s')
               else split_once_chars c s' (d :: cur)
  end.

Definition split_once (c : ascii) (s : string) : string * string :=
  let (a, b) := split_once_chars c (chars s) [] in (str a, str b).

Definition has_char (c : ascii) (s : string) : bool :=
  existsb (Ascii.eqb c) (chars s).

(** [re.sub(',[\s]*', ',', s)]. *)
Fixpoint strip_after_commas (skipping : bool) (s : list ascii) : list ascii :=
  match s with
  | [] => []
  | c :: s' =>
      if skipping && is_space c then strip_after_commas true s'
      else if Ascii.eqb c "," then c :: strip_after_commas true s'
      else c :: strip_after_commas false s'
  end.

(** The longest prefix whose characters satisfy [p], and the rest. *)
Fixpoint span (p : ascii -> bool) (s : list ascii) : list ascii * list ascii :=
  match s with
  | [] => ([], [])
  | c :: s' => if p c then let (a, b) := span p s' in (c :: a, b)
               else ([], s)
  end.

Definition str_in (x : string) (l : list string) : bool :=
  existsb (String.eqb x) l.

(** [x in s] for two strings. *)
Definition contains (x s : string) : bool :=
  match String.index 0 x s with Some _ => true | None => false end.

Definition startswith (s x : string) : bool := String.prefix x s.

Definition endswith (s x : string) : bool :=
  String.prefix (str (rev (chars x))) (str (rev (chars s))).

(** [' '.join(l)]. *)
Definition join_spaces (l : list string) : string := String.concat " " l.

(** [int(s)] for a string of [[a-zA-Z\d]] characters: it answers when every
    character is a digit. *)
Definition parse_int (s : string) : option Z :=
  let l := chars s in
  if forallb is_digit l && negb (Nat.eqb (length l) 0)
  then Some (fold_left (fun acc c => acc * 10 + Z.of_nat (code c - 48)) l 0)
  else None.

(** ** Selector evaluator *)

(** [Tag.get] (lines 978-982): the value stored under [key], if any. *)
Fixpoint attr_lookup (key : string) (l : list (string * attrval)) : option attrval :=
  match l with
  | [] => None
  | (k, v) :: l' => if String.eqb k key then Some v else attr_lookup key l'
  end.

Definition get (h : heap) (el : id) (key : string) : option attrval :=
  attr_lookup key (attrs h el).

(** [_attr_value_as_string] (lines 626-635); [None] stands for Python's
    [None], which is what a bare attribute holds and what the default is
    when the caller gives none. *)
Definition _attr_value_as_string (h : heap) (el : id) (key : string)
    (default : option string) : option string :=
  match get h el key with
  | Some (AStr s) => Some s
  | Some (AList l) => Some (join_spaces l)
  | Some ANone => None
  | None => default
  end.

(** The candidate generators that [select] passes to itself (lines
    1788-1802). *)
Inductive candgen := Children | NextSiblings | NextTagSibling.

(** The checker functions that [select] builds (lines 1723-1783). *)
Inductive checker :=
| AttributeChecker (operator attribute value : string)
| IdMatches (tag_id : string)
| ClassesMatch (classes : list string)
| NthChildOfType (destination : Z).

(** What a call of a checker does: it answers, or it raises
    [StopIteration]. *)
Inductive verdict := Verdict (b : bool) | StopIteration.

(** The function returned by [_attribute_checker] (lines 645-684), applied
    to [el]. *)
Definition _attribute_checker (h : heap) (operator attribute value : string)
    (el : id) : res bool :=
  if String.eqb operator "=" then
    Ok (match _attr_value_as_string h el attribute None with
        | Some s => String.eqb s value
        | None => false
        end)
  else if String.eqb operator "~" then
    match get h el attribute with
    | Some (AList l) => Ok (str_in value l)
    | Some (AStr s) => Ok (str_in value (split_ws s))
    | Some ANone => Raise AttributeError
    | None => Ok false
    end
  else if String.eqb operator "^" then
    match _attr_value_as_string h el attribute (Some EmptyString) with
    | Some s => Ok (startswith s value)
    | None => Raise AttributeError
    end
  else if String.eqb operator "$" then
    match _attr_value_as_string h el attribute (Some EmptyString) with
    | Some s => Ok (endswith s value)
    | None => Raise AttributeError
    end
  else if String.eqb operator "*" then
    match _attr_value_as_string h el attribute (Some EmptyString) with
    | Some s => Ok (contains value s)
    | None => Raise TypeError
    end
  else if String.eqb operator "|" then
    match _attr_value_as_string h el attribute (Some EmptyString) with
    | Some s => Ok (String.eqb s value || startswith s (value ++ "-"))
    | None => Raise AttributeError
    end
  else Ok (is_some (get h el attribute)).

(** [classes_match] (lines 1740-1741): [issubset] walks the list of a
    multi-valued attribute and the characters of a plain string. *)
Definition classes_match (h : heap) (classes : list string) (candidate : id)
  : res bool :=
  match get h candidate "class" with
  | Some (AList l) => Ok (forallb (fun c => str_in c l) classes)
  | Some (AStr s) =>
      Ok (forallb (fun c => str_in c (map (fun a => String a EmptyString) (chars s)))
            classes)
  | Some ANone => Raise TypeError
  | None => Ok (forallb (fun c => str_in c []) classes)
  end.

(** [id_matches] (lines 1732-1733). *)
Definition id_matches (h : heap) (tag_id : string) (tag : id) : bool :=
  match get h tag "id" with
  | Some (AStr s) => String.eqb s tag_id
  | _ => false
  end.

(** A call [checker(candidate)]; [count] is the counter of
    [Counter.nth_child_of_type] (lines 1766-1779) before and after. *)
Definition run_checker (h : heap) (ck : checker) (count : Z) (candidate : id)
  : res (verdict * Z) :=
  match ck with
  | AttributeChecker op a v =>
      rbind (_attribute_checker h op a v candidate) (fun b => Ok (Verdict b, count))
  | IdMatches i => Ok (Verdict (id_matches h i candidate), count)
  | ClassesMatch cs =>
      rbind (classes_match h cs candidate) (fun b => Ok (Verdict b, count))
  | NthChildOfType destination =>
      let count' := count + 1 in
      if count' =? destination then Ok (Verdict true, count')
      else if count' >? destination then Ok (StopIteration, count')
      else Ok (Verdict false, count')
  end.

(** What lines 1714-1809 make of one token. *)
Record token_rule := mkRule {
  tag_name : option string;
  rule_checker : option checker;
  recursive_candidate_generator : option candgen
}.

Definition is_operator_char (c : ascii) : bool :=
  Ascii.eqb c "=" || Ascii.eqb c "~" || Ascii.eqb c "|" || Ascii.eqb c "^"
  || Ascii.eqb c "$" || Ascii.eqb c "*".

Definition skip_char (c : ascii) (s : list ascii) : list ascii :=
  match s with
  | d :: s' => if Ascii.eqb d c then s' else s
  | [] => []
  end.

(** [attribselect_re.match(token)] (lines 621-624): the groups [tag],
    [attribute], [operator] and [value].  Every repetition of the
    expression is followed by a character outside its class, so the match,
    when there is one, is the greedy one. *)
Definition attribselect_match (token : string)
  : option (option string * string * string * string) :=
  let s := chars token in
  let (tag, s1) :=
    match s with
    | c :: s' => if is_ascii_alnum c
                 then let (a, b) := span is_tag_char s' in (Some (str (c :: a)), b)
                 else (None, s)
    | [] => (None, s)
    end in
  match s1 with
  | "["%char :: s2 =>
      let (attribute, s3) := span (fun c => is_word c || Ascii.eqb c "-") s2 in
      match attribute with
      | [] => None
      | _ =>
          let (operator, s4) :=
            match s3 with
            | c :: s' => if is_operator_char c then ([c], s') else ([], s3)
            | [] => ([], s3)
            end in
          let s5 := skip_char "=" s4 in
          let s6 := skip_char dquote s5 in
          let (value, s7) :=
            span (fun c => negb (Ascii.eqb c "]" || Ascii.eqb c dquote)) s6 in
          let s8 := skip_char dquote s7 in
          match s8 with
          | ["]"%char] => Some (tag, str attribute, str operator, str value)
          | _ => None
          end
      end
  | _ => None
  end.

(** [re.match('([a-zA-Z\d-]+)\(([a-zA-Z\d]+)\)', pseudo)] (line 1750). *)
Definition pseudo_match (pseudo : string) : option (string * string) :=
  let (ty, s1) :=
    span (fun c => is_ascii_alnum c || Ascii.eqb c "-") (chars pseudo) in
  match ty, s1 with
  | _ :: _, "("%char :: s2 =>
      let (v, s3) := span is_ascii_alnum s2 in
      match v, s3 with
      | _ :: _, ")"%char :: _ => Some (str ty, str v)
      | _, _ => None
      end
  | _, _ => None
  end.

(** [tag_name_re.match(token)] (line 612). *)
Definition tag_name_match (token : string) : bool :=
  match chars token with
  | c :: s => is_ascii_alnum c && forallb is_tag_char s
  | [] => false
  end.

(** Lines 1714-1809: the rule of one token, or the error it raises. *)
Definition classify (token : string) : res token_rule :=
  match attribselect_match token with
  | Some (tag, attribute, operator, value) =>
      Ok (mkRule tag (Some (AttributeChecker operator attribute value)) None)
  | None =>
      if has_char "#" token then
        let (tn, tag_id) := split_once "#" token in
        Ok (mkRule (Some tn) (Some (IdMatches tag_id)) None)
      else if has_char "." token then
        let (tn, klass) := split_once "." token in
        Ok (mkRule (Some tn) (Some (ClassesMatch (split_on "." klass))) None)
      else if has_char ":" token then
        let (tn, pseudo) := split_once ":" token in
        if String.eqb tn EmptyString then
          Raise (ValueError "A pseudo-class must be prefixed with a tag name.")
        else
          let (pseudo_type, pseudo_value) :=
            match pseudo_match pseudo with
            | Some (ty, v) => (ty, Some v)
            | None => (pseudo, None)
            end in
          if String.eqb pseudo_type "nth-of-type" then
            match match pseudo_value with
                  | Some v => parse_int v
                  | None => None
                  end with
            | None =>
                Raise (NotImplementedError
                  "Only numeric values are currently supported for the nth-of-type pseudo-class.")
            | Some n =>
                if n <? 1 then
                  Raise (ValueError "nth-of-type pseudo-class value must be at least 1.")
                else Ok (mkRule (Some tn) (Some (NthChildOfType n)) None)
            end
          else
            Raise (NotImplementedError
              "Only the following pseudo-classes are implemented: nth-of-type.")
      else if String.eqb token "*" then Ok (mkRule None None None)
      else if String.eqb token ">" then Ok (mkRule None None (Some Children))
      else if String.eqb token "~" then Ok (mkRule None None (Some NextSiblings))
      else if String.eqb token "+" then Ok (mkRule None None (Some NextTagSibling))
      else if tag_name_match token then Ok (mkRule (Some token) None None)
      else Raise (ValueError "Unsupported or invalid CSS selector")
  end.

(** A generator of candidates between two of its [yield]s. *)
Inductive gen_state :=
| Items (l : list (option id))
| DescendantsTest (current stopNode : option id)
| DescendantsResume (current stopNode : option id)
| Siblings (i : option id).

Definition opt_id_eqb (a b : option id) : bool :=
  match a, b with
  | Some x, Some y => Nat.eqb x y
  | None, None => true
  | _, _ => false
  end.

(** One [next()] on a generator: [None] when it is exhausted, otherwise the
    value it yields (which may be [None]) and its new state.  [descendants]
    is lines 1660-1668, [next_siblings] lines 582-587. *)
Definition gen_next (h : heap) (g : gen_state)
  : res (option (option id * gen_state)) :=
  match g with
  | Items [] => Ok None
  | Items (x :: l) => Ok (Some (x, Items l))
  | DescendantsTest current stopNode =>
      if opt_id_eqb current stopNode then Ok None
      else Ok (Some (current, DescendantsResume current stopNode))
  | DescendantsResume current stopNode =>
      match current with
      | None => Raise AttributeError
      | Some c =>
          let current' := next_element h c in
          if opt_id_eqb current' stopNode then Ok None
          else Ok (Some (current', DescendantsResume current' stopNode))
      end
  | Siblings None => Ok None
  | Siblings (Some x) => Ok (Some (Some x, Siblings (next_sibling h x)))
  end.

(** [tag.descendants] up to its first [yield] (lines 1662-1665). *)
Definition descendants (fuel : nat) (h : heap) (self : id) : res gen_state :=
  match kind h self with
  | KStr _ => Raise AttributeError
  | KTag =>
      match contents h self with
      | [] => Ok (Items [])
      | c0 :: _ =>
          rbind (_last_descendant fuel self true true h) (fun ld =>
          match ld with
          | None => Raise AttributeError
          | Some l => Ok (DescendantsTest (Some c0) (next_element h l))
          end)
      end
  end.

(** [tag.find_next_sibling(True)] (lines 449-453, through [_find_all] and
    [SoupStrainer.search]): the first of the next siblings that counts as
    true and is a tag. *)
Fixpoint find_next_tag_sibling (fuel : nat) (h : heap) (i : option id)
  : res (option id) :=
  match fuel with
  | O => OutOfFuel
  | S f =>
      match i with
      | None => Ok None
      | Some x =>
          match kind h x with
          | KTag => Ok (Some x)
          | KStr _ => find_next_tag_sibling f h (next_sibling h x)
          end
      end
  end.

(** The generator that [select] runs over a tag of the context: the
    recursive one of a combinator, the one it was given, or
    [tag.descendants] (lines 1810-1857). *)
Inductive use_generator :=
| RecursiveSelect (next_token : string) (g : candgen)
| Given (g : candgen)
| Descendants.

Section Select.

Variable h : heap.

Variable fuel : nat.

(** [tag.select(selector, _candidate_generator)] as [select] calls itself. *)
Variable select_rec : id -> string -> option candgen -> res (list id).

Definition given_generator (g : candgen) (tag : id) : res gen_state :=
  match g with
  | Children =>
      match kind h tag with
      | KTag => Ok (Items (map Some (contents h tag)))
      | KStr _ => Raise AttributeError
      end
  | NextSiblings => Ok (Siblings (next_sibling h tag))
  | NextTagSibling =>
      rbind (find_next_tag_sibling fuel h (next_sibling h tag))
        (fun r => Ok (Items [r]))
  end.

Definition start_generator (u : use_generator) (tag : id) : res gen_state :=
  match u with
  | RecursiveSelect next_token g =>
      rbind (select_rec tag next_token (Some g))
        (fun l => Ok (Items (map Some l)))
  | Given g => given_generator g tag
  | Descendants => descendants fuel h tag
  end.

Definition falsy (s : option string) : bool :=
  match s with
  | Some s => String.eqb s EmptyString
  | None => true
  end.

Definition limit_reached (limit : option Z) (new_context : list id) : bool :=
  match limit with
  | Some n => negb (n =? 0) && (Z.of_nat (length new_context) >=? n)
  | None => false
  end.

(** The loop over the candidates of one tag (lines 1864-1887); the state is
    [new_context] and the counter of the checker. *)
Fixpoint candidates (n : nat) (rule : token_rule) (limit : option Z)
    (g : gen_state) (new_context : list id) (count : Z) : res (list id * Z) :=
  match n with
  | O => OutOfFuel
  | S n' =>
      rbind (gen_next h g) (fun step =>
      match step with
      | None => Ok (new_context, count)
      | Some (candidate, g') =>
          match candidate with
          | None => candidates n' rule limit g' new_context count
          | Some c =>
              match kind h c with
              | KStr _ => candidates n' rule limit g' new_context count
              | KTag =>
                  if negb (falsy (tag_name rule))
                     && negb (String.eqb (name h c)
                                (match tag_name rule with Some s => s | None => EmptyString end))
                  then candidates n' rule limit g' new_context count
                  else
                    rbind (match rule_checker rule with
                           | Some ck => run_checker h ck count c
                           | None => Ok (Verdict true, count)
                           end) (fun vc =>
                    match vc with
                    | (StopIteration, count') => Ok (new_context, count')
                    | (Verdict false, count') =>
                        candidates n' rule limit g' new_context count'
                    | (Verdict true, count') =>
                        if existsb (Nat.eqb c) new_context
                        then candidates n' rule limit g' new_context count'
                        else
                          let new_context' := new_context ++ [c] in
                          if limit_reached limit new_context'
                          then Ok (new_context', count')
                          else candidates n' rule limit g' new_context' count'
                    end)
              end
          end
      end)
  end.

(** The loop over the tags of the context (lines 1860-1887). *)
Fixpoint over_context (rule : token_rule) (u : use_generator) (limit : option Z)
    (current_context : list id) (new_context : list id) (count : Z)
  : res (list id) :=
  match current_context with
  | [] => Ok new_context
  | tag :: rest =>
      rbind (start_generator u tag) (fun g =>
      rbind (candidates fuel rule limit g new_context count) (fun r =>
      over_context rule u limit rest (fst r) (snd r)))
  end.

(** The loop over the alternatives of a group (lines 1711-1887). *)
Fixpoint over_group (tokens : list string) (index : Z)
    (_candidate_generator : option candgen) (limit : option Z)
    (current_context : list id) (grouped_tokens : list string)
    (new_context : list id) : res (list id) :=
  match grouped_tokens with
  | [] => Ok new_context
  | token :: rest =>
      rbind (classify token) (fun rule =>
      rbind (match recursive_candidate_generator rule with
             | Some g =>
                 match py_nth tokens (index + 1) with
                 | Some next_token => Ok (RecursiveSelect next_token g)
                 | None => Raise IndexError
                 end
             | None =>
                 match _candidate_generator with
                 | None => Ok Descendants
                 | Some g => Ok (Given g)
                 end
             end) (fun u =>
      rbind (over_context rule u limit current_context new_context 0) (fun nc =>
      over_group tokens index _candidate_generator limit current_context rest nc)))
  end.

Definition is_combinator (token : string) : bool :=
  str_in token [">"; "+"; "~"]%string.

(** The loop over the tokens (lines 1696-1890); [todo] holds the tokens
    from [index] on. *)
Fixpoint over_tokens (tokens : list string) (_candidate_generator : option candgen)
    (limit : option Z) (index : Z) (todo : list string)
    (current_context : list id) : res (list id) :=
  match todo with
  | [] => Ok current_context
  | token_group :: rest =>
      let grouped_tokens := split_on "," token_group in
      if str_in EmptyString grouped_tokens then
        Raise (ValueError "Invalid group selection syntax")
      else if match py_nth tokens (index - 1) with
              | Some t => is_combinator t
              | None => false
              end then
        over_tokens tokens _candidate_generator limit (index + 1) rest current_context
      else
        rbind (over_group tokens index _candidate_generator limit current_context
                 grouped_tokens [])
          (fun new_context =>
             over_tokens tokens _candidate_generator limit (index + 1) rest new_context)
  end.

(** The tokens of a selector (line 1686). *)
Definition tokenize (selector : string) : list string :=
  split_ws (str (strip_after_commas false (chars selector))).

(** The body of [select] (lines 1681-1896). *)
Definition select_body (self : id) (selector : string)
    (_candidate_generator : option candgen) (limit : option Z) : res (list id) :=
  let tokens := tokenize selector in
  match py_nth tokens (-1) with
  | None => Raise IndexError
  | Some t =>
      if is_combinator t then
        Raise (ValueError "Final combinator is missing an argument.")
      else over_tokens tokens _candidate_generator limit 0 tokens [self]
  end.

End Select.

(** [select] (lines 1681-1896), a method of [Tag]: [self] is a tag (a
    string node has no attribute [select]).  [fuel] bounds the depth of the
    calls of [select] on itself and the length of every walk. *)
Fixpoint select (fuel : nat) (h : heap) (self : id) (selector : string)
    (_candidate_generator : option candgen) (limit : option Z) : res (list id) :=
  match fuel with
  | O => OutOfFuel
  | S f =>
      select_body h fuel (fun tag sel g => select f h tag sel g None)
        self selector _candidate_generator limit
  end.

(** [select_one] (lines 1674-1679). *)
Definition select_one (fuel : nat) (h : heap) (self : id) (selector : string)
  : res (option id) :=
  rbind (select fuel h self selector None (Some 1))
    (fun value => Ok (match value with x :: _ => Some x | [] => None end)).

Local Open Scope string_scope.

(** ** Serializer *)

(** The functions that serve as formatters: the four that the tables
    [HTML_FORMATTERS] and [XML_FORMATTERS] name (lines 175-185), the default
    of the XML table, and whatever function the caller passes. *)
Inductive formatter_fn :=
| HTMLAware_substitute_html
| HTMLAware_substitute_xml
| Entity_substitute_html
| Entity_substitute_xml_containing_entities
| Entity_substitute_xml
| Custom (f : string -> string).

(** The [formatter] argument: a name ([None] included) or a function. *)
Inductive formatter :=
| FormatterName (name : option string)
| FormatterFunction (f : formatter_fn).

(** [PREFIX] and [SUFFIX] of the classes of string nodes (lines 704-805). *)
Definition PREFIX (c : strclass) : string :=
  match c with
  | CData => "<![CDATA["
  | ProcessingInstruction => "<?"
  | Comment => "<!--"
  | Declaration => "<!"
  | Doctype => "<!DOCTYPE "
  | _ => EmptyString
  end.

Definition SUFFIX (c : strclass) : string :=
  match c with
  | CData => "]]>"
  | ProcessingInstruction => ">"
  | Comment => "-->"
  | Declaration => "!>"
  | Doctype => String "062" (String "010" EmptyString)
  | _ => EmptyString
  end.

(** The loop of [_find_all] (lines 558-568) for [limit=1] and a strainer
    made of a tag name only: of the nodes the generator yields, the first one
    that counts as true and that [SoupStrainer.search] (lines 2020-2044,
    through [search_tag] and [_matches]) accepts, which is a tag of that
    name. *)
Fixpoint find_in (n : nat) (h : heap) (nm : string) (g : gen_state)
  : res (option id) :=
  match n with
  | O => OutOfFuel
  | S n' =>
      rbind (gen_next h g) (fun step =>
      match step with
      | None => Ok None
      | Some (None, g') => find_in n' h nm g'
      | Some (Some i, g') =>
          if truthy h i
          then match kind h i with
               | KTag => if String.eqb (name h i) nm then Ok (Some i)
                         else find_in n' h nm g'
               | KStr _ => find_in n' h nm g'
               end
          else find_in n' h nm g'
      end)
  end.

(** [tag.find(name)] with a tag name and nothing else (lines 1624-1632,
    through [find_all], lines 1635-1650, which searches [tag.descendants]). *)
Definition find (fuel : nat) (h : heap) (self : id) (nm : string)
  : res (option id) :=
  rbind (descendants fuel h self) (fun g => find_in fuel h nm g).

(** The truth of [getattr(self, 'is_xml', False)] (line 210), which is all
    the callers of [_is_xml] look at.  The attribute is the one of the
    instance where something has set it.  Where nothing has, a string node
    raises [AttributeError] in [NavigableString.__getattr__] (lines 733-742)
    and [getattr] gives its default; a tag answers in [Tag.__getattr__]
    (lines 1029-1042) with [self.find('is_xml')], which is a tag or [None],
    and an [AttributeError] that [find] raises is taken by [getattr] for a
    missing attribute as well. *)
Definition getattr_is_xml (fuel : nat) (h : heap) (self : id) : res bool :=
  match is_xml h self with
  | Some b => Ok b
  | None =>
      match kind h self with
      | KStr _ => Ok false
      | KTag =>
          match find fuel h self "is_xml" with
          | Ok r => Ok (is_some r)
          | Raise AttributeError => Ok false
          | Raise e => Raise e
          | OutOfFuel => OutOfFuel
          end
      end
  end.

(** [_is_xml] (lines 197-211). *)
Fixpoint _is_xml (fuel : nat) (h : heap) (self : id) : res bool :=
  match fuel with
  | O => OutOfFuel
  | S f =>
      match parent h self with
      | None => getattr_is_xml f h self
      | Some p => _is_xml f h p
      end
  end.

(** [_formatter_for_name] (lines 213-220). *)
Definition _formatter_for_name (fuel : nat) (h : heap) (self : id)
    (name : option string) : res (option formatter_fn) :=
  rbind (_is_xml fuel h self) (fun xml =>
  Ok (match name with
      | None => None
      | Some n =>
          if String.eqb n "html"
          then Some (if xml then Entity_substitute_html
                     else HTMLAware_substitute_html)
          else if String.eqb n "minimal"
          then Some (if xml then Entity_substitute_xml_containing_entities
                     else HTMLAware_substitute_xml)
          else Some (if xml then Entity_substitute_xml
                     else HTMLAware_substitute_xml)
      end)).

(** Insertion of an attribute into a list sorted by key, for
    [sorted(self.attrs.items())]. *)
Fixpoint insert_sorted (kv : string * attrval) (l : list (string * attrval))
  : list (string * attrval) :=
  match l with
  | [] => [kv]
  | kv' :: l' => if String.leb (fst kv) (fst kv') then kv :: l
                 else kv' :: insert_sorted kv l'
  end.

Definition sorted_items (l : list (string * attrval)) : list (string * attrval) :=
  fold_right insert_sorted [] l.

Section Serializer.

(** The entity substitutions of [EntitySubstitution] and its
    [quoted_attribute_value], which sigil_bs4/dammit.py defines. *)
Variables substitute_html substitute_xml substitute_xml_containing_entities
          quoted_attribute_value : string -> string.

(** [_substitute_if_appropriate] (lines 133-141); [ns] is the node when the
    string is a [NavigableString], [s] its characters. *)
Definition _substitute_if_appropriate (h : heap) (ns : option id) (s : string)
    (f : string -> string) : string :=
  match ns with
  | Some x =>
      match parent h x with
      | Some p =>
          match kind h p with
          | KTag => if str_in (name h p) ["script"; "style"] then s else f s
          | KStr _ => f s
          end
      | None => f s
      end
  | None => f s
  end.

(** A call [formatter(s)]. *)
Definition call_formatter (h : heap) (fn : formatter_fn) (ns : option id)
    (s : string) : string :=
  match fn with
  | HTMLAware_substitute_html => _substitute_if_appropriate h ns s substitute_html
  | HTMLAware_substitute_xml =>
      _substitute_if_appropriate h ns s substitute_xml_containing_entities
  | Entity_substitute_html => substitute_html s
  | Entity_substitute_xml_containing_entities => substitute_xml_containing_entities s
  | Entity_substitute_xml => substitute_xml s
  | Custom f => f s
  end.

(** The first lines of every renderer: a name is looked up, a function is
    kept (lines 1105-1106). *)
Definition resolve (fuel : nat) (h : heap) (self : id) (fm : formatter)
  : res (option formatter_fn) :=
  match fm with
  | FormatterFunction f => Ok (Some f)
  | FormatterName n => _formatter_for_name fuel h self n
  end.

(** The formatter as it is handed on to the children. *)
Definition hand_on (r : option formatter_fn) : formatter :=
  match r with
  | Some f => FormatterFunction f
  | None => FormatterName None
  end.

(** [format_string] (lines 187-195). *)
Definition format_string (fuel : nat) (h : heap) (self : id) (ns : option id)
    (s : string) (fm : formatter) : res string :=
  rbind (resolve fuel h self fm) (fun r =>
  Ok (match r with
      | None => s
      | Some fn => call_formatter h fn ns s
      end)).

(** [output_ready] (lines 744-746 and 763-767). *)
Definition output_ready (fuel : nat) (h : heap) (self : id) (fm : formatter)
  : res string :=
  match kind h self with
  | KTag => Raise AttributeError
  | KStr c =>
      rbind (format_string fuel h self (Some self) (text h self) fm) (fun output =>
      Ok (match c with
          | NavigableString => PREFIX c ++ output ++ SUFFIX c
          | _ => PREFIX c ++ text h self ++ SUFFIX c
          end))
  end.

(** The attribute strings of a tag (lines 1108-1127). *)
Fixpoint render_attrs (fuel : nat) (h : heap) (self : id) (fm : formatter)
    (items : list (string * attrval)) : res (list string) :=
  match items with
  | [] => Ok []
  | (key, val) :: rest =>
      rbind (match val with
             | ANone => Ok key
             | AList l =>
                 rbind (format_string fuel h self None (join_spaces l) fm) (fun text_ =>
                 Ok (key ++ "=" ++ quoted_attribute_value text_))
             | AStr s =>
                 rbind (format_string fuel h self None s fm) (fun text_ =>
                 Ok (key ++ "=" ++ quoted_attribute_value text_))
             end) (fun decoded =>
      rbind (render_attrs fuel h self fm rest) (fun l => Ok (decoded :: l)))
  end.

(** [decode] (lines 1090-1181) and [decode_contents] (lines 1189-1228) with
    [indent_level=None], the compact rendering. *)
Fixpoint decode (fuel : nat) (h : heap) (self : id) (fm : formatter) : res string :=
  match fuel with
  | O => OutOfFuel
  | S f =>
      rbind (resolve fuel h self fm) (fun r =>
      let fm' := hand_on r in
      rbind (render_attrs fuel h self fm' (sorted_items (attrs h self))) (fun ats =>
      let prefix_ := match prefix h self with
                     | Some p => if String.eqb p EmptyString then EmptyString else p ++ ":"
                     | None => EmptyString
                     end in
      let empty := Nat.eqb (length (contents h self)) 0
                   && can_be_empty_element h self in
      let close := if empty then "/" else EmptyString in
      let closeTag := if empty then EmptyString else "</" ++ prefix_ ++ name h self ++ ">" in
      rbind ((fix decode_contents (cs : list id) : res string :=
                match cs with
                | [] => Ok EmptyString
                | c :: cs' =>
                    rbind (match kind h c with
                           | KStr _ => output_ready fuel h c fm'
                           | KTag => decode f h c fm'
                           end) (fun piece =>
                    rbind (decode_contents cs') (fun more => Ok (piece ++ more)))
                end) (contents h self)) (fun contents_ =>
      if hidden h self then Ok contents_
      else
        let attribute_string :=
          match ats with
          | [] => EmptyString
          | _ => " " ++ String.concat " " ats
          end in
        Ok ("<" ++ prefix_ ++ name h self ++ attribute_string ++ close ++ ">"
            ++ contents_ ++ closeTag))))
  end.

End Serializer.

Local Close Scope string_scope.

(** ** Attributes and the single string of a tag *)

(** [Tag.string] (lines 887-902).  On a string node the name resolves
    through [NavigableString.__getattr__] (lines 733-742), which answers the
    node itself. *)
Fixpoint Tag_string (fuel : nat) (h : heap) (self : id) : res (option id) :=
  match fuel with
  | O => OutOfFuel
  | S f =>
      match kind h self with
      | KStr _ => Ok (Some self)
      | KTag =>
          match contents h self with
          | [child] =>
              match kind h child with
              | KStr _ => Ok (Some child)
              | KTag => Tag_string f h child
              end
          | _ => Ok None
          end
      end
  end.

(** The assignment [x.attrs = v]. *)
Definition set_attrs (x : id) (v : list (string * attrval)) (h : heap) : heap :=
  mkHeap (kind h) (name h) (upd (attrs h) x v) (text h) (hidden h)
    (can_be_empty_element h) (prefix h) (is_xml h)
    (contents h) (parent h) (previous_element h) (next_element h)
    (previous_sibling h) (next_sibling h) (fresh h).

(** [d[key] = value] on an ordered dictionary: a key that is present keeps
    its place, a new key goes last. *)
Fixpoint dict_set (key : string) (value : attrval) (d : list (string * attrval))
  : list (string * attrval) :=
  match d with
  | [] => [(key, value)]
  | (k, v) :: d' => if String.eqb k key then (k, value) :: d'
                    else (k, v) :: dict_set key value d'
  end.

(** [d.pop(key, None)]: the entry of [key], if there is one, is removed. *)
Fixpoint dict_pop (key : string) (d : list (string * attrval))
  : list (string * attrval) :=
  match d with
  | [] => []
  | (k, v) :: d' => if String.eqb k key then d' else (k, v) :: dict_pop key d'
  end.

(** [Tag.__setitem__] (lines 1014-1017); a string node is a [str], which
    takes no item assignment. *)
Definition __setitem__ (self : id) (key : string) (value : attrval) : M unit :=
  fun h => match kind h self with
           | KTag => (set_attrs self (dict_set key value (attrs h self)) h, Ok tt)
           | KStr _ => (h, Raise TypeError)
           end.

(** [Tag.__delitem__] (lines 1019-1021). *)
Definition __delitem__ (self : id) (key : string) : M unit :=
  fun h => match kind h self with
           | KTag => (set_attrs self (dict_pop key (attrs h self)) h, Ok tt)
           | KStr _ => (h, Raise TypeError)
           end.

(** [Tag.has_attr] (lines 984-985); a string node has no such method. *)
Definition has_attr (h : heap) (self : id) (key : string) : res bool :=
  match kind h self with
  | KTag => Ok (is_some (get h self key))
  | KStr _ => Raise AttributeError
  end.

(** * Specifications *)

(** The positions at which the links of [insert] can be made: an index of
    the list or its length, or a negative index that [l[position - 1]]
    still reaches. *)
Definition linkable (l : list id) (pos : Z) : Prop :=
  pos <= Z.of_nat (length l) /\ (pos = 0 \/ - Z.of_nat (length l) < pos).

(** ** Termination of the loops on a tree *)

(** [contents] is well founded: [ht] bounds the height of every node. *)
Definition acyclic_by (ht : id -> nat) (N : nat) (h : heap) : Prop :=
  (forall x, (ht x < N)%nat) /\
  forall x c, kind h x = KTag -> In c (contents h x) -> (ht c < ht x)%nat.

(** The parent links of [x] lead to a root through the list [l]. *)
Inductive ancestors (h : heap) : id -> list id -> Prop :=
| ancestors_root x : parent h x = None -> ancestors h x []
| ancestors_step x p l :
    parent h x = Some p -> ancestors h p l -> ancestors h x (p :: l).

(** ** Weakest preconditions of statements that return *)

Definition wp {A} (m : M A) (Q : A -> heap -> Prop) (h : heap) : Prop :=
  match m h with
  | (h', Ok a) => Q a h'
  | _ => False
  end.

(** ** The effect of [extract] and [insert] on the store *)

(** Two stores that differ in the document-order links only. *)
Definition same_but_elements (h h' : heap) : Prop :=
  kind h' = kind h /\ name h' = name h /\ attrs h' = attrs h /\
  text h' = text h /\ hidden h' = hidden h /\
  can_be_empty_element h' = can_be_empty_element h /\
  prefix h' = prefix h /\ is_xml h' = is_xml h /\ fresh h' = fresh h /\
  contents h' = contents h /\ parent h' = parent h /\
  previous_sibling h' = previous_sibling h /\ next_sibling h' = next_sibling h.

(** What [extract] needs of the node it detaches: its parent, when it has
    one, is a tag that holds it, and its next sibling, when it counts as
    true, has a document-order predecessor. *)
Definition extractable (h : heap) (x : id) : Prop :=
  (forall q, parent h x = Some q -> kind h q = KTag /\ In x (contents h q)) /\
  (forall s, next_sibling h x = Some s -> truthy h s = true ->
             previous_element h s <> None).

(** [contents] once [x] has been deleted from the children of its parent. *)
Definition contents_without (h : heap) (x : id) : id -> list id :=
  match parent h x with
  | Some q => match index_of x (contents h q) with
              | Some i => upd (contents h) q (remove_at i (contents h q))
              | None => contents h
              end
  | None => contents h
  end.

(** The store after [x.extract()], up to the document-order links. *)
Definition extract_post (h : heap) (x : id) (h' : heap) : Prop :=
  kind h' = kind h /\ name h' = name h /\ attrs h' = attrs h /\
  text h' = text h /\ fresh h' = fresh h /\
  contents h' = contents_without h x /\
  parent h' = upd (parent h) x None /\
  next_sibling h' x = None /\ previous_sibling h' x = None /\
  (forall y, y <> x -> previous_sibling h x <> Some y ->
             next_sibling h' y = next_sibling h y) /\
  (forall y, y <> x -> next_sibling h x <> Some y ->
             previous_sibling h' y = previous_sibling h y).

(** [self.contents[position - 1]], unless [position] is 0. *)
Definition previous_child_of (h : heap) (t : id) (pos : Z) : option id :=
  if pos =? 0 then None else py_nth (contents h t) (pos - 1).

(** The store after lines 350-361 of [insert]. *)
Definition link_previous_post (h : heap) (t : id) (pos : Z) (c : id) (h' : heap)
  : Prop :=
  kind h' = kind h /\ name h' = name h /\ attrs h' = attrs h /\
  text h' = text h /\ fresh h' = fresh h /\ contents h' = contents h /\
  parent h' = upd (parent h) c (Some t) /\
  previous_sibling h' = upd (previous_sibling h) c (previous_child_of h t pos) /\
  next_sibling h'
  = match previous_child_of h t pos with
    | Some pc => upd (next_sibling h) pc (Some c)
    | None => next_sibling h
    end.

(** [self.contents[position]], unless [position] is the length. *)
Definition next_child_of (h : heap) (t : id) (pos : Z) : option id :=
  if pos >=? Z.of_nat (length (contents h t)) then None
  else py_nth (contents h t) pos.

(** The store after lines 363-391 of [insert]. *)
Definition link_next_post (h : heap) (t : id) (pos : Z) (c : id) (h' : heap)
  : Prop :=
  kind h' = kind h /\ name h' = name h /\ attrs h' = attrs h /\
  text h' = text h /\ fresh h' = fresh h /\
  contents h' = upd (contents h) t (py_insert (contents h t) pos c) /\
  parent h' = parent h /\
  next_sibling h' = upd (next_sibling h) c (next_child_of h t pos) /\
  previous_sibling h'
  = match next_child_of h t pos with
    | Some nc => upd (previous_sibling h) nc (Some c)
    | None => previous_sibling h
    end /\
  (Z.of_nat (length (contents h t)) <= pos ->
   forall s, next_sibling h t = Some s -> previous_element h' s <> None).

(** The store after lines 350-391 of [insert]. *)
Definition insert_links_post (h : heap) (t : id) (pos : Z) (c : id) (h' : heap)
  : Prop :=
  kind h' = kind h /\ name h' = name h /\ attrs h' = attrs h /\
  text h' = text h /\ fresh h' = fresh h /\
  contents h' = upd (contents h) t (py_insert (contents h t) pos c) /\
  parent h' = upd (parent h) c (Some t) /\
  next_sibling h'
  = upd (match previous_child_of h t pos with
         | Some pc => upd (next_sibling h) pc (Some c)
         | None => next_sibling h
         end) c (next_child_of h t pos) /\
  previous_sibling h'
  = (let ps := upd (previous_sibling h) c (previous_child_of h t pos) in
     match next_child_of h t pos with
     | Some nc => upd ps nc (Some c)
     | None => ps
     end) /\
  (Z.of_nat (length (contents h t)) <= pos ->
   forall s, next_sibling h t = Some s -> previous_element h' s <> None).

(** The index at which [insert] stores the child (lines 336-347). *)
Definition insert_position (h : heap) (t : id) (p : Z) (c : id) : Z :=
  let pos := Z.min p (Z.of_nat (length (contents h t))) in
  match parent h c with
  | Some q =>
      if Nat.eqb q t then
        match index_of c (contents h t) with
        | Some i => if Z.of_nat i <? pos then pos - 1 else pos
        | None => pos
        end
      else pos
  | None => pos
  end.

(** The store after [t.insert(p, c)] for a node [c]. *)
Definition insert_post (h : heap) (t : id) (p : Z) (c : id) (h' : heap) : Prop :=
  exists h1,
    (h1 = h /\ parent h c = None \/ parent h c <> None /\ extract_post h c h1) /\
    insert_links_post h1 t (insert_position h t p c) c h'.

(** ** Outcomes of the mutations *)

(** The call raised [ValueError] and left the store as it was. *)
Definition invalid_operation {A} (h : heap) (out : heap * res A) : Prop :=
  exists why, out = (h, Raise (ValueError why)).

(** [c] is at present a child of [t] at an index strictly below [p]. *)
Definition child_below (h : heap) (t : id) (p : Z) (c : id) : bool :=
  match parent h c, index_of c (contents h t) with
  | Some q, Some i => Nat.eqb q t && (Z.of_nat i <? p)
  | _, _ => false
  end.

(** The children of [t] once [c] has been extracted, when [c] had a
    parent. *)
Definition children_before_insert (h : heap) (t c : id) : list id :=
  match parent h c with
  | Some _ => contents_without h c t
  | None => contents h t
  end.

(** The store once [n], the child of [q] at index [i], has been wrapped in
    [c]. *)
Definition wrapped (h : heap) (n q c : id) (i : nat) (h3 : heap) : Prop :=
  let rest := remove_at i (contents h q) in
  kind h3 = kind h /\
  contents h3 q = firstn i rest ++ c :: skipn i rest /\
  contents h3 c = [n] /\
  (forall x, x <> q -> x <> c -> contents h3 x = contents h x) /\
  parent h3 n = Some c /\ parent h3 c = Some q /\
  (forall x, x <> n -> x <> c -> parent h3 x = parent h x) /\
  next_sibling h3 n = None /\ previous_sibling h3 c <> Some n /\
  (forall s, next_sibling h3 c = Some s -> previous_element h3 s <> None).

(** A height for the store in which [c] holds [n]: [c] sits between [n] and
    the parent of [n]. *)
Definition wrap_height (ht : id -> nat) (n c : id) (y : id) : nat :=
  if Nat.eqb y c then (2 * ht n + 1)%nat else (2 * ht y)%nat.

(** The attached nodes below [x] in pre-order, read off [contents]. *)
Fixpoint pre_order (fuel : nat) (h : heap) (x : id) : list id :=
  match fuel with
  | O => []
  | S f => x :: match kind h x with
                | KTag => flat_map (pre_order f h) (contents h x)
                | KStr _ => []
                end
  end.

(** ** Example trees *)

(** [<div>a<b></b>a</div>]: the tag 0 holds the text 1, the tag 2 and the
    text 3; the two texts are equal as strings. *)
Definition equal_texts_tree : heap :=
  Eval vm_compute in
  fst ((root <- new_Tag "div" [] ;;
        a1 <- new_NavigableString NavigableString "a" ;;
        b <- new_Tag "b" [] ;;
        a2 <- new_NavigableString NavigableString "a" ;;
        append 8 root (VNode a1) ;;;
        append 8 root (VNode b) ;;;
        append 8 root (VNode a2)) empty_heap).

(** [<div><p></p><b></b></div>] (tags 0, 1, 2), a detached tag [<i>] (3)
    and a detached tag [<u>] (4) that holds the tag [<em>] (5). *)
Definition example_tree : heap :=
  Eval vm_compute in
  fst ((root <- new_Tag "div" [] ;;
        p <- new_Tag "p" [] ;;
        b <- new_Tag "b" [] ;;
        i <- new_Tag "i" [] ;;
        u <- new_Tag "u" [] ;;
        em <- new_Tag "em" [] ;;
        append 8 root (VNode p) ;;;
        append 8 root (VNode b) ;;;
        append 8 u (VNode em)) empty_heap).

(** After [t.insert(p, c)] the node [c] is [t.contents[min(p, len(t.contents))]],
    the length being the one before the call. *)
Definition placed_at_min (fuel : nat) (h : heap) (t : id) (p : Z) (c : id) : Prop :=
  exists h', insert fuel t p (VNode c) h = (h', Ok tt) /\
    py_nth (contents h' t) (Z.min p (Z.of_nat (length (contents h t)))) = Some c.

(** [n.wrap(c)] and then [c.unwrap()] return and leave [n] under its
    parent at its index. *)
Definition wrap_unwrap_restores (fuel : nat) (h : heap) (n c : id) : Prop :=
  exists q h1 h2,
    parent h n = Some q /\
    wrap fuel n (VNode c) h = (h1, Ok (VNode c)) /\
    unwrap fuel c h1 = (h2, Ok c) /\
    parent h2 n = Some q /\
    index_of n (contents h2 q) = index_of n (contents h q).


(** After [t.insert(p, s)] with a plain string [s], the children of [t]
    hold a string node with the text [s] and the parent [t]. *)
Definition string_child_stored (fuel : nat) (h : heap) (t : id) (p : Z)
    (s : string) : Prop :=
  exists h' r u, insert fuel t p (VStr s) h = (h', r) /\
    In u (contents h' t) /\ kind h' u = KStr NavigableString /\
    text h' u = s /\ parent h' u = Some t.

(** A height for [example_tree]. *)
Definition example_height (x : id) : nat :=
  match x with
  | 0%nat | 4%nat => 1%nat
  | _ => 0%nat
  end.

(** [<div><p><b></b></p></div>]: the tag 0 holds the tag 1, which holds the
    tag 2. *)
Definition nested_tree : heap :=
  Eval vm_compute in
  fst ((root <- new_Tag "div" [] ;;
        p <- new_Tag "p" [] ;;
        b <- new_Tag "b" [] ;;
        append 8 root (VNode p) ;;;
        append 8 p (VNode b)) empty_heap).

(** A height for [nested_tree]. *)
Definition nested_height (x : id) : nat :=
  match x with
  | 0%nat => 2%nat
  | 1%nat => 1%nat
  | _ => 0%nat
  end.

(** ** Selectors *)

(** The token [[class~="a"]], double quotes included. *)
Definition class_includes_a : string :=
  str (chars "[class~=" ++ dquote :: "a"%char :: dquote :: chars "]").

(** The token at [index] is consumed by a combinator before it (lines
    1705-1709). *)
Definition consumed (tokens : list string) (index : Z) : bool :=
  match py_nth tokens (index - 1) with
  | Some t => is_combinator t
  | None => false
  end.

(** The kind of pseudo-class that a token [tag:pseudo] names (lines
    1750-1756). *)
Definition pseudo_type_of (pseudo : string) : string :=
  match pseudo_match pseudo with
  | Some (ty, _) => ty
  | None => pseudo
  end.

(** The argument of the pseudo-class as a number, when it is one (lines
    1757-1763). *)
Definition pseudo_value_of (pseudo : string) : option Z :=
  match pseudo_match pseudo with
  | Some (_, v) => parse_int v
  | None => None
  end.

(** A token that reaches the pseudo-class branch of [select] (line 1744). *)
Definition pseudo_class_token (token : string) : Prop :=
  attribselect_match token = None /\ has_char "#" token = false /\
  has_char "." token = false /\ has_char ":" token = true.

(** The errors that [select] raises for a selector it does not support. *)
Definition selector_syntax_error {A} (r : res A) : Prop :=
  exists why, r = Raise (ValueError why) \/ r = Raise (NotImplementedError why).

(** [<div><p class="a b"></p><span><p></p></span><a></a><p id="x"></p>hello</div>]:
    the tag 0 holds the tags 1, 2 (which holds the tag 3), 4 and 5 and the
    text 6. *)
Definition page : heap :=
  Eval vm_compute in
  fst ((root <- new_Tag "div" [] ;;
        p1 <- new_Tag "p" [("class", AList ["a"; "b"])]%string ;;
        sp <- new_Tag "span" [] ;;
        p3 <- new_Tag "p" [] ;;
        a4 <- new_Tag "a" [] ;;
        p5 <- new_Tag "p" [("id", AStr "x")]%string ;;
        t6 <- new_NavigableString NavigableString "hello" ;;
        append 8 root (VNode p1) ;;;
        append 8 root (VNode sp) ;;;
        append 8 sp (VNode p3) ;;;
        append 8 root (VNode a4) ;;;
        append 8 root (VNode p5) ;;;
        append 8 root (VNode t6)) empty_heap).

Local Open Scope string_scope.

(** ** Rendering *)

(** A tag whose only child is a plain text node, in an HTML tree. *)
Definition holds_one_text (h : heap) (t c : id) (s : string) : Prop :=
  kind h t = KTag /\ contents h t = [c] /\ attrs h t = [] /\
  prefix h t = None /\ hidden h t = false /\
  kind h c = KStr NavigableString /\ text h c = s /\ parent h c = Some t /\
  exists k, _is_xml k h t = Ok false.

(** The substitution that a named policy selects in an HTML tree (lines
    175-179 and 219-220). *)
Definition named_substitution (substitute_html substitute_xml_containing_entities
    : string -> string) (policy : string) : string -> string :=
  if String.eqb policy "html" then substitute_html
  else substitute_xml_containing_entities.

(** Modelled from the spec: the entity substitution of sigil_bs4/dammit.py
    ([EntitySubstitution.substitute_xml]), a module other than element.py.
    The specification calls it minimal XML-entity escaping, and lines
    162-163 of element.py say what it does: ampersands and angle brackets
    are converted to [&amp;], [&lt;] and [&gt;]. *)
Fixpoint xml_escape (s : string) : string :=
  match s with
  | EmptyString => EmptyString
  | String c s' =>
      (if Ascii.eqb c "&" then "&amp;"
       else if Ascii.eqb c "<" then "&lt;"
       else if Ascii.eqb c ">" then "&gt;"
       else String c EmptyString) ++ xml_escape s'
  end.

(** A substitution escapes the character [<]. *)
Definition escapes_lt (f : string -> string) : Prop :=
  forall a b, f (a ++ "<" ++ b) = f a ++ "&lt;" ++ f b.

(** [<script>a<b</script>] (tag 0, text 1) and [<p>a<b</p>] (tag 2,
    text 3), each the root of an HTML tree. *)
Definition script_and_p : heap :=
  Eval vm_compute in
  fst ((sc <- new_Tag "script" [] ;;
        t1 <- new_NavigableString NavigableString "a<b" ;;
        p <- new_Tag "p" [] ;;
        t3 <- new_NavigableString NavigableString "a<b" ;;
        append 8 sc (VNode t1) ;;;
        append 8 p (VNode t3)) empty_heap).

(** Whatever the formatter, the text of [<script>] is rendered as it is and
    the text of [<p>] is escaped, at [script_and_p]. *)
Definition escaped_under_every_policy : Prop :=
  forall fm,
    decode xml_escape xml_escape xml_escape (fun s => s) 8 script_and_p 0%nat fm
    = Ok "<script>a<b</script>" /\
    decode xml_escape xml_escape xml_escape (fun s => s) 8 script_and_p 2%nat fm
    = Ok "<p>a&lt;b</p>".

Local Close Scope string_scope.

(** ** Further predicates and examples *)

Local Open Scope string_scope.

(** A tag whose only child is a plain text node; nothing is said of the
    tree it belongs to. *)
Definition holds_text (h : heap) (t c : id) (s : string) : Prop :=
  kind h t = KTag /\ contents h t = [c] /\ attrs h t = [] /\
  prefix h t = None /\ hidden h t = false /\
  kind h c = KStr NavigableString /\ text h c = s /\ parent h c = Some t.

(** The substitution that a named policy selects in an XML tree (lines
    181-185 and 215-217). *)
Definition xml_named_substitution (substitute_html substitute_xml
    substitute_xml_containing_entities : string -> string) (policy : string)
  : string -> string :=
  if String.eqb policy "html" then substitute_html
  else if String.eqb policy "minimal" then substitute_xml_containing_entities
  else substitute_xml.

(** An XML tree: the root [<doc>] (tag 0, [is_xml] set) holds
    [<script>a<b</script>] (tag 1, text 2), the comment [<!--a<b-->] (3) and
    the tag [<br>] (4), which can be an empty element. *)
Definition xml_page : heap :=
  Eval vm_compute in
  let h := fst ((root <- new_Tag "doc" [] ;;
                 sc <- new_Tag "script" [] ;;
                 t2 <- new_NavigableString NavigableString "a<b" ;;
                 c3 <- new_NavigableString Comment "a<b" ;;
                 br <- new_Tag "br" [] ;;
                 append 8 sc (VNode t2) ;;;
                 append 8 root (VNode sc) ;;;
                 append 8 root (VNode c3) ;;;
                 append 8 root (VNode br)) empty_heap) in
  mkHeap (kind h) (name h) (attrs h) (text h) (hidden h)
    (upd (can_be_empty_element h) 4%nat true) (prefix h)
    (upd (is_xml h) 0%nat (Some true))
    (contents h) (parent h) (previous_element h) (next_element h)
    (previous_sibling h) (next_sibling h) (fresh h).

(** [<div><a id="x" class="a b"></a></div>]: the tag 0 holds the tag 1, whose
    attributes were set in the order [id], [class]. *)
Definition two_attributes : heap :=
  Eval vm_compute in
  fst ((root <- new_Tag "div" [] ;;
        a <- new_Tag "a" [("id", AStr "x"); ("class", AList ["a"; "b"])] ;;
        append 8 root (VNode a)) empty_heap).

(** A height for [equal_texts_tree]. *)
Definition equal_texts_height (x : id) : nat :=
  match x with
  | O => 1%nat
  | _ => 0%nat
  end.

(** [<div><is_xml></is_xml><script>a<b</script></div>]: the tag 0, which has
    no attribute [is_xml], holds the tag 1, named [is_xml], and the tag 2,
    which holds the text 3. *)
Definition is_xml_page : heap :=
  Eval vm_compute in
  fst ((root <- new_Tag "div" [] ;;
        x <- new_Tag "is_xml" [] ;;
        sc <- new_Tag "script" [] ;;
        t3 <- new_NavigableString NavigableString "a<b" ;;
        append 8 sc (VNode t3) ;;;
        append 8 root (VNode x) ;;;
        append 8 root (VNode sc)) empty_heap).

(** A height for [is_xml_page]. *)
Definition is_xml_page_height (x : id) : nat :=
  match x with
  | 0%nat => 2%nat
  | 2%nat => 1%nat
  | _ => 0%nat
  end.

Local Close Scope string_scope.

(** * Proofs *)

(** ** Lists *)

Lemma index_of_In (x : id) (l : list id) :
  In x l -> exists i, index_of x l = Some i.
Proof.
  induction l as [|y l IH]; simpl; [tauto|].
  intros [->|H].
  - rewrite Nat.eqb_refl. eauto.
  - destruct (Nat.eqb y x); [eauto|].
    destruct (IH H) as [i ->]. eauto.
Qed.

Lemma index_of_Some (x : id) (l : list id) (i : nat) :
  index_of x l = Some i -> nth_error l i = Some x /\ (i < length l)%nat.
Proof.
  revert i. induction l as [|y l IH]; simpl; [discriminate|].
  intros i. destruct (Nat.eqb y x) eqn:E.
  - intros [= <-]. apply Nat.eqb_eq in E. subst. simpl. split; [reflexivity|lia].
  - destruct (index_of x l); [|discriminate].
    intros [= <-]. destruct (IH _ eq_refl). simpl. split; [assumption|lia].
Qed.

Lemma index_of_not_In (x : id) (l : list id) :
  ~ In x l -> index_of x l = None.
Proof.
  induction l as [|y l IH]; simpl; [reflexivity|].
  intros H. destruct (Nat.eqb y x) eqn:E.
  - apply Nat.eqb_eq in E. tauto.
  - rewrite IH; tauto.
Qed.

Lemma index_of_app_fresh (c : id) (l1 l2 : list id) :
  ~ In c l1 -> index_of c (l1 ++ c :: l2) = Some (length l1).
Proof.
  induction l1 as [|y l1 IH]; simpl; intros H.
  - now rewrite Nat.eqb_refl.
  - destruct (Nat.eqb y c) eqn:E.
    + apply Nat.eqb_eq in E. tauto.
    + rewrite IH; tauto.
Qed.

Lemma In_remove_at {A} (i : nat) (l : list A) (x : A) :
  In x (remove_at i l) -> In x l.
Proof.
  unfold remove_at. revert i. induction l as [|a l IH]; intros [|i]; simpl; auto.
  - intros [H|H]; [now left | right; eauto].
Qed.

Lemma length_remove_at {A} (i : nat) (l : list A) :
  (i < length l)%nat -> length (remove_at i l) = (length l - 1)%nat.
Proof.
  intros H. unfold remove_at.
  rewrite length_app, length_firstn, length_skipn. lia.
Qed.

Lemma py_insert_in_range {A} (l : list A) (i : Z) (x : A) :
  0 <= i <= Z.of_nat (length l) ->
  py_insert l i x = firstn (Z.to_nat i) l ++ x :: skipn (Z.to_nat i) l.
Proof.
  intros H. unfold py_insert.
  destruct (i <? 0) eqn:E; [apply Z.ltb_lt in E; lia|].
  now rewrite Z.min_l by lia.
Qed.

Lemma nth_error_insert_at {A} (k : nat) (l : list A) (x : A) :
  (k <= length l)%nat -> nth_error (firstn k l ++ x :: skipn k l) k = Some x.
Proof.
  intros H. rewrite nth_error_app2; rewrite length_firstn, Nat.min_l by lia; [|lia].
  now rewrite Nat.sub_diag.
Qed.

Lemma insert_remove_at {A} (k : nat) (l : list A) (x : A) :
  nth_error l k = Some x ->
  firstn k (remove_at k l) ++ x :: skipn k (remove_at k l) = l.
Proof.
  revert l. induction k as [|k IH]; intros [|a l]; simpl; try discriminate.
  - now intros [= ->].
  - intros H. unfold remove_at in *. simpl. f_equal. now apply IH.
Qed.

Lemma remove_insert_at {A} (k : nat) (l : list A) (x : A) :
  (k <= length l)%nat ->
  remove_at k (firstn k l ++ x :: skipn k l) = l.
Proof.
  revert l. induction k as [|k IH]; intros l H.
  - reflexivity.
  - destruct l as [|a l]; simpl in *; [lia|].
    unfold remove_at in *. simpl. f_equal. apply IH. lia.
Qed.

Lemma py_nth_in_range {A} (l : list A) (i : Z) :
  0 <= i < Z.of_nat (length l) -> py_nth l i = nth_error l (Z.to_nat i).
Proof.
  intros H. unfold py_nth.
  destruct (0 <=? i) eqn:E1; [|apply Z.leb_gt in E1; lia].
  destruct (i <? Z.of_nat (length l)) eqn:E2; [|apply Z.ltb_ge in E2; lia].
  reflexivity.
Qed.

Lemma py_nth_In {A} (l : list A) (i : Z) (x : A) :
  py_nth l i = Some x -> In x l.
Proof.
  unfold py_nth.
  destruct (_ && _); [apply nth_error_In|].
  destruct (_ && _); [apply nth_error_In|discriminate].
Qed.

Lemma py_nth_Some {A} (l : list A) (i : Z) :
  - Z.of_nat (length l) <= i < Z.of_nat (length l) -> exists x, py_nth l i = Some x.
Proof.
  intros H. unfold py_nth.
  destruct (0 <=? i) eqn:E1.
  - apply Z.leb_le in E1.
    destruct (i <? Z.of_nat (length l)) eqn:E2; [|apply Z.ltb_ge in E2; lia].
    cbn [andb]. destruct (nth_error l (Z.to_nat i)) eqn:E; [eauto|].
    apply nth_error_None in E. lia.
  - apply Z.leb_gt in E1. cbn [andb].
    destruct (- Z.of_nat (length l) <=? i) eqn:E3; [|apply Z.leb_gt in E3; lia].
    destruct (i <? 0) eqn:E4; [|apply Z.ltb_ge in E4; lia].
    cbn [andb]. destruct (nth_error l (Z.to_nat (Z.of_nat (length l) + i))) eqn:E; [eauto|].
    apply nth_error_None in E. lia.
Qed.

Lemma linkable_index (l : list id) (pos : Z) :
  0 <= pos <= Z.of_nat (length l) -> linkable l pos.
Proof. unfold linkable. lia. Qed.

(** ** The store *)

Lemma upd_same {A} (f : id -> A) (x : id) (v : A) : upd f x v x = v.
Proof. unfold upd. now rewrite Nat.eqb_refl. Qed.

Lemma upd_other {A} (f : id -> A) (x y : id) (v : A) :
  y <> x -> upd f x v y = f y.
Proof. unfold upd. intros H. apply Nat.eqb_neq in H. now rewrite H. Qed.

(** ** The loops return on a tree *)

Lemma descend_total ht N h fuel x :
  acyclic_by ht N h -> (ht x < fuel)%nat -> exists l, descend fuel h x = Ok l.
Proof.
  intros [_ Hd]. revert x. induction fuel as [|f IH]; intros x Hx; [lia|].
  simpl. destruct (kind h x) eqn:K; [|eauto].
  destruct (py_nth (contents h x) (-1)) as [c|] eqn:E; [|eauto].
  apply IH. apply py_nth_In in E. specialize (Hd x c K E). lia.
Qed.

Lemma py_eq_total ht N h fuel a b :
  acyclic_by ht N h -> (ht a < fuel)%nat -> exists r, py_eq fuel h a b = Ok r.
Proof.
  intros [_ Hd]. revert a b. induction fuel as [|f IH]; intros a b Ha; [lia|].
  simpl. destruct (kind h a) eqn:Ka, (kind h b) eqn:Kb; eauto.
  destruct (Nat.eqb a b); [eauto|].
  destruct (_ || _); [eauto|].
  assert (Hc : forall c, In c (contents h a) -> (ht c < f)%nat).
  { intros c Hc. specialize (Hd a c Ka Hc). lia. }
  generalize (contents h b). revert Hc.
  induction (contents h a) as [|x l1 IHl]; intros Hc l2; [eauto|].
  destruct l2 as [|y l2]; [eauto|].
  destruct (IH x y (Hc x (or_introl eq_refl))) as [[|] ->]; [|eauto].
  apply IHl. intros c Hin. apply Hc. now right.
Qed.

Lemma py_ne_total ht N h fuel a o :
  acyclic_by ht N h -> (N <= fuel)%nat -> exists r, py_ne fuel h a o = Ok r.
Proof.
  intros H Hf. destruct o as [b|]; simpl; [|eauto].
  destruct (py_eq_total ht N h fuel a b H) as [r ->]; [|simpl; eauto].
  destruct H as [Hb _]. specialize (Hb a). lia.
Qed.

Lemma climb_total h fuel x l :
  ancestors h x l -> (length l + 1 < fuel)%nat ->
  exists r, climb fuel h (Some x) = Ok r.
Proof.
  intros H. revert fuel. induction H as [x Hp|x p l Hp H IH]; intros fuel Hf.
  - destruct fuel as [|[|f]]; simpl in *; try lia.
    destruct (next_sibling h x); [eauto|]. rewrite Hp. eauto.
  - destruct fuel as [|f]; simpl in *; [lia|].
    destruct (next_sibling h x); [eauto|]. rewrite Hp. apply IH. lia.
Qed.

(** ** Rules of the weakest precondition *)

Lemma wp_elim {A} (m : M A) Q h :
  wp m Q h -> exists h' a, m h = (h', Ok a) /\ Q a h'.
Proof.
  unfold wp. destruct (m h) as [h' [a|e|]]; try tauto. eauto.
Qed.

Lemma wp_intro {A} (m : M A) (Q : A -> heap -> Prop) h h' a :
  m h = (h', Ok a) -> Q a h' -> wp m Q h.
Proof. unfold wp. now intros ->. Qed.

Lemma wp_bind {A B} (m : M A) (k : A -> M B) Q h :
  wp m (fun a h' => wp (k a) Q h') h -> wp (bind m k) Q h.
Proof.
  unfold wp, bind. destruct (m h) as [h' [a|e|]]; tauto.
Qed.

Lemma wp_conseq {A} (m : M A) (Q Q' : A -> heap -> Prop) h :
  wp m Q h -> (forall a h', Q a h' -> Q' a h') -> wp m Q' h.
Proof.
  unfold wp. destruct (m h) as [h' [a|e|]]; auto.
Qed.

Lemma wp_ret {A} (a : A) (Q : A -> heap -> Prop) h : Q a h -> wp (ret a) Q h.
Proof. exact (fun H => H). Qed.

Lemma wp_read {A} (f : heap -> id -> A) x (Q : A -> heap -> Prop) h :
  Q (f h x) h -> wp (read f x) Q h.
Proof. exact (fun H => H). Qed.

Lemma wp_write g (Q : unit -> heap -> Prop) h : Q tt (g h) -> wp (write g) Q h.
Proof. exact (fun H => H). Qed.

Lemma wp_pure_call {A} (f : heap -> res A) a (Q : A -> heap -> Prop) h :
  f h = Ok a -> Q a h -> wp (pure_call f) Q h.
Proof. unfold wp, pure_call. now intros ->. Qed.

Lemma wp_deref {A} (a : A) (Q : A -> heap -> Prop) h :
  Q a h -> wp (deref (Some a)) Q h.
Proof. exact (fun H => H). Qed.

Lemma wp_get_contents q (Q : list id -> heap -> Prop) h :
  kind h q = KTag -> Q (contents h q) h -> wp (get_contents q) Q h.
Proof. unfold wp, get_contents. now intros ->. Qed.

Lemma wp_index q x i (Q : nat -> heap -> Prop) h :
  kind h q = KTag -> index_of x (contents h q) = Some i -> Q i h ->
  wp (index q x) Q h.
Proof. unfold wp, index. now intros -> ->. Qed.

Ltac wp_step :=
  lazymatch goal with
  | |- wp (bind _ _) _ _ => apply wp_bind
  | |- wp (ret _) _ _ => apply wp_ret
  | |- wp (read _ _) _ _ => apply wp_read
  | |- wp (write _) _ _ => apply wp_write
  | |- wp (deref (Some _)) _ _ => apply wp_deref
  | |- wp (when true _) _ _ => unfold when
  | |- wp (when false _) _ _ => unfold when
  end; cbv beta.

Ltac wp_steps := repeat wp_step.

(** ** [extract] *)

Lemma upd_copy {A} (f : id -> A) (a x : id) : upd f a (f x) x = f x.
Proof. unfold upd. now destruct (Nat.eqb x a). Qed.

Lemma same_but_elements_refl h : same_but_elements h h.
Proof. unfold same_but_elements. tauto. Qed.

Lemma acyclic_shape ht N h h' :
  kind h' = kind h -> contents h' = contents h ->
  acyclic_by ht N h -> acyclic_by ht N h'.
Proof. unfold acyclic_by. intros -> ->. tauto. Qed.

Lemma wp_heal_elements ht N fuel a b setf h0 h :
  acyclic_by ht N h0 -> (N <= fuel)%nat -> same_but_elements h0 h ->
  (forall x v h1, same_but_elements h0 h1 -> same_but_elements h0 (setf x v h1)) ->
  wp (heal fuel a b setf) (fun _ h' => same_but_elements h0 h') h.
Proof.
  intros Hac Hf Hs Hset. unfold heal. destruct a as [a|]; [|now apply wp_ret].
  destruct (py_ne_total ht N h fuel a b) as [r Hr]; [|assumption|].
  { eapply acyclic_shape; [| |exact Hac]; apply Hs. }
  wp_step. eapply wp_pure_call; [exact Hr|].
  destruct r; wp_steps; auto.
Qed.

Lemma wp_heal ht N fuel a b setf h :
  acyclic_by ht N h -> (N <= fuel)%nat ->
  wp (heal fuel a b setf)
     (fun _ h' => h' = h \/ exists a', a = Some a' /\ h' = setf a' b h) h.
Proof.
  intros Hac Hf. unfold heal. destruct a as [a|]; [|apply wp_ret; now left].
  destruct (py_ne_total ht N h fuel a b Hac Hf) as [r Hr].
  wp_step. eapply wp_pure_call; [exact Hr|].
  destruct r; wp_steps; eauto.
Qed.

Lemma acyclic_remove ht N h q i :
  acyclic_by ht N h ->
  acyclic_by ht N (set_contents q (remove_at i (contents h q)) h).
Proof.
  intros [Hb Hd]. split; [exact Hb|].
  intros x c K. cbn [contents set_contents]. unfold upd.
  destruct (Nat.eqb x q) eqn:E.
  - apply Nat.eqb_eq in E. subst. intros Hin. apply In_remove_at in Hin. now apply Hd.
  - now apply Hd.
Qed.

Lemma last_descendant_init_total ht N fuel h x :
  acyclic_by ht N h -> (N <= fuel)%nat ->
  (forall s, next_sibling h x = Some s -> truthy h s = true ->
             previous_element h s <> None) ->
  exists l, _last_descendant fuel x true true h = Ok (Some l).
Proof.
  intros Hac Hf Hns. unfold _last_descendant. cbn [andb negb].
  destruct (next_sibling h x) as [s|] eqn:E; cbn [opt_truthy].
  - destruct (truthy h s) eqn:T.
    + destruct (previous_element h s) as [l|] eqn:P; [simpl; eauto|].
      exfalso. now apply (Hns s eq_refl T).
    + destruct (descend_total ht N h fuel x Hac) as [l ->]; [|simpl; eauto].
      destruct Hac as [Hb _]. specialize (Hb x). lia.
  - destruct (descend_total ht N h fuel x Hac) as [l ->]; [|simpl; eauto].
    destruct Hac as [Hb _]. specialize (Hb x). lia.
Qed.

(** [extract] returns on a tree and detaches the node. *)
Lemma extract_spec ht N h fuel x :
  acyclic_by ht N h -> (N <= fuel)%nat -> extractable h x ->
  wp (extract fuel x) (fun r h' => r = x /\ extract_post h x h') h.
Proof.
  intros Hac Hf [Hpar Hns].
  unfold extract. wp_steps.
  apply wp_conseq with
    (Q := fun _ h1 => h1 = mkHeap (kind h) (name h) (attrs h) (text h) (hidden h)
            (can_be_empty_element h) (prefix h) (is_xml h)
            (contents_without h x) (parent h) (previous_element h)
            (next_element h) (previous_sibling h) (next_sibling h) (fresh h)).
  { unfold contents_without. destruct (parent h x) as [q|] eqn:Hp.
    - destruct (Hpar q eq_refl) as [Kq Hin].
      destruct (index_of_In _ _ Hin) as [i Hi].
      wp_steps. apply wp_get_contents; [assumption|].
      wp_steps. apply (wp_index q x i); [assumption..|].
      wp_steps. rewrite Hi. reflexivity.
    - wp_steps. now destruct h. }
  intros _ ha ->.
  match goal with |- wp _ _ ?h0 => set (ha := h0) end.
  assert (Hac' : acyclic_by ht N ha).
  { destruct Hac as [Hb Hd]. split; [exact Hb|].
    intros y c K. cbn [ha contents]. unfold contents_without.
    destruct (parent h x) as [q|]; [|now apply Hd].
    destruct (index_of x (contents h q)) as [i|]; [|now apply Hd].
    unfold upd. destruct (Nat.eqb y q) eqn:E; [|now apply Hd].
    apply Nat.eqb_eq in E. subst. intros Hin. apply In_remove_at in Hin.
    now apply Hd. }
  destruct (last_descendant_init_total ht N fuel ha x Hac' Hf Hns) as [lc Hlc].
  wp_step. eapply wp_pure_call; [exact Hlc|].
  wp_steps.
  eapply wp_conseq.
  { eapply wp_heal_elements with (h0 := ha); eauto using same_but_elements_refl;
    intros; unfold same_but_elements in *; cbn; tauto. }
  cbv beta. intros _ h1 S1. wp_steps.
  eapply wp_conseq.
  { eapply wp_heal_elements with (h0 := ha); eauto;
    intros; unfold same_but_elements in *; cbn; tauto. }
  cbv beta. intros _ h2 S2. wp_steps.
  clear h1 S1.
  destruct S2 as (Ek & En & Ea & Et & _ & _ & _ & _ & Ef & Ec & Ep & Eps & Ens).
  cbn [ha kind name attrs text fresh contents parent previous_sibling next_sibling] in *.
  match goal with |- wp _ _ ?h0 => set (h3 := h0) end.
  assert (Hac3 : acyclic_by ht N h3).
  { eapply acyclic_shape; [| |exact Hac']; assumption. }
  eapply wp_conseq; [apply (wp_heal ht N); assumption|].
  cbv beta. intros _ h4 H4. wp_steps.
  eapply wp_conseq.
  { apply (wp_heal ht N); [|assumption].
    destruct H4 as [-> | (a & _ & ->)]; [assumption|].
    eapply acyclic_shape; [| |exact Hac3]; reflexivity. }
  cbv beta. intros _ h5 H5. wp_steps. split; [reflexivity|].
  unfold extract_post.
  destruct H4 as [-> | (a & Ha & ->)], H5 as [-> | (b & Hb & ->)];
    cbn [h3 set_parent set_next_element set_previous_element set_next_sibling
         set_previous_sibling kind name attrs text fresh contents parent
         previous_sibling next_sibling] in *;
    rewrite ?Ek, ?En, ?Ea, ?Et, ?Ef, ?Ec, ?Ep, ?Eps, ?Ens, ?upd_same, ?upd_copy in *.
  all: repeat (split; [reflexivity|]).
  all: split; intros y Hy Hn; repeat (rewrite upd_other; [|congruence]); reflexivity.
Qed.

(** ** [insert] *)

Lemma ancestors_ext h h' x l :
  (forall y, In y (x :: l) -> parent h' y = parent h y) ->
  ancestors h x l -> ancestors h' x l.
Proof.
  intros Hext H. induction H as [x Hp|x p l Hp H IH].
  - apply ancestors_root. rewrite Hext; [assumption|now left].
  - apply ancestors_step.
    + rewrite Hext; [assumption|now left].
    + apply IH. intros y Hy. apply Hext. now right.
Qed.

Lemma last_descendant_walk_total ht N fuel h x :
  acyclic_by ht N h -> (N <= fuel)%nat ->
  exists l, _last_descendant fuel x false true h = Ok (Some l).
Proof.
  intros Hac Hf. unfold _last_descendant. cbn [andb negb].
  destruct (descend_total ht N h fuel x Hac) as [l ->]; [|simpl; eauto].
  destruct Hac as [Hb _]. specialize (Hb x). lia.
Qed.

Lemma link_previous_spec ht N h fuel t pos c :
  acyclic_by ht N h -> (N <= fuel)%nat ->
  kind h t = KTag -> linkable (contents h t) pos ->
  wp (link_previous fuel t pos c) (fun _ h' => link_previous_post h t pos c h') h.
Proof.
  intros Hac Hf Kt [Hle Hpos].
  unfold link_previous, link_previous_post, previous_child_of. wp_steps.
  destruct (pos =? 0) eqn:E0.
  - wp_steps. cbn [previous_element set_previous_element]. rewrite upd_same.
    wp_steps. cbn. tauto.
  - apply Z.eqb_neq in E0. wp_steps.
    apply wp_get_contents; [exact Kt|]. cbn [contents set_parent].
    destruct (py_nth_Some (contents h t) (pos - 1)) as [pc Hpc]; [lia|].
    rewrite Hpc. wp_steps.
    cbn [previous_sibling set_previous_sibling]. rewrite upd_same. wp_steps.
    match goal with |- wp _ _ ?h0 => set (h1 := h0) end.
    destruct (last_descendant_walk_total ht N fuel h1 pc) as [e He];
      [exact Hac|assumption|].
    eapply wp_pure_call; [exact He|]. wp_steps.
    cbn [previous_element set_previous_element]. rewrite upd_same.
    wp_steps. cbn. tauto.
Qed.

Lemma climb_first fuel h x s r :
  next_sibling h x = Some s -> climb fuel h (Some x) = Ok r -> r = Some s.
Proof.
  destruct fuel as [|f]; simpl; [discriminate|]. intros ->. now intros [= <-].
Qed.

Lemma link_next_spec ht N h fuel t pos c l :
  acyclic_by ht N h -> (N <= fuel)%nat ->
  ancestors h t l -> (length l + 1 < fuel)%nat -> c <> t ->
  kind h t = KTag -> linkable (contents h t) pos ->
  wp (link_next fuel t pos c) (fun _ h' => link_next_post h t pos c h') h.
Proof.
  intros Hac Hf Hanc Hfl Hct Kt [Hle Hpos].
  unfold link_next, link_next_post, next_child_of.
  destruct (last_descendant_walk_total ht N fuel h c Hac Hf) as [e He].
  wp_step. eapply wp_pure_call; [exact He|]. wp_steps.
  apply wp_get_contents; [exact Kt|]. wp_steps.
  destruct (pos >=? Z.of_nat (length (contents h t))) eqn:E.
  - wp_steps.
    match goal with |- wp _ _ ?h0 => set (h1 := h0) end.
    destruct (climb_total h1 fuel t l) as [r Hr];
      [eapply ancestors_ext; [|exact Hanc]; reflexivity|assumption|].
    eapply wp_pure_call; [exact Hr|]. wp_steps.
    cbn [next_element set_next_element]. rewrite upd_same.
    assert (Hs : forall s, next_sibling h t = Some s -> r = Some s).
    { intros s Hs. eapply climb_first; [|exact Hr].
      cbn [h1 next_sibling set_next_sibling]. now rewrite upd_other by congruence. }
    destruct r as [b|]; wp_steps; (apply wp_get_contents; [exact Kt|]); wp_steps;
      cbn; repeat (split; [reflexivity|]).
    + intros _ s Hs'. apply Hs in Hs'. injection Hs' as ->. now rewrite upd_same.
    + intros _ s Hs'. apply Hs in Hs'. discriminate.
  - assert (pos < Z.of_nat (length (contents h t))) by lia.
    destruct (py_nth_Some (contents h t) pos) as [nc Hnc]; [lia|].
    rewrite Hnc. wp_steps.
    cbn [next_sibling set_next_sibling]. rewrite upd_same. wp_steps.
    cbn [next_element set_next_element set_previous_sibling]. rewrite upd_same.
    wp_steps. apply wp_get_contents; [exact Kt|]. wp_steps.
    cbn. repeat (split; [reflexivity|]). lia.
Qed.

Lemma acyclic_irrefl ht N h x :
  acyclic_by ht N h -> kind h x = KTag -> ~ In x (contents h x).
Proof.
  intros [_ Hd] K Hin. specialize (Hd x x K Hin). lia.
Qed.

(** The wiring of [insert] returns at every position that the list can
    take. *)
Lemma insert_links_spec ht N h fuel t pos c l :
  acyclic_by ht N h -> (N <= fuel)%nat ->
  ancestors h t l -> (length l + 1 < fuel)%nat -> ~ In c (t :: l) ->
  kind h t = KTag -> linkable (contents h t) pos ->
  wp (insert_links fuel t pos c) (fun _ h' => insert_links_post h t pos c h') h.
Proof.
  intros Hac Hf Hanc Hfl Hc Kt Hpos.
  assert (Hct : c <> t) by (intros ->; apply Hc; now left).
  unfold insert_links. wp_step.
  eapply wp_conseq; [now apply (link_previous_spec ht N)|].
  cbv beta. intros _ h1 (Ek & En & Ea & Et & Ef & Ec & Ep & Eps & Ens).
  eapply wp_conseq.
  { apply (link_next_spec ht N h1 fuel t pos c l); try assumption.
    - eapply acyclic_shape; [exact Ek|exact Ec|exact Hac].
    - eapply ancestors_ext; [|exact Hanc]. intros y Hy. rewrite Ep.
      apply upd_other. intros ->. now apply Hc.
    - now rewrite Ek.
    - now rewrite Ec. }
  cbv beta. intros _ h2 (Ek2 & En2 & Ea2 & Et2 & Ef2 & Ec2 & Ep2 & Ens2 & Eps2 & Hpe).
  unfold insert_links_post.
  assert (Enc : next_child_of h1 t pos = next_child_of h t pos).
  { unfold next_child_of. now rewrite Ec. }
  rewrite Ek2, En2, Ea2, Et2, Ef2, Ec2, Ep2, Ens2, Eps2, Enc.
  rewrite Ek, En, Ea, Et, Ef, Ec, Ep, Ens, Eps.
  repeat (split; [reflexivity|]).
  intros Hlen s Hs. apply Hpe; [now rewrite Ec|].
  rewrite Ens. unfold previous_child_of.
  destruct (pos =? 0); [assumption|].
  destruct (py_nth (contents h t) (pos - 1)) as [pc|] eqn:Hpc; [|assumption].
  rewrite upd_other; [assumption|].
  intros ->. apply py_nth_In in Hpc. now apply (acyclic_irrefl ht N h pc).
Qed.

Lemma acyclic_without ht N h h' x :
  acyclic_by ht N h -> kind h' = kind h -> contents h' = contents_without h x ->
  acyclic_by ht N h'.
Proof.
  intros [Hb Hd] Ek Ec. split; [exact Hb|].
  intros y c. rewrite Ek, Ec. unfold contents_without. intros K.
  destruct (parent h x) as [q|]; [|now apply Hd].
  destruct (index_of x (contents h q)) as [i|]; [|now apply Hd].
  unfold upd. destruct (Nat.eqb y q) eqn:E; [|now apply Hd].
  apply Nat.eqb_eq in E. subst. intros Hin. apply In_remove_at in Hin.
  now apply Hd.
Qed.

Lemma insert_position_range h t p c :
  0 <= p ->
  (forall q, parent h c = Some q -> In c (contents h q)) ->
  0 <= insert_position h t p c <= Z.of_nat (length (contents_without h c t)).
Proof.
  intros Hp Hin. unfold insert_position, contents_without.
  destruct (parent h c) as [q|] eqn:Ep; [|lia].
  destruct (index_of_In _ _ (Hin q eq_refl)) as [i Hi]. rewrite Hi.
  destruct (index_of_Some _ _ _ Hi) as [_ Hlt].
  destruct (Nat.eqb q t) eqn:E.
  - apply Nat.eqb_eq in E. subst q. rewrite Hi, upd_same.
    rewrite length_remove_at by assumption.
    destruct (Z.of_nat i <? _) eqn:El; [apply Z.ltb_lt in El|apply Z.ltb_ge in El]; lia.
  - apply Nat.eqb_neq in E. rewrite upd_other by congruence. lia.
Qed.

Lemma attached_child h c :
  parent h c = None \/ extractable h c ->
  forall q, parent h c = Some q -> In c (contents h q).
Proof.
  intros [H|H] q Hq; [congruence|]. exact (proj2 (proj1 H q Hq)).
Qed.

(** [insert] of a node at a position [p >= 0] returns. *)
Lemma insert_node_spec ht N h fuel t p c l :
  acyclic_by ht N h -> (N <= fuel)%nat ->
  ancestors h t l -> (length l + 1 < fuel)%nat -> ~ In c (t :: l) ->
  kind h t = KTag -> 0 <= p -> (parent h c = None \/ extractable h c) ->
  wp (insert fuel t p (VNode c)) (fun _ h' => insert_post h t p c h') h.
Proof.
  intros Hac Hf Hanc Hfl Hc Kt Hp Hex.
  assert (Hct : c <> t) by (intros ->; apply Hc; now left).
  pose proof (insert_position_range h t p c Hp (attached_child h c Hex)) as Hrange.
  unfold insert. apply Nat.eqb_neq in Hct. rewrite Hct. apply Nat.eqb_neq in Hct.
  wp_steps. apply wp_get_contents; [exact Kt|]. wp_steps.
  unfold insert_post, insert_position in *. unfold contents_without in Hrange.
  destruct (parent h c) as [q|] eqn:Ep.
  - destruct Hex as [Hex|Hex]; [congruence|].
    destruct (proj1 Hex q Ep) as [Kq Hin].
    destruct (index_of_In _ _ Hin) as [i Hi]. rewrite Hi in Hrange.
    wp_step.
    apply wp_conseq with
      (Q := fun r h0 => h0 = h /\
              r = if Nat.eqb q t
                  then match index_of c (contents h t) with
                       | Some i => if Z.of_nat i <? Z.min p (Z.of_nat (length (contents h t)))
                                   then Z.min p (Z.of_nat (length (contents h t))) - 1
                                   else Z.min p (Z.of_nat (length (contents h t)))
                       | None => Z.min p (Z.of_nat (length (contents h t)))
                       end
                  else Z.min p (Z.of_nat (length (contents h t)))).
    { destruct (Nat.eqb q t) eqn:E.
      - apply Nat.eqb_eq in E. subst q. wp_steps.
        apply (wp_index t c i); [assumption..|]. wp_steps. rewrite Hi. tauto.
      - wp_steps. tauto. }
    cbv beta. intros pos' h0 [-> ->]. wp_steps.
    eapply wp_conseq; [apply (extract_spec ht N); eassumption|].
    cbv beta. intros r h1 [-> Hpost]. wp_steps.
    pose proof Hpost as (Ek & En & Ea & Et & Ef & Ec & Epar & _).
    eapply wp_conseq.
    { apply (insert_links_spec ht N h1 fuel t _ c l); try assumption.
      - eapply acyclic_without; eassumption.
      - eapply ancestors_ext; [|exact Hanc]. intros y Hy. rewrite Epar.
        apply upd_other. intros ->. now apply Hc.
      - now rewrite Ek.
      - rewrite Ec. unfold contents_without. rewrite Ep, Hi.
        apply linkable_index. exact Hrange. }
    cbv beta. intros _ h2 H2. exists h1. split; [right; split; [discriminate|assumption]|].
    exact H2.
  - wp_steps.
    eapply wp_conseq.
    { apply (insert_links_spec ht N h fuel t _ c l); try eassumption.
      apply linkable_index. exact Hrange. }
    cbv beta. intros _ h2 H2. exists h. split; [now left|]. exact H2.
Qed.

Lemma insert_position_child_below h t p c :
  insert_position h t p c
  = let pos := Z.min p (Z.of_nat (length (contents h t))) in
    if child_below h t p c then pos - 1 else pos.
Proof.
  unfold insert_position, child_below. cbv zeta.
  destruct (parent h c) as [q|]; [|reflexivity].
  destruct (Nat.eqb q t); cbn [andb].
  - destruct (index_of c (contents h t)) as [i|] eqn:Hi; [|reflexivity].
    destruct (index_of_Some _ _ _ Hi) as [_ Hlt].
    destruct (Z.of_nat i <? p) eqn:E1;
      [apply Z.ltb_lt in E1|apply Z.ltb_ge in E1];
      destruct (Z.of_nat i <? _) eqn:E2;
      [apply Z.ltb_lt in E2|apply Z.ltb_ge in E2| apply Z.ltb_lt in E2|apply Z.ltb_ge in E2];
      try reflexivity; lia.
  - now destruct (index_of c (contents h t)).
Qed.

(** ** [insert] of a plain string *)

Lemma bind_ok {A B} (m : M A) (k : A -> M B) h h' a :
  m h = (h', Ok a) -> bind m k h = k a h'.
Proof. unfold bind. now intros ->. Qed.

Lemma py_nth_None {A} (l : list A) (i : Z) :
  i < - Z.of_nat (length l) -> py_nth l i = None.
Proof.
  intros H. unfold py_nth.
  destruct (0 <=? i) eqn:E1; [apply Z.leb_le in E1; lia|].
  destruct (- Z.of_nat (length l) <=? i) eqn:E2; [apply Z.leb_le in E2; lia|].
  reflexivity.
Qed.

Lemma insert_links_index_error fuel h t pos c :
  kind h t = KTag -> pos <> 0 -> pos <= - Z.of_nat (length (contents h t)) ->
  insert_links fuel t pos c h = (set_parent c (Some t) h, Raise IndexError).
Proof.
  intros Kt H0 Hlen. unfold insert_links, link_previous.
  apply Z.eqb_neq in H0.
  unfold bind, write, get_contents, raise. rewrite H0. cbn [kind set_parent contents].
  rewrite Kt, py_nth_None by lia. reflexivity.
Qed.

Lemma In_py_insert {A} (l : list A) (i : Z) (x : A) : In x (py_insert l i x).
Proof. unfold py_insert. apply in_or_app. right. now left. Qed.

(** ** [replace_with], [wrap] and [unwrap] *)

Lemma ancestors_detach h h' x l n :
  parent h' = upd (parent h) n None -> ancestors h x l ->
  exists l', ancestors h' x l' /\ (length l' <= length l)%nat /\
             forall y, In y l' -> In y l.
Proof.
  intros Ep H. induction H as [x Hp|x p l Hp H (l' & IH & Hlen & Hin)].
  - exists []. split; [|split; [reflexivity|tauto]].
    apply ancestors_root. rewrite Ep. unfold upd. now destruct (Nat.eqb x n).
  - destruct (Nat.eq_dec x n) as [->|Hx].
    + exists []. split; [|split; [simpl; lia|simpl; tauto]].
      apply ancestors_root. rewrite Ep. apply upd_same.
    + exists (p :: l'). split; [|split; [simpl; lia|]].
      * apply ancestors_step; [|exact IH]. rewrite Ep. now rewrite upd_other.
      * intros y [->|Hy]; [now left|right; auto].
Qed.

(** [replace_with] with a detached replacement returns. *)
Lemma replace_with_detached_spec ht N h fuel n q c l i :
  acyclic_by ht N h -> (N <= fuel)%nat -> ancestors h q l ->
  (length l + 1 < fuel)%nat -> ~ In c (q :: l) ->
  parent h n = Some q -> kind h q = KTag -> extractable h n ->
  c <> n -> parent h c = None -> index_of n (contents h q) = Some i ->
  wp (replace_with fuel n (VNode c))
     (fun r h2 => r = Some n /\
        exists h1, extract_post h n h1 /\
                   insert_links_post h1 q (Z.of_nat i) c h2) h.
Proof.
  intros Hac Hf Hanc Hfl Hc Hp Kq Hex Hcn Hpc Hi.
  destruct (index_of_Some _ _ _ Hi) as [Hnth Hlt].
  assert (Hqc : q <> c) by (intros ->; apply Hc; now left).
  unfold replace_with. wp_steps.
  apply wp_pure_call with (a := true).
  { rewrite Hp. cbn. unfold truthy. now rewrite Kq. }
  cbn [negb]. apply Nat.eqb_neq in Hcn. rewrite Hcn. apply Nat.eqb_neq in Hcn.
  rewrite Hp.
  assert (E : Nat.eqb c q = false) by (apply Nat.eqb_neq; congruence).
  rewrite E. wp_steps.
  apply (wp_index q n i); [assumption..|]. wp_steps.
  eapply wp_conseq; [apply (extract_spec ht N); eassumption|].
  cbv beta. intros r h1 [-> Hpost]. wp_steps.
  pose proof Hpost as (Ek & _ & _ & _ & _ & Ec & Epar & _).
  destruct (ancestors_detach h h1 q l n Epar Hanc) as (l' & Hanc' & Hlen & Hincl).
  assert (Hpc1 : parent h1 c = None).
  { rewrite Epar. now rewrite upd_other. }
  assert (Ec1 : contents h1 q = remove_at i (contents h q)).
  { rewrite Ec. unfold contents_without. now rewrite Hp, Hi, upd_same. }
  eapply wp_conseq.
  { apply (insert_node_spec ht N h1 fuel q (Z.of_nat i) c l'); try assumption; try lia.
    - eapply acyclic_without; eassumption.
    - intros [->|Hy]; apply Hc; [now left|right; auto].
    - now rewrite Ek.
    - now left. }
  cbv beta. intros _ h2 (h1' & [[-> _]|[Hn _]] & Hpost2); [|congruence].
  wp_steps. split; [reflexivity|]. exists h1. split; [exact Hpost|].
  unfold insert_position in Hpost2.
  rewrite Hpc1, Ec1, length_remove_at in Hpost2 by assumption.
  rewrite Z.min_l in Hpost2 by lia. exact Hpost2.
Qed.

Lemma NoDup_remove_at (l : list id) (i : nat) (x : id) :
  NoDup l -> nth_error l i = Some x -> ~ In x (remove_at i l).
Proof.
  intros Hnd. revert i. induction Hnd as [|a l Ha Hnd IH]; intros [|i]; simpl;
    try discriminate.
  - intros [= ->]. exact Ha.
  - intros Hn. unfold remove_at in *. simpl. intros [->|Hin].
    + apply Ha. eapply nth_error_In; eauto.
    + now apply (IH i).
Qed.

Lemma index_of_inserted (c : id) (l : list id) (i : nat) :
  ~ In c l -> (i <= length l)%nat ->
  index_of c (firstn i l ++ c :: skipn i l) = Some i.
Proof.
  intros Hc Hi.
  rewrite index_of_app_fresh.
  - now rewrite length_firstn, Nat.min_l.
  - intros Hin. apply Hc. rewrite <- (firstn_skipn i l). apply in_or_app. now left.
Qed.

Lemma In_insert_at {A} (l : list A) (i : nat) (x y : A) :
  In y (firstn i l ++ x :: skipn i l) -> y = x \/ In y l.
Proof.
  rewrite in_app_iff. simpl. rewrite <- (firstn_skipn i l) at 3.
  rewrite in_app_iff. intuition auto.
Qed.

Section WrapUnwrap.

Variables (ht : id -> nat) (N : nat) (h : heap) (n q c : id) (l : list id).

Variable i : nat.

Hypothesis Hac : acyclic_by ht N h.

Hypothesis Hanc : ancestors h q l.

Hypothesis Hpn : parent h n = Some q.

Hypothesis Hn : ~ In n (q :: l).

Hypothesis Hc : ~ In c (n :: q :: l).

Hypothesis Kq : kind h q = KTag.

Hypothesis Hex : extractable h n.

Hypothesis Hnd : NoDup (contents h q).

Hypothesis Kc : kind h c = KTag.

Hypothesis Cc : contents h c = [].

Hypothesis Pc : parent h c = None.

Hypothesis Hfree : forall x, kind h x = KTag -> ~ In c (contents h x).

Hypothesis Hi : index_of n (contents h q) = Some i.

Local Abbreviation L1 := (remove_at i (contents h q)).

Local Abbreviation ht2 := (wrap_height ht n c).

Local Abbreviation N2 := (2 * N + 2)%nat.

Lemma wrap_facts :
  nth_error (contents h q) i = Some n /\ (i < length (contents h q))%nat /\
  length L1 = (length (contents h q) - 1)%nat /\
  ~ In n L1 /\ ~ In c L1 /\ q <> c /\ n <> c /\ n <> q /\
  (ht n < ht q)%nat.
Proof.
  destruct (index_of_Some _ _ _ Hi) as [Hnth Hlt].
  assert (Hin : In n (contents h q)) by (eapply nth_error_In; eauto).
  repeat split; try assumption.
  - now apply length_remove_at.
  - now apply NoDup_remove_at.
  - intros H. apply In_remove_at in H. now apply (Hfree q).
  - intros ->. apply Hc. right. now left.
  - intros ->. apply Hc. now left.
  - intros ->. apply Hn. now left.
  - now apply (proj2 Hac q n).
Qed.

Lemma acyclic_wrapping (hk : heap) :
  kind hk = kind h ->
  (forall x y, kind h x = KTag -> In y (contents hk x) ->
     (x = c /\ y = n) \/ (x = q /\ y = c)
     \/ (y <> c /\ x <> c /\ In y (contents h x))) ->
  acyclic_by ht2 N2 hk.
Proof.
  intros Ek Hsub. destruct Hac as [Hb Hd].
  destruct wrap_facts as (_ & _ & _ & _ & _ & Hqc & Hnc & Hnq & Hlt).
  split.
  - intros x. unfold wrap_height. pose proof (Hb x). pose proof (Hb n).
    destruct (Nat.eqb x c); lia.
  - intros x y K Hin. rewrite Ek in K.
    destruct (Hsub x y K Hin) as [[-> ->]|[[-> ->]|(Hy & Hx & Hin')]]; unfold wrap_height.
    + rewrite Nat.eqb_refl. apply Nat.eqb_neq in Hnc. rewrite Hnc. lia.
    + rewrite Nat.eqb_refl. apply Nat.eqb_neq in Hqc. rewrite Hqc. lia.
    + apply Nat.eqb_neq in Hy, Hx. rewrite Hy, Hx.
      specialize (Hd x y K Hin'). lia.
Qed.

Lemma wrap_spec fuel :
  (N2 <= fuel)%nat -> (length l + 3 < fuel)%nat ->
  wp (wrap fuel n (VNode c)) (fun r h3 => r = VNode c /\ wrapped h n q c i h3) h.
Proof.
  intros Hf Hfl.
  destruct wrap_facts as (Hnth & Hlt & HlenL1 & HnL1 & HcL1 & Hqc & Hnc & Hnq & Hhn).
  assert (Hcql : ~ In c (q :: l)) by (intros H; apply Hc; now right).
  unfold wrap. wp_step.
  eapply wp_conseq.
  { apply (replace_with_detached_spec ht N h fuel n q c l i); try assumption;
      try lia; congruence. }
  cbv beta. intros r h2 (-> & h1 & Hp1 & Hp2). wp_step.
  destruct Hp1 as (Ek1 & _ & _ & _ & _ & Ec1 & Epar1 & Ens1 & Eps1 & Fns1 & Fps1).
  destruct Hp2 as (Ek2 & _ & _ & _ & _ & Ec2 & Epar2 & Ens2 & Eps2 & _).
  assert (Ec1q : contents h1 q = L1).
  { rewrite Ec1. unfold contents_without. now rewrite Hpn, Hi, upd_same. }
  assert (Ec1o : forall x, x <> q -> contents h1 x = contents h x).
  { intros x Hx. rewrite Ec1. unfold contents_without.
    rewrite Hpn, Hi. now apply upd_other. }
  assert (Ec2q : contents h2 q = firstn i L1 ++ c :: skipn i L1).
  { rewrite Ec2, upd_same, Ec1q, py_insert_in_range, Nat2Z.id by lia. reflexivity. }
  assert (Ec2o : forall x, x <> q -> contents h2 x = contents h x).
  { intros x Hx. rewrite Ec2, upd_other by assumption. now apply Ec1o. }
  assert (Hac2 : acyclic_by ht2 N2 h2).
  { apply acyclic_wrapping; [congruence|]. intros x y K Hin.
    destruct (Nat.eq_dec x q) as [->|Hx].
    - rewrite Ec2q in Hin. apply In_insert_at in Hin. destruct Hin as [->|Hin]; [tauto|].
      right. right. split; [congruence|]. split; [assumption|].
      eapply In_remove_at; eassumption.
    - rewrite Ec2o in Hin by assumption.
      right. right. split; [|split; [|assumption]].
      + intros ->. now apply (Hfree x).
      + intros ->. now rewrite Cc in Hin. }
  destruct (ancestors_detach h h1 q l n Epar1 Hanc) as (l' & Hanc1 & Hlen & Hincl).
  assert (Hanc2 : ancestors h2 c (q :: l')).
  { apply ancestors_step; [rewrite Epar2; apply upd_same|].
    eapply ancestors_ext; [|exact Hanc1]. intros y Hy. rewrite Epar2.
    apply upd_other. intros ->. apply Hcql.
    destruct Hy as [->|Hy]; [now left|right; auto]. }
  assert (Hpn2 : parent h2 n = None).
  { rewrite Epar2, upd_other, Epar1 by congruence. apply upd_same. }
  unfold append. wp_steps.
  apply wp_get_contents; [congruence|].
  rewrite Ec2o, Cc by congruence. cbn [length Z.of_nat].
  eapply wp_conseq.
  { apply (insert_node_spec ht2 N2 h2 fuel c 0 n (q :: l')); try assumption;
      try (cbn [length]; lia).
    - intros [E|[E|Hin]]; [congruence|congruence|]. apply Hn. right. auto.
    - congruence.
    - now left. }
  cbv beta. intros _ h3 (h2' & [[-> _]|[Hne _]] & Hp3); [|congruence].
  wp_steps. split; [reflexivity|].
  unfold insert_position in Hp3. rewrite Hpn2, Ec2o, Cc in Hp3 by congruence.
  cbn in Hp3.
  destruct Hp3 as (Ek3 & _ & _ & _ & _ & Ec3 & Epar3 & Ens3 & Eps3 & Hpe3).
  unfold previous_child_of, next_child_of in *.
  rewrite Ec2o, Cc in * by congruence. cbn in Ens3, Eps3.
  rewrite Ec1q in Ens2, Eps2.
  unfold wrapped. repeat split.
  - congruence.
  - rewrite Ec3, upd_other by congruence. exact Ec2q.
  - rewrite Ec3, upd_same. reflexivity.
  - intros x Hx1 Hx2. rewrite Ec3, upd_other by assumption. now apply Ec2o.
  - rewrite Epar3. apply upd_same.
  - rewrite Epar3, upd_other, Epar2 by congruence. apply upd_same.
  - intros x Hx1 Hx2. rewrite Epar3, upd_other, Epar2, upd_other, Epar1 by assumption.
    now apply upd_other.
  - rewrite Ens3. apply upd_same.
  - rewrite Eps3, upd_other, Eps2 by congruence.
    assert (Hprev : (if Z.of_nat i =? 0 then None else py_nth L1 (Z.of_nat i - 1))
                    <> Some n).
    { destruct (Z.of_nat i =? 0); [discriminate|].
      intros H. apply py_nth_In in H. contradiction. }
    destruct (Z.of_nat i >=? Z.of_nat (length L1)).
    + now rewrite upd_same.
    + destruct (py_nth L1 (Z.of_nat i)) as [nc|] eqn:Hnc'.
      * apply py_nth_In in Hnc'.
        rewrite upd_other by (intros ->; contradiction). now rewrite upd_same.
      * now rewrite upd_same.
  - intros s Hs. apply Hpe3; [cbn; lia|].
    rewrite Ens3, upd_other in Hs by congruence. exact Hs.
Qed.

Lemma unwrap_spec fuel h3 :
  wrapped h n q c i h3 -> (N2 <= fuel)%nat -> (length l + 3 < fuel)%nat ->
  wp (unwrap fuel c)
     (fun r h6 => r = c /\ parent h6 n = Some q /\ contents h6 q = contents h q) h3.
Proof.
  intros (Ek & Ecq & Ecc & Eco & Epn & Epc & Epo & Ensn & Epsc & Hpe) Hf Hfl.
  destruct wrap_facts as (Hnth & Hlt & HlenL1 & HnL1 & HcL1 & Hqc & Hnc & Hnq & Hhn).
  assert (Hcql : ~ In c (q :: l)) by (intros H; apply Hc; now right).
  assert (Hic : index_of c (contents h3 q) = Some i).
  { rewrite Ecq. apply index_of_inserted; [assumption|lia]. }
  assert (Hac3 : acyclic_by ht2 N2 h3).
  { apply acyclic_wrapping; [assumption|]. intros x y K Hin.
    destruct (Nat.eq_dec x q) as [->|Hx]; [|destruct (Nat.eq_dec x c) as [->|Hx']].
    - rewrite Ecq in Hin. apply In_insert_at in Hin. destruct Hin as [->|Hin]; [tauto|].
      right. right. split; [congruence|]. split; [assumption|].
      eapply In_remove_at; eassumption.
    - rewrite Ecc in Hin. destruct Hin as [<-|[]]. tauto.
    - rewrite Eco in Hin by assumption.
      right. right. split; [|split; assumption].
      intros ->. now apply (Hfree x). }
  unfold unwrap. wp_steps.
  apply wp_pure_call with (a := true).
  { rewrite Epc. cbn. unfold truthy. now rewrite Ek, Kq. }
  cbn [negb]. rewrite Epc. wp_steps.
  apply (wp_index q c i); [congruence|assumption|]. wp_steps.
  eapply wp_conseq.
  { apply (extract_spec ht2 N2); try assumption. split.
    - intros q' Hq'. rewrite Epc in Hq'. injection Hq' as <-.
      split; [congruence|]. rewrite Ecq. apply in_or_app. right. now left.
    - intros s Hs _. now apply Hpe. }
  cbv beta. intros r h4 (-> & Ek4 & _ & _ & _ & _ & Ec4 & Epar4 & _ & _ & Fns4 & _).
  wp_steps.
  assert (Ec4q : contents h4 q = L1).
  { rewrite Ec4. unfold contents_without. rewrite Epc, Hic, upd_same, Ecq.
    apply remove_insert_at. lia. }
  assert (Ec4c : contents h4 c = [n]).
  { rewrite Ec4. unfold contents_without. rewrite Epc, Hic, upd_other by congruence.
    exact Ecc. }
  apply wp_get_contents; [congruence|]. rewrite Ec4c. cbn [rev app for_each].
  wp_steps.
  assert (Hanc4 : ancestors h4 q l).
  { eapply ancestors_ext; [|exact Hanc]. intros y Hy. rewrite Epar4.
    rewrite upd_other by (intros ->; contradiction).
    apply Epo; intros ->; [contradiction|contradiction]. }
  assert (Hpn4 : parent h4 n = Some c).
  { rewrite Epar4, upd_other by congruence. exact Epn. }
  eapply wp_conseq.
  { apply (insert_node_spec ht2 N2 h4 fuel q (Z.of_nat i) n l); try assumption;
      try lia.
    - eapply acyclic_without; eassumption.
    - congruence.
    - right. split.
      + intros q' Hq'. rewrite Hpn4 in Hq'. injection Hq' as <-.
        split; [congruence|]. rewrite Ec4c. now left.
      + intros s Hs. rewrite Fns4 in Hs by congruence. congruence. }
  cbv beta. intros _ h6 (h5 & [[_ Hnone]|[_ Hp5]] & Hp6); [congruence|].
  wp_steps. split; [reflexivity|].
  destruct Hp5 as (_ & _ & _ & _ & _ & Ec5 & _).
  destruct Hp6 as (_ & _ & _ & _ & _ & Ec6 & Epar6 & _).
  assert (Ec5q : contents h5 q = L1).
  { rewrite Ec5. unfold contents_without. rewrite Hpn4, Ec4c. cbn.
    rewrite Nat.eqb_refl. now rewrite upd_other. }
  assert (Epos : insert_position h4 q (Z.of_nat i) n = Z.of_nat i).
  { unfold insert_position. rewrite Hpn4, Ec4q.
    assert (E : Nat.eqb c q = false) by (apply Nat.eqb_neq; congruence).
    rewrite E. lia. }
  rewrite Epos in *.
  split.
  - rewrite Epar6. apply upd_same.
  - rewrite Ec6, upd_same, Ec5q, py_insert_in_range, Nat2Z.id by lia.
    now apply insert_remove_at.
Qed.

End WrapUnwrap.

(** ** The example tree is well formed *)

Lemma example_tree_acyclic : acyclic_by example_height 2 example_tree.
Proof.
  split.
  - intros x. do 5 (destruct x as [|x]; [cbn; lia|]). cbn. lia.
  - intros x c _ Hin.
    do 6 (destruct x as [|x]; [vm_compute in Hin; cbn; intuition (subst; cbn; lia)|]).
    vm_compute in Hin. contradiction.
Qed.

Lemma example_tree_root : ancestors example_tree 0%nat [].
Proof. apply ancestors_root. reflexivity. Qed.

Lemma example_tree_extractable (x : id) :
  (x = 1 \/ x = 2)%nat -> extractable example_tree x.
Proof.
  intros [->| ->]; split.
  - intros q Hq. vm_compute in Hq. injection Hq as <-.
    split; [reflexivity|]. vm_compute. tauto.
  - intros s Hs _. vm_compute in Hs. injection Hs as <-. vm_compute. discriminate.
  - intros q Hq. vm_compute in Hq. injection Hq as <-.
    split; [reflexivity|]. vm_compute. tauto.
  - intros s Hs _. vm_compute in Hs. discriminate.
Qed.

(** ** The nested tree is well formed *)

Lemma nested_tree_acyclic : acyclic_by nested_height 3 nested_tree.
Proof.
  split.
  - intros x. do 2 (destruct x as [|x]; [cbn; lia|]). cbn. lia.
  - intros x c _ Hin.
    do 3 (destruct x as [|x]; [vm_compute in Hin; cbn; intuition (subst; cbn; lia)|]).
    vm_compute in Hin. contradiction.
Qed.


(** ** A walk that has no end *)

Lemma climb_round fuel h t a :
  parent h t = Some a -> parent h a = Some t ->
  next_sibling h t = None -> next_sibling h a = None ->
  climb fuel h (Some t) = OutOfFuel /\ climb fuel h (Some a) = OutOfFuel.
Proof.
  intros Pt Pa Nt Na. induction fuel as [|f [IH1 IH2]]; [now split|].
  cbn [climb]. rewrite Nt, Na, Pt, Pa. now split.
Qed.



(** ** Selectors: the loops of [select] taken apart *)

Section Reaching.

Variables (h : heap) (fuel : nat).

Variable select_rec : id -> string -> option candgen -> res (list id).

Variables (tokens : list string) (g : option candgen) (limit : option Z).

Lemma over_tokens_app pre todo index ctx :
  over_tokens h fuel select_rec tokens g limit index (pre ++ todo) ctx
  = rbind (over_tokens h fuel select_rec tokens g limit index pre ctx)
      (fun ctx' => over_tokens h fuel select_rec tokens g limit
                     (index + Z.of_nat (length pre)) todo ctx').
Proof.
  revert index ctx. induction pre as [|tg pre IH]; intros index ctx.
  - cbn [app over_tokens rbind length Z.of_nat]. now rewrite Z.add_0_r.
  - cbn [app over_tokens length].
    replace (index + Z.of_nat (S (length pre)))
      with (index + 1 + Z.of_nat (length pre)) by lia.
    destruct (str_in _ _); [reflexivity|].
    destruct (match py_nth tokens (index - 1) with
              | Some t => is_combinator t | None => false end).
    + apply IH.
    + destruct (over_group _ _ _ _ _ _ _ _ _ _) as [nc|e|]; cbn [rbind];
        [apply IH|reflexivity|reflexivity].
Qed.

Lemma over_group_app index ctx apre apost nc :
  over_group h fuel select_rec tokens index g limit ctx (apre ++ apost) nc
  = rbind (over_group h fuel select_rec tokens index g limit ctx apre nc)
      (fun nc' => over_group h fuel select_rec tokens index g limit ctx apost nc').
Proof.
  revert nc. induction apre as [|tok apre IH]; intros nc; [reflexivity|].
  cbn [app over_group].
  destruct (classify tok) as [rule|e|]; cbn [rbind]; try reflexivity.
  destruct (match recursive_candidate_generator rule with
            | Some _ => _ | None => _ end) as [u|e|]; cbn [rbind]; try reflexivity.
  destruct (over_context _ _ _ _ _ _ _ _ _) as [nc'|e|]; cbn [rbind];
    [apply IH|reflexivity|reflexivity].
Qed.

End Reaching.

(** The errors of the pseudo-class branch (lines 1744-1783). *)
Lemma classify_pseudo_class (token : string) :
  pseudo_class_token token ->
  let tn := fst (split_once ":" token) in
  let pseudo := snd (split_once ":" token) in
  (tn = EmptyString ->
   classify token
   = Raise (ValueError "A pseudo-class must be prefixed with a tag name.")) /\
  (tn <> EmptyString -> pseudo_type_of pseudo = "nth-of-type"%string ->
   pseudo_value_of pseudo = None ->
   classify token
   = Raise (NotImplementedError
       "Only numeric values are currently supported for the nth-of-type pseudo-class.")) /\
  (tn <> EmptyString -> pseudo_type_of pseudo = "nth-of-type"%string ->
   forall n, pseudo_value_of pseudo = Some n -> n < 1 ->
   classify token
   = Raise (ValueError "nth-of-type pseudo-class value must be at least 1.")) /\
  (tn <> EmptyString -> pseudo_type_of pseudo <> "nth-of-type"%string ->
   classify token
   = Raise (NotImplementedError
       "Only the following pseudo-classes are implemented: nth-of-type.")).
Proof.
  intros (Ha & Hh & Hd & Hc). cbv zeta.
  unfold classify, pseudo_type_of, pseudo_value_of. rewrite Ha, Hh, Hd, Hc.
  destruct (split_once ":" token) as [tn pseudo]. cbn [fst snd].
  repeat split.
  - intros ->. reflexivity.
  - intros Hn Ht Hv. apply String.eqb_neq in Hn. rewrite Hn.
    destruct (pseudo_match pseudo) as [[ty v]|].
    + subst ty. cbn [String.eqb Ascii.eqb Bool.eqb]. now rewrite Hv.
    + subst pseudo. reflexivity.
  - intros Hn Ht n Hv Hlt. apply String.eqb_neq in Hn. rewrite Hn.
    destruct (pseudo_match pseudo) as [[ty v]|]; [|discriminate].
    subst ty. cbn [String.eqb Ascii.eqb Bool.eqb]. rewrite Hv.
    apply Z.ltb_lt in Hlt. now rewrite Hlt.
  - intros Hn Ht. apply String.eqb_neq in Hn. rewrite Hn.
    destruct (pseudo_match pseudo) as [[ty v]|];
      apply String.eqb_neq in Ht; now rewrite Ht.
Qed.

(** ** A token is a selector of one token *)

Lemma split_by_pieces (sep : ascii -> bool) (s cur p : list ascii) :
  In p (split_by sep s cur) -> (forall c, In c cur -> sep c = false) ->
  forall c, In c p -> sep c = false.
Proof.
  revert cur. induction s as [|c0 s IH]; intros cur Hin Hcur c Hc.
  - cbn [split_by] in Hin. destruct Hin as [<-|[]].
    apply Hcur. now apply in_rev.
  - cbn [split_by] in Hin. destruct (sep c0) eqn:E.
    + destruct Hin as [<-|Hin].
      * apply Hcur. now apply in_rev.
      * apply (IH [] Hin); [intros ? []|exact Hc].
    + apply (IH (c0 :: cur) Hin); [|exact Hc].
      intros c' [<-|Hc']; [exact E|now apply Hcur].
Qed.

Lemma split_by_no_sep (sep : ascii -> bool) (s cur : list ascii) :
  (forall c, In c s -> sep c = false) -> split_by sep s cur = [rev cur ++ s].
Proof.
  revert cur. induction s as [|c s IH]; intros cur Hs.
  - cbn [split_by]. now rewrite app_nil_r.
  - cbn [split_by]. rewrite (Hs c (or_introl eq_refl)).
    rewrite IH by (intros c' Hc'; apply Hs; now right).
    cbn [rev]. now rewrite <- app_assoc.
Qed.

Lemma strip_after_commas_no_space (b : bool) (s : list ascii) :
  (forall c, In c s -> is_space c = false) -> strip_after_commas b s = s.
Proof.
  revert b. induction s as [|c s IH]; intros b Hs; [reflexivity|].
  cbn [strip_after_commas]. rewrite (Hs c (or_introl eq_refl)), andb_false_r.
  destruct (Ascii.eqb c ","); rewrite IH; auto; intros c' Hc'; apply Hs; now right.
Qed.

(** A token of a selector is a selector of one token, itself. *)
Lemma tokenize_token (selector t : string) :
  In t (tokenize selector) -> tokenize t = [t].
Proof.
  unfold tokenize, split_ws. intros Hin.
  apply in_map_iff in Hin. destruct Hin as (p & <- & Hp).
  apply filter_In in Hp. destruct Hp as [Hp Hne].
  assert (Hns : forall c, In c p -> is_space c = false).
  { apply (split_by_pieces is_space _ [] p Hp). intros ? []. }
  unfold chars, str. rewrite !list_ascii_of_string_of_list_ascii.
  rewrite (strip_after_commas_no_space false p Hns).
  rewrite (split_by_no_sep is_space p [] Hns). cbn [rev app filter].
  rewrite Hne. reflexivity.
Qed.

(** ** The result of [select] holds no node twice *)

Lemma NoDup_snoc (l : list id) (c : id) :
  NoDup l -> existsb (Nat.eqb c) l = false -> NoDup (l ++ [c]).
Proof.
  intros Hnd He. apply NoDup_app; [assumption|repeat constructor; intros []|].
  intros x Hx [<-|[]].
  assert (existsb (Nat.eqb c) l = true); [|congruence].
  apply existsb_exists. exists c. split; [assumption|apply Nat.eqb_refl].
Qed.

Section NoDuplicates.

Variables (h : heap) (fuel : nat).

Variable select_rec : id -> string -> option candgen -> res (list id).

Lemma candidates_NoDup n rule limit g nc count r :
  NoDup nc -> candidates h n rule limit g nc count = Ok r -> NoDup (fst r).
Proof.
  revert g nc count. induction n as [|n IH]; intros g nc count Hnd; [discriminate|].
  cbn [candidates]. destruct (gen_next h g) as [[[cand g']|]|e|]; cbn [rbind];
    try discriminate; [|now intros [= <-]].
  destruct cand as [c|]; [|now apply IH].
  destruct (kind h c); [|now apply IH].
  destruct (_ && _); [now apply IH|].
  destruct (match rule_checker rule with Some _ => _ | None => _ end)
    as [[[[|]|] count']|e|]; cbn [rbind]; try discriminate.
  - destruct (existsb (Nat.eqb c) nc) eqn:E; [now apply IH|].
    destruct (limit_reached limit (nc ++ [c])).
    + intros [= <-]. now apply NoDup_snoc.
    + apply IH. now apply NoDup_snoc.
  - now apply IH.
  - now intros [= <-].
Qed.

Lemma over_context_NoDup rule u limit ctx nc count r :
  NoDup nc ->
  over_context h fuel select_rec rule u limit ctx nc count = Ok r -> NoDup r.
Proof.
  revert nc count. induction ctx as [|tag ctx IH]; intros nc count Hnd.
  - now intros [= <-].
  - cbn [over_context]. destruct (start_generator _ _ _ _ _) as [g| |]; cbn [rbind];
      try discriminate.
    destruct (candidates h fuel rule limit g nc count) as [r'| |] eqn:E; cbn [rbind];
      try discriminate.
    apply IH. eapply candidates_NoDup; eassumption.
Qed.

Lemma over_group_NoDup tokens index g limit ctx alts nc r :
  NoDup nc ->
  over_group h fuel select_rec tokens index g limit ctx alts nc = Ok r -> NoDup r.
Proof.
  revert nc. induction alts as [|tok alts IH]; intros nc Hnd.
  - now intros [= <-].
  - cbn [over_group]. destruct (classify tok) as [rule| |]; cbn [rbind];
      try discriminate.
    destruct (match recursive_candidate_generator rule with
              | Some _ => _ | None => _ end) as [u| |]; cbn [rbind]; try discriminate.
    destruct (over_context _ _ _ _ _ _ _ _ _) as [nc'| |] eqn:E; cbn [rbind];
      try discriminate.
    apply IH. eapply over_context_NoDup; eassumption.
Qed.

Lemma over_tokens_NoDup tokens g limit index todo ctx r :
  NoDup ctx ->
  over_tokens h fuel select_rec tokens g limit index todo ctx = Ok r -> NoDup r.
Proof.
  revert index ctx. induction todo as [|tg todo IH]; intros index ctx Hnd.
  - now intros [= <-].
  - cbn [over_tokens]. destruct (str_in _ _); [discriminate|].
    destruct (match py_nth tokens (index - 1) with
              | Some t => is_combinator t | None => false end); [now apply IH|].
    destruct (over_group _ _ _ _ _ _ _ _ _ _) as [nc| |] eqn:E; cbn [rbind];
      try discriminate.
    apply IH. eapply over_group_NoDup; [|eassumption]. constructor.
Qed.

End NoDuplicates.

Lemma select_NoDup fuel h self selector g limit r :
  select fuel h self selector g limit = Ok r -> NoDup r.
Proof.
  destruct fuel as [|f]; [discriminate|].
  cbn [select]. unfold select_body.
  destruct (py_nth (tokenize selector) (-1)); [|discriminate].
  destruct (is_combinator s); [discriminate|].
  apply over_tokens_NoDup. repeat constructor. intros [].
Qed.

Local Open Scope string_scope.

(** ** Rendering a tag that holds one text *)

Lemma descend_mono k k' h x r :
  descend k h x = Ok r -> (k <= k')%nat -> descend k' h x = Ok r.
Proof.
  revert k' x. induction k as [|k IH]; intros k' x; [discriminate|].
  intros H Hle. destruct k' as [|k']; [lia|].
  cbn [descend] in *. destruct (kind h x); [|assumption].
  destruct (py_nth (contents h x) (-1)); [|assumption].
  apply IH; [assumption|lia].
Qed.

Lemma descendants_mono k k' h x g :
  descendants k h x = Ok g -> (k <= k')%nat -> descendants k' h x = Ok g.
Proof.
  unfold descendants, _last_descendant. intros H Hle.
  destruct (kind h x); [|assumption].
  destruct (contents h x); [assumption|].
  destruct (true && opt_truthy h (next_sibling h x)); [assumption|].
  destruct (descend k h x) as [r| |] eqn:E; try discriminate.
  now rewrite (descend_mono k k' h x r E Hle).
Qed.

Lemma find_in_mono k k' h nm g r :
  find_in k h nm g = Ok r -> (k <= k')%nat -> find_in k' h nm g = Ok r.
Proof.
  revert k' g. induction k as [|k IH]; intros k' g; [discriminate|].
  intros H Hle. destruct k' as [|k']; [lia|].
  cbn [find_in] in *. destruct (gen_next h g) as [[[[i|] g']|]| |]; cbn [rbind] in *;
    try assumption; try (apply IH; [assumption|lia]).
  destruct (truthy h i); [|apply IH; [assumption|lia]].
  destruct (kind h i); [|apply IH; [assumption|lia]].
  destruct (String.eqb (name h i) nm); [assumption|apply IH; [assumption|lia]].
Qed.

Lemma descend_raises_nothing k h x e : descend k h x <> Raise e.
Proof.
  revert x. induction k as [|k IH]; intros x; [discriminate|].
  cbn [descend]. destruct (kind h x); [|discriminate].
  destruct (py_nth (contents h x) (-1)); [apply IH|discriminate].
Qed.

Lemma descendants_raise_mono k k' h x e :
  descendants k h x = Raise e -> (k <= k')%nat -> descendants k' h x = Raise e.
Proof.
  unfold descendants, _last_descendant. intros H Hle.
  destruct (kind h x); [|assumption].
  destruct (contents h x); [assumption|].
  destruct (true && opt_truthy h (next_sibling h x)); [assumption|].
  destruct (descend k h x) as [r| |] eqn:E.
  - now rewrite (descend_mono k k' h x r E Hle).
  - now apply descend_raises_nothing in E.
  - discriminate.
Qed.

Lemma find_in_raise_mono k k' h nm g e :
  find_in k h nm g = Raise e -> (k <= k')%nat -> find_in k' h nm g = Raise e.
Proof.
  revert k' g. induction k as [|k IH]; intros k' g; [discriminate|].
  intros H Hle. destruct k' as [|k']; [lia|].
  cbn [find_in] in *. destruct (gen_next h g) as [[[[i|] g']|]| |]; cbn [rbind] in *;
    try assumption; try (apply IH; [assumption|lia]).
  destruct (truthy h i); [|apply IH; [assumption|lia]].
  destruct (kind h i); [|apply IH; [assumption|lia]].
  destruct (String.eqb (name h i) nm); [assumption|apply IH; [assumption|lia]].
Qed.

Lemma find_mono k k' h x nm r :
  find k h x nm = Ok r -> (k <= k')%nat -> find k' h x nm = Ok r.
Proof.
  unfold find. intros H Hle.
  destruct (descendants k h x) as [g| |] eqn:E; try discriminate.
  rewrite (descendants_mono k k' h x g E Hle). cbn [rbind] in *.
  now apply (find_in_mono k).
Qed.

Lemma find_raise_mono k k' h x nm e :
  find k h x nm = Raise e -> (k <= k')%nat -> find k' h x nm = Raise e.
Proof.
  unfold find. intros H Hle.
  destruct (descendants k h x) as [g|e'|] eqn:E; try discriminate.
  - rewrite (descendants_mono k k' h x g E Hle). cbn [rbind] in *.
    now apply (find_in_raise_mono k).
  - cbn [rbind] in H. injection H as ->.
    now rewrite (descendants_raise_mono k k' h x e E Hle).
Qed.

Lemma getattr_is_xml_mono k k' h x b :
  getattr_is_xml k h x = Ok b -> (k <= k')%nat -> getattr_is_xml k' h x = Ok b.
Proof.
  unfold getattr_is_xml. intros H Hle.
  destruct (is_xml h x); [assumption|].
  destruct (kind h x); [|assumption].
  destruct (find k h x "is_xml") as [r|e|] eqn:E; try discriminate.
  - now rewrite (find_mono k k' h x _ r E Hle).
  - now rewrite (find_raise_mono k k' h x _ e E Hle).
Qed.

Lemma _is_xml_mono k k' h x b :
  _is_xml k h x = Ok b -> (k <= k')%nat -> _is_xml k' h x = Ok b.
Proof.
  revert k' x. induction k as [|k IH]; intros k' x; [discriminate|].
  intros H Hle. destruct k' as [|k']; [lia|].
  cbn [_is_xml] in *. destruct (parent h x).
  - apply IH; [assumption|lia].
  - apply (getattr_is_xml_mono k); [assumption|lia].
Qed.

Lemma append_empty_r (s : string) : s ++ EmptyString = s.
Proof. induction s as [|c s IH]; simpl; congruence. Qed.

Section Escaping.

Variables substitute_html substitute_xml substitute_xml_containing_entities
          quoted_attribute_value : string -> string.

Local Abbreviation render := (decode substitute_html substitute_xml
                substitute_xml_containing_entities quoted_attribute_value).

Lemma decode_named_policy h t c s policy :
  holds_one_text h t c s ->
  exists n0, forall fuel, (n0 <= fuel)%nat ->
  render fuel h t (FormatterName (Some policy))
  = Ok ("<" ++ name h t ++ ">"
        ++ (if str_in (name h t) ["script"; "style"] then s
            else named_substitution substitute_html
                   substitute_xml_containing_entities policy s)
        ++ "</" ++ name h t ++ ">").
Proof.
  intros (Kt & Ct & At & Pt & Ht & Kc & Tc & Pc & k & Hk).
  exists (S k). intros fuel Hf. destruct fuel as [|f]; [lia|].
  unfold render. cbn [decode resolve]. unfold _formatter_for_name.
  rewrite (_is_xml_mono k (S f) h t false Hk) by lia. cbn [rbind].
  rewrite At, Pt, Ct, Ht, Kc. cbn [sorted_items fold_right render_attrs rbind length Nat.eqb andb].
  unfold output_ready, format_string, named_substitution.
  rewrite Kc, Tc.
  destruct (String.eqb policy "html"); [|destruct (String.eqb policy "minimal")];
    cbn [hand_on resolve rbind call_formatter];
    unfold _substitute_if_appropriate; rewrite Pc, Kt;
    destruct (str_in (name h t) _); cbn [PREFIX SUFFIX rbind];
    rewrite ?append_empty_r; reflexivity.
Qed.

Lemma decode_null_policy h t c s :
  holds_one_text h t c s ->
  exists n0, forall fuel, (n0 <= fuel)%nat ->
  render fuel h t (FormatterName None)
  = Ok ("<" ++ name h t ++ ">" ++ s ++ "</" ++ name h t ++ ">").
Proof.
  intros (Kt & Ct & At & Pt & Ht & Kc & Tc & Pc & k & Hk).
  exists (S (S k)). intros fuel Hf. destruct fuel as [|f]; [lia|].
  unfold render. cbn [decode resolve]. unfold _formatter_for_name.
  rewrite (_is_xml_mono k (S f) h t false Hk) by lia. cbn [rbind].
  rewrite At, Pt, Ct, Ht, Kc. cbn [sorted_items fold_right render_attrs rbind length Nat.eqb andb].
  unfold output_ready, format_string.
  rewrite Kc, Tc. cbn [hand_on resolve]. unfold _formatter_for_name.
  assert (Hc : _is_xml (S f) h c = Ok false).
  { cbn [_is_xml]. rewrite Pc. apply (_is_xml_mono k); [assumption|lia]. }
  rewrite Hc. cbn [rbind PREFIX SUFFIX]. rewrite ?append_empty_r. reflexivity.
Qed.

End Escaping.

Lemma append_assoc (a b c : string) : (a ++ b) ++ c = a ++ (b ++ c).
Proof. induction a as [|x a IH]; simpl; congruence. Qed.

Lemma xml_escape_escapes_lt : escapes_lt xml_escape.
Proof.
  intros a b. induction a as [|c a IH]; [reflexivity|].
  change (xml_escape (String c (a ++ "<" ++ b))
          = xml_escape (String c a) ++ "&lt;" ++ xml_escape b).
  cbn [xml_escape]. rewrite IH. now rewrite append_assoc.
Qed.

Local Close Scope string_scope.

(** * Theorems *)

(** C1.  After any sequence of [insert], [extract], [replace_with], [wrap]
    and [unwrap], the walk along [next_element] from the first node of the
    tree visits every attached node once, in pre-order, and is the reverse
    of the walk along [previous_element] from the last node.

    The code does not keep this.  On [<div>a<b></b>a</div>] the chain is in
    pre-order at first; after [extract] of the tag [<b>] the attached nodes
    are 0, 1 and 3 in pre-order, but the walk from 0 yields 1 and then the
    detached node 2 and never reaches 3, and the walk back from 3 yields 2
    alone.  [extract] compares the two neighbours of the extracted subtree
    with [!=] (lines 300-303): the two texts are equal strings, so the
    chain is not closed over the gap. *)
Theorem extract_between_equal_texts_breaks_chain :
  (pre_order 8 equal_texts_tree 0%nat = [0; 1; 2; 3]%nat /\
   next_elements 8 equal_texts_tree 0%nat = Ok [1; 2; 3]%nat /\
   previous_elements 8 equal_texts_tree 3%nat = Ok [2; 1; 0]%nat) /\
  exists h',
    extract 8 2%nat equal_texts_tree = (h', Ok 2%nat) /\
    pre_order 8 h' 0%nat = [0; 1; 3]%nat /\
    next_elements 8 h' 0%nat = Ok [1; 2]%nat /\
    previous_elements 8 h' 3%nat = Ok [2]%nat.
Proof.
  split.
  { split; [vm_compute; reflexivity|]. split; vm_compute; reflexivity. }
  exists (fst (extract 8 2%nat equal_texts_tree)).
  split; [vm_compute; reflexivity|].
  split; [vm_compute; reflexivity|].
  split; vm_compute; reflexivity.
Qed.

(** C2.  [insert] of a tag into itself raises [ValueError] and changes
    nothing.  On a well-formed tree, for a tag [t], a position [p >= 0] and
    a node [c] that is neither [t] nor an ancestor of [t] and that is
    detached or held by its parent, [t.insert(p, c)] returns, and [c] is
    then the child of [t] at index [min(p, len(t.contents))], one less when
    [c] was a child of [t] at an index strictly below [p]; the other
    children keep their order and [c.parent] is [t]. *)
Theorem insert_places_child :
  (forall fuel h t p,
     insert fuel t p (VNode t) h
     = (h, Raise (ValueError "Cannot insert a tag into itself."))) /\
  (forall ht N h t p c l,
     acyclic_by ht N h -> ancestors h t l -> ~ In c (t :: l) ->
     kind h t = KTag -> (parent h c = None \/ extractable h c) -> 0 <= p ->
     exists n0, forall fuel, (n0 <= fuel)%nat ->
     exists h', insert fuel t p (VNode c) h = (h', Ok tt) /\
       let pos := Z.min p (Z.of_nat (length (contents h t))) in
       let k := Z.to_nat (if child_below h t p c then pos - 1 else pos) in
       nth_error (contents h' t) k = Some c /\
       contents h' t
       = firstn k (children_before_insert h t c)
           ++ c :: skipn k (children_before_insert h t c) /\
       parent h' c = Some t).
Proof.
  split.
  { intros fuel h t p. unfold insert, bind, raise. now rewrite Nat.eqb_refl. }
  intros ht N h t p c l Hac Hanc Hc Kt Hex Hp.
  exists (Nat.max N (length l + 2)). intros fuel Hf.
  destruct (wp_elim _ _ _
    (insert_node_spec ht N h fuel t p c l Hac ltac:(lia) Hanc ltac:(lia) Hc Kt Hp Hex))
    as (h' & [] & Hrun & h1 & H1 & Hpost).
  exists h'. split; [exact Hrun|]. cbv zeta.
  rewrite insert_position_child_below in Hpost. cbv zeta in Hpost.
  pose proof (insert_position_range h t p c Hp (attached_child h c Hex)) as Hrange.
  rewrite insert_position_child_below in Hrange. cbv zeta in Hrange.
  set (pos := if child_below h t p c then _ else _) in *.
  destruct Hpost as (_ & _ & _ & _ & _ & Ec & Epar & _).
  assert (E1 : contents h1 t = children_before_insert h t c).
  { unfold children_before_insert.
    destruct H1 as [[-> ->]|[Hn H1]]; [reflexivity|].
    destruct H1 as (_ & _ & _ & _ & _ & -> & _).
    destruct (parent h c); [reflexivity|congruence]. }
  assert (Hlen : 0 <= pos <= Z.of_nat (length (children_before_insert h t c))).
  { unfold children_before_insert. destruct (parent h c) eqn:Ep; [exact Hrange|].
    unfold contents_without in Hrange. now rewrite Ep in Hrange. }
  rewrite Ec, Epar, !upd_same, E1.
  rewrite py_insert_in_range by exact Hlen.
  repeat split. apply nth_error_insert_at. lia.
Qed.

(** [insert(-1, c)] with the detached tag 3 on the tag 0 of [example_tree],
    whose children are 1 and 2: the child is not found at index
    [min(-1, 2)], the last index; the children are then 1, 3, 2. *)
Lemma insert_negative_position_counterexample :
  ~ placed_at_min 8 example_tree 0%nat (-1) 3%nat.
Proof.
  intros (h' & Hrun & Hnth).
  apply (f_equal fst) in Hrun. cbn [fst] in Hrun. subst h'.
  vm_compute in Hnth. discriminate.
Qed.

(** [insert_places_child] at the tag 0 of [example_tree], the position 2 and
    the tag 1, which is the child of 0 at index 0: the child moves to
    index 1. *)
Lemma insert_places_child_witness :
  exists n0, forall fuel, (n0 <= fuel)%nat ->
  exists h', insert fuel 0%nat 2 (VNode 1%nat) example_tree = (h', Ok tt) /\
    let pos := Z.min 2 (Z.of_nat (length (contents example_tree 0%nat))) in
    let k := Z.to_nat (if child_below example_tree 0%nat 2 1%nat
                       then pos - 1 else pos) in
    nth_error (contents h' 0%nat) k = Some 1%nat /\
    contents h' 0%nat
    = firstn k (children_before_insert example_tree 0%nat 1%nat)
        ++ 1%nat :: skipn k (children_before_insert example_tree 0%nat 1%nat) /\
    parent h' 1%nat = Some 0%nat.
Proof.
  apply (proj2 insert_places_child example_height 2%nat example_tree 0%nat 2 1%nat []).
  - exact example_tree_acyclic.
  - exact example_tree_root.
  - simpl. intros [H|[]]. discriminate.
  - reflexivity.
  - right. apply example_tree_extractable. now left.
  - lia.
Defined.




(** The guards on the first lines of the mutations raise their
    [ValueError] before anything is written: after [insert] of a node into
    itself, [replace_with] on a node without a parent or with the parent of
    the node, [unwrap], [insert_before] and [insert_after] on a node without
    a parent, and [insert_before] and [insert_after] of a node before and
    after itself, the store is the one before the call. *)
Lemma invalid_operations_mutate_nothing (fuel : nat) (h : heap) (n : id) :
  (forall p, invalid_operation h (insert fuel n p (VNode n) h)) /\
  (forall m, parent h n = None -> invalid_operation h (replace_with fuel n m h)) /\
  (forall q, parent h n = Some q -> q <> n ->
             invalid_operation h (replace_with fuel n (VNode q) h)) /\
  (parent h n = None -> invalid_operation h (unwrap fuel n h)) /\
  (forall m, parent h n = None -> invalid_operation h (insert_before fuel n m h)) /\
  (forall m, parent h n = None -> invalid_operation h (insert_after fuel n m h)) /\
  invalid_operation h (insert_before fuel n (VNode n) h) /\
  invalid_operation h (insert_after fuel n (VNode n) h).
Proof.
  unfold invalid_operation.
  repeat split.
  - intros p. unfold insert, bind, raise. rewrite Nat.eqb_refl. eauto.
  - intros m Hp. unfold replace_with, bind, read, pure_call, raise.
    rewrite Hp. cbn. eauto.
  - intros q Hp Hq. unfold replace_with, bind, read, pure_call, raise, ret.
    rewrite Hp. cbn [opt_truthy].
    destruct (truthy h q); cbn [negb]; [|eauto].
    apply Nat.eqb_neq in Hq. rewrite Hq, Nat.eqb_refl. eauto.
  - intros Hp. unfold unwrap, bind, read, pure_call, raise.
    rewrite Hp. cbn. eauto.
  - intros m Hp. unfold insert_before.
    destruct m as [m| |]; [destruct (Nat.eqb m n)|..];
      unfold bind, read, raise; rewrite ?Hp; eauto.
  - intros m Hp. unfold insert_after.
    destruct m as [m| |]; [destruct (Nat.eqb m n)|..];
      unfold bind, read, raise; rewrite ?Hp; eauto.
  - unfold insert_before, raise. rewrite Nat.eqb_refl. eauto.
  - unfold insert_after, raise. rewrite Nat.eqb_refl. eauto.
Qed.

(** [invalid_operations_mutate_nothing] at [example_tree]: the root 0 has no
    parent, and 0 is the parent of the tag 1. *)
Lemma invalid_operations_mutate_nothing_witness :
  invalid_operation example_tree (replace_with 8 3%nat (VNode 1%nat) example_tree) /\
  invalid_operation example_tree (replace_with 8 1%nat (VNode 0%nat) example_tree) /\
  invalid_operation example_tree (unwrap 8 3%nat example_tree) /\
  invalid_operation example_tree (insert_before 8 3%nat (VNode 1%nat) example_tree) /\
  invalid_operation example_tree (insert_after 8 3%nat (VNode 1%nat) example_tree).
Proof.
  pose proof (invalid_operations_mutate_nothing 8 example_tree 3%nat)
    as (_ & H2 & _ & H4 & H5 & H6 & _).
  pose proof (invalid_operations_mutate_nothing 8 example_tree 1%nat)
    as (_ & _ & H3 & _).
  split; [apply H2; reflexivity|].
  split; [apply (H3 0%nat); [reflexivity|discriminate]|].
  split; [apply H4; reflexivity|].
  split; [apply H5; reflexivity|apply H6; reflexivity].
Defined.

(** C4.  Not every invalid operation is rejected before the store is
    written.  On a well-formed tree, for a node [n] whose parent [q] has
    itself a parent [g], [n.insert_before(q)] and [n.insert_after(q)] pass
    the guards of lines 398-402 and 417-421, extract [q], and only then
    raise the [ValueError] with which [insert] rejects a tag inserted into
    itself: after the error [q] has no parent and [g] has lost it from its
    children. *)
Theorem insert_beside_parent_raises_after_extract ht N h n q g :
  acyclic_by ht N h -> parent h n = Some q -> parent h q = Some g ->
  extractable h q -> kind h q = KTag -> In n (contents h q) ->
  exists n0, forall fuel, (n0 <= fuel)%nat ->
  exists h' i,
    insert_before fuel n (VNode q) h
    = (h', Raise (ValueError "Cannot insert a tag into itself.")) /\
    insert_after fuel n (VNode q) h
    = (h', Raise (ValueError "Cannot insert a tag into itself.")) /\
    index_of q (contents h g) = Some i /\
    contents h' g = remove_at i (contents h g) /\
    parent h' q = None /\
    ~ invalid_operation h (insert_before fuel n (VNode q) h) /\
    ~ invalid_operation h (insert_after fuel n (VNode q) h).
Proof.
  intros Hac Pn Pq Hex Kq Hin. exists N. intros fuel Hf.
  destruct (proj1 Hex g Pq) as [Kg Hqg].
  destruct (index_of_In _ _ Hqg) as [i Hi].
  destruct (index_of_In _ _ Hin) as [j Hj].
  assert (Hqn : q <> n).
  { intros ->. now apply (acyclic_irrefl ht N h n Hac Kq). }
  assert (Hqg' : q <> g).
  { intros ->. now apply (acyclic_irrefl ht N h g Hac Kg). }
  destruct (wp_elim _ _ _ (extract_spec ht N h fuel q Hac Hf Hex))
    as (h1 & r & Hrun & -> & Hpost).
  destruct Hpost as (Ek & _ & _ & _ & _ & Ec & Ep & _).
  assert (Ecg : contents h1 g = remove_at i (contents h g)).
  { rewrite Ec. unfold contents_without. now rewrite Pq, Hi, upd_same. }
  assert (Ecq : contents h1 q = contents h q).
  { rewrite Ec. unfold contents_without. rewrite Pq, Hi. now apply upd_other. }
  assert (Epq : parent h1 q = None) by (rewrite Ep; apply upd_same).
  assert (Hidx : index q n h1 = (h1, Ok j)).
  { unfold index. now rewrite Ek, Kq, Ecq, Hj. }
  assert (Hins : forall p, insert fuel q p (VNode q) h1
                 = (h1, Raise (ValueError "Cannot insert a tag into itself."))).
  { intros p. unfold insert, bind, raise. now rewrite Nat.eqb_refl. }
  assert (Hb : insert_before fuel n (VNode q) h
               = (h1, Raise (ValueError "Cannot insert a tag into itself."))).
  { unfold insert_before. apply Nat.eqb_neq in Hqn. rewrite Hqn.
    rewrite (bind_ok _ _ h h (Some q)) by (unfold read; now rewrite Pn).
    rewrite (bind_ok _ _ h h1 tt) by (now rewrite (bind_ok _ _ _ _ _ Hrun)).
    rewrite (bind_ok _ _ _ _ _ Hidx). apply Hins. }
  assert (Ha : insert_after fuel n (VNode q) h
               = (h1, Raise (ValueError "Cannot insert a tag into itself."))).
  { unfold insert_after. apply Nat.eqb_neq in Hqn. rewrite Hqn.
    rewrite (bind_ok _ _ h h (Some q)) by (unfold read; now rewrite Pn).
    rewrite (bind_ok _ _ h h1 tt) by (now rewrite (bind_ok _ _ _ _ _ Hrun)).
    rewrite (bind_ok _ _ _ _ _ Hidx). apply Hins. }
  assert (Hne : h1 <> h) by (intros E; rewrite E in Epq; congruence).
  exists h1, i. rewrite Hb, Ha.
  repeat split; try assumption.
  - intros [why E]. injection E as E _. contradiction.
  - intros [why E]. injection E as E _. contradiction.
Qed.

(** [insert_beside_parent_raises_after_extract] at [nested_tree]:
    [b.insert_before(p)] and [b.insert_after(p)] for the tag [b] of [p]. *)
Lemma insert_beside_parent_raises_after_extract_witness :
  exists n0, forall fuel, (n0 <= fuel)%nat ->
  exists h' i,
    insert_before fuel 2%nat (VNode 1%nat) nested_tree
    = (h', Raise (ValueError "Cannot insert a tag into itself.")) /\
    insert_after fuel 2%nat (VNode 1%nat) nested_tree
    = (h', Raise (ValueError "Cannot insert a tag into itself.")) /\
    index_of 1%nat (contents nested_tree 0%nat) = Some i /\
    contents h' 0%nat = remove_at i (contents nested_tree 0%nat) /\
    parent h' 1%nat = None /\
    ~ invalid_operation nested_tree (insert_before fuel 2%nat (VNode 1%nat) nested_tree) /\
    ~ invalid_operation nested_tree (insert_after fuel 2%nat (VNode 1%nat) nested_tree).
Proof.
  apply (insert_beside_parent_raises_after_extract nested_height 3 nested_tree
           2%nat 1%nat 0%nat).
  - exact nested_tree_acyclic.
  - reflexivity.
  - reflexivity.
  - split.
    + intros q Hq. vm_compute in Hq. injection Hq as <-.
      split; [reflexivity|]. vm_compute. tauto.
    + intros s Hs. vm_compute in Hs. discriminate.
  - reflexivity.
  - vm_compute. tauto.
Defined.

(** C5.  On a well-formed tree, for a node [n] held by the tag [q] and a
    container [c] that is a detached tag without children, a child of no
    tag, and neither [n] nor [q] nor an ancestor of [q], [n.wrap(c)]
    followed by [c.unwrap()] returns and leaves [n] a child of [q] at the
    index it had; the children of [q] are what they were. *)
Theorem wrap_then_unwrap_restores ht N h n q c l :
  acyclic_by ht N h -> ancestors h q l -> parent h n = Some q ->
  ~ In n (q :: l) -> ~ In c (n :: q :: l) ->
  kind h q = KTag -> extractable h n -> NoDup (contents h q) ->
  kind h c = KTag -> contents h c = [] -> parent h c = None ->
  (forall x, kind h x = KTag -> ~ In c (contents h x)) ->
  exists n0, forall fuel, (n0 <= fuel)%nat ->
  exists h1 h2,
    wrap fuel n (VNode c) h = (h1, Ok (VNode c)) /\
    parent h1 n = Some c /\ parent h1 c = Some q /\
    unwrap fuel c h1 = (h2, Ok c) /\
    parent h2 n = Some q /\ contents h2 q = contents h q /\
    index_of n (contents h2 q) = index_of n (contents h q).
Proof.
  intros Hac Hanc Hpn Hn Hc Kq Hex Hnd Kc Cc Pc Hfree.
  destruct (index_of_In n (contents h q) (proj2 (proj1 Hex q Hpn))) as [i Hi].
  exists (Nat.max (2 * N + 2) (length l + 4)). intros fuel Hf.
  assert (Hw1 : wp (wrap fuel n (VNode c))
                  (fun r h3 => r = VNode c /\ wrapped h n q c i h3) h).
  { eapply wrap_spec with (ht := ht) (N := N) (l := l); eauto; lia. }
  destruct (wp_elim _ _ _ Hw1) as (h1 & r1 & Hrun1 & -> & Hw).
  assert (Hu1 : wp (unwrap fuel c)
                  (fun r h6 => r = c /\ parent h6 n = Some q
                               /\ contents h6 q = contents h q) h1).
  { eapply unwrap_spec with (ht := ht) (N := N) (l := l) (i := i); eauto; lia. }
  destruct (wp_elim _ _ _ Hu1) as (h2 & r2 & Hrun2 & -> & Hp2 & Hc2).
  exists h1, h2.
  destruct Hw as (_ & _ & _ & _ & Hp1n & Hp1c & _).
  rewrite Hc2. repeat split; assumption.
Qed.

(** Wrapping the tag 2 of [example_tree] in the tag 4, which holds the
    tag 5, and unwrapping 4: the children of 0 are then 1, 5, 2, and 2 is
    at index 2, not 1. *)
Lemma wrap_in_nonempty_container_counterexample :
  ~ wrap_unwrap_restores 8 example_tree 2%nat 4%nat.
Proof.
  intros (q & h1 & h2 & Hq & Hw & Hu & _ & Hidx).
  vm_compute in Hq. injection Hq as <-.
  apply (f_equal fst) in Hw. cbn [fst] in Hw. subst h1.
  apply (f_equal fst) in Hu. cbn [fst] in Hu. subst h2.
  vm_compute in Hidx. discriminate.
Qed.

(** [wrap_then_unwrap_restores] at [example_tree]: the tag 2 wrapped in the
    detached and childless tag 3. *)
Lemma wrap_then_unwrap_restores_witness :
  exists n0, forall fuel, (n0 <= fuel)%nat ->
  exists h1 h2,
    wrap fuel 2%nat (VNode 3%nat) example_tree = (h1, Ok (VNode 3%nat)) /\
    parent h1 2%nat = Some 3%nat /\ parent h1 3%nat = Some 0%nat /\
    unwrap fuel 3%nat h1 = (h2, Ok 3%nat) /\
    parent h2 2%nat = Some 0%nat /\
    contents h2 0%nat = contents example_tree 0%nat /\
    index_of 2%nat (contents h2 0%nat) = index_of 2%nat (contents example_tree 0%nat).
Proof.
  apply (wrap_then_unwrap_restores example_height 2%nat example_tree
           2%nat 0%nat 3%nat []).
  - exact example_tree_acyclic.
  - exact example_tree_root.
  - reflexivity.
  - simpl. intros [H|[]]. discriminate.
  - simpl. intros [H|[H|[]]]; discriminate.
  - reflexivity.
  - apply example_tree_extractable. now right.
  - simpl. repeat constructor; simpl; intuition discriminate.
  - reflexivity.
  - reflexivity.
  - reflexivity.
  - intros x _ Hin.
    do 6 (destruct x as [|x]; [simpl in Hin; intuition discriminate|]).
    simpl in Hin. contradiction.
Defined.

(** C6.  The sequence that [select] returns holds no element twice (this is
    [select_NoDup]) and, with a [limit] that counts as true, has at most
    [limit] elements.

    The code does not keep the bound.  On [page], [select("p,a", limit=1)]
    returns the two tags 1 and 4: the [break] of lines 1886-1887 leaves the
    loop over the candidates of one tag only, and the second alternative
    of the group adds its first match to the same [new_context].
    [select_one], which passes [limit=1], takes the first of them. *)
Theorem select_exceeds_limit :
  select 20 page 0%nat "p,a" None (Some 1) = Ok [1; 4]%nat /\
  select_one 20 page 0%nat "p,a" = Ok (Some 1%nat) /\
  select 20 page 0%nat "p,a" None None = Ok [1; 3; 5; 4]%nat.
Proof. repeat split; vm_compute; reflexivity. Qed.

(** C7.  On a tag, [select] raises [ValueError] for a selector whose last
    token is a combinator.  For a token group that the evaluation reaches, the groups
    before it having been evaluated without an error, [select] raises
    [ValueError] when the comma list of the group has an empty alternative.
    For a token of a group that is not the operand of a combinator, the
    alternatives before it having been evaluated, it raises a
    selector-syntax error ([ValueError] or [NotImplementedError]) when the
    token has a colon, no attribute form, no [#] and no [.], and no tag name
    stands before the colon, the pseudo-class is not [nth-of-type], its
    argument is not a number, or its value is below 1.  The operand of a
    combinator is a selector of one token that [select] evaluates on the
    first tag of the context of the combinator: when this context is not
    empty, a selector-syntax error of the operand is raised by [select]. *)
Theorem selector_errors_when_reached (fuel : nat) (h : heap) (self : id)
    (selector : string) (g : option candgen) (limit : option Z) :
  let tokens := tokenize selector in
  let rec := fun tag sel g' => select fuel h tag sel g' None in
  let run := select (S fuel) h self selector g limit in
  kind h self = KTag ->
  (forall t, py_nth tokens (-1) = Some t -> is_combinator t = true ->
     run = Raise (ValueError "Final combinator is missing an argument.")) /\
  (forall last pre token_group post ctx,
     py_nth tokens (-1) = Some last -> is_combinator last = false ->
     tokens = pre ++ token_group :: post ->
     over_tokens h (S fuel) rec tokens g limit 0 pre [self] = Ok ctx ->
     (str_in EmptyString (split_on "," token_group) = true ->
      run = Raise (ValueError "Invalid group selection syntax")) /\
     (forall apre token apost new_context,
        str_in EmptyString (split_on "," token_group) = false ->
        consumed tokens (Z.of_nat (length pre)) = false ->
        split_on "," token_group = apre ++ token :: apost ->
        over_group h (S fuel) rec tokens (Z.of_nat (length pre)) g limit ctx apre []
        = Ok new_context ->
        (pseudo_class_token token ->
         let tn := fst (split_once ":" token) in
         let pseudo := snd (split_once ":" token) in
         (tn = EmptyString \/ pseudo_type_of pseudo <> "nth-of-type"%string
          \/ pseudo_value_of pseudo = None
          \/ (exists n, pseudo_value_of pseudo = Some n /\ n < 1)) ->
         selector_syntax_error run) /\
        (forall rule gc operand tag rest,
           classify token = Ok rule ->
           recursive_candidate_generator rule = Some gc ->
           py_nth tokens (Z.of_nat (length pre) + 1) = Some operand ->
           ctx = tag :: rest ->
           tokenize operand = [operand] /\
           (selector_syntax_error (select fuel h tag operand (Some gc) None) ->
            selector_syntax_error run)))).
Proof.
  cbv zeta. intros _. split.
  - intros t Ht Hc. cbn [select]. unfold select_body. now rewrite Ht, Hc.
  - intros last pre tg post ctx Hlast Hnc Htok Hpre.
    assert (Hrun : select (S fuel) h self selector g limit
                   = over_tokens h (S fuel) (fun tag sel g' => select fuel h tag sel g' None)
                       (tokenize selector) g limit (Z.of_nat (length pre))
                       (tg :: post) ctx).
    { cbn [select]. unfold select_body. rewrite Hlast, Hnc.
      rewrite Htok at 2. rewrite over_tokens_app, Hpre. reflexivity. }
    rewrite Hrun. split.
    + intros He. cbn [over_tokens]. now rewrite He.
    + intros apre token apost nc He Hcons Hsplit Hgrp. split.
      * intros Hps Hbad.
        set (tn := fst (split_once ":" token)) in *.
        set (pseudo := snd (split_once ":" token)) in *.
        cbn [over_tokens]. rewrite He. unfold consumed in Hcons. rewrite Hcons.
        rewrite Hsplit, over_group_app, Hgrp. cbn [rbind over_group].
        destruct (classify_pseudo_class token Hps) as (H1 & H2 & H3 & H4).
        fold tn in H1, H2, H3, H4. fold pseudo in H2, H3, H4.
        assert (Hcl : selector_syntax_error (classify token)).
        { unfold selector_syntax_error.
          destruct (string_dec tn EmptyString) as [E|E]; [rewrite (H1 E); eauto|].
          destruct (string_dec (pseudo_type_of pseudo) "nth-of-type") as [E2|E2];
            [|rewrite (H4 E E2); eauto].
          destruct (pseudo_value_of pseudo) as [n|] eqn:Ev; [|rewrite (H2 E E2 eq_refl); eauto].
          destruct Hbad as [Hb|[Hb|[Hb|(n' & Hb & Hlt)]]]; try congruence.
          injection Hb as <-. rewrite (H3 E E2 n eq_refl Hlt). eauto. }
        destruct Hcl as [why [-> | ->]]; cbn [rbind]; unfold selector_syntax_error; eauto.
      * intros rule gc operand tag rest Hcl Hgc Hnext ->. split.
        { apply (tokenize_token selector). eapply py_nth_In. exact Hnext. }
        intros Hop.
        cbn [over_tokens]. rewrite He. unfold consumed in Hcons. rewrite Hcons.
        rewrite Hsplit, over_group_app, Hgrp. cbn [rbind over_group].
        rewrite Hcl. cbn [rbind]. rewrite Hgc, Hnext.
        cbn [rbind over_context start_generator].
        destruct Hop as [why [-> | ->]]; cbn [rbind]; unfold selector_syntax_error; eauto.
Qed.

(** [select("p.a:hover")] on [page] raises nothing: a token with a dot is
    taken as a class selector, whatever follows the dot.
    [select("b > p:hover")] raises nothing either: no tag [b] is found, and
    the operand of [>] is never looked at. *)
Lemma selector_errors_counterexample :
  ~ selector_syntax_error (select 20 page 0%nat "p.a:hover" None None) /\
  ~ selector_syntax_error (select 20 page 0%nat "b > p:hover" None None).
Proof.
  split; intros [why [H|H]]; vm_compute in H; discriminate.
Qed.

(** [selector_errors_when_reached] on [page]: a final combinator, an empty
    alternative, a pseudo-class other than [nth-of-type], and the same
    pseudo-class as the operand of a combinator whose context holds the tag
    [span]. *)
Lemma selector_errors_when_reached_witness :
  select 20 page 0%nat "p >" None None
  = Raise (ValueError "Final combinator is missing an argument.") /\
  select 20 page 0%nat "p p,,a" None None
  = Raise (ValueError "Invalid group selection syntax") /\
  selector_syntax_error (select 20 page 0%nat "p p:hover" None None) /\
  selector_syntax_error (select 20 page 0%nat "span > p:hover" None None).
Proof.
  split; [|split; [|split]].
  - apply (proj1 (selector_errors_when_reached 19 page 0%nat "p >" None None eq_refl) ">"%string);
      vm_compute; reflexivity.
  - apply (proj2 (selector_errors_when_reached 19 page 0%nat "p p,,a" None None eq_refl)
             "p,,a"%string ["p"%string] "p,,a"%string [] [1; 3; 5]%nat);
      vm_compute; reflexivity.
  - apply (proj1 (proj2 (proj2 (selector_errors_when_reached 19 page 0%nat "p p:hover" None None eq_refl)
             "p:hover"%string ["p"%string] "p:hover"%string [] [1; 3; 5]%nat
             ltac:(vm_compute; reflexivity) ltac:(vm_compute; reflexivity)
             ltac:(vm_compute; reflexivity) ltac:(vm_compute; reflexivity))
             [] "p:hover"%string [] []
             ltac:(vm_compute; reflexivity) ltac:(vm_compute; reflexivity)
             ltac:(vm_compute; reflexivity) ltac:(vm_compute; reflexivity))).
    + repeat split; vm_compute; reflexivity.
    + right. left. vm_compute. discriminate.
  - apply (proj2 (proj2 (proj2 (proj2 (selector_errors_when_reached 19 page 0%nat
                                          "span > p:hover" None None eq_refl)
             "p:hover"%string ["span"%string] ">"%string ["p:hover"%string] [2%nat]
             ltac:(vm_compute; reflexivity) ltac:(vm_compute; reflexivity)
             ltac:(vm_compute; reflexivity) ltac:(vm_compute; reflexivity))
             [] ">"%string [] []
             ltac:(vm_compute; reflexivity) ltac:(vm_compute; reflexivity)
             ltac:(vm_compute; reflexivity) ltac:(vm_compute; reflexivity))
             (mkRule None None (Some Children)) Children "p:hover"%string 2%nat []
             ltac:(vm_compute; reflexivity) ltac:(vm_compute; reflexivity)
             ltac:(vm_compute; reflexivity) eq_refl)).
    apply (proj1 (proj2 (proj2 (selector_errors_when_reached 18 page 2%nat "p:hover"
                                  (Some Children) None eq_refl)
             "p:hover"%string [] "p:hover"%string [] [2%nat]
             ltac:(vm_compute; reflexivity) ltac:(vm_compute; reflexivity)
             ltac:(vm_compute; reflexivity) ltac:(vm_compute; reflexivity))
             [] "p:hover"%string [] []
             ltac:(vm_compute; reflexivity) ltac:(vm_compute; reflexivity)
             ltac:(vm_compute; reflexivity) ltac:(vm_compute; reflexivity))).
    + repeat split; vm_compute; reflexivity.
    + right. left. vm_compute. discriminate.
Defined.

Local Open Scope string_scope.

(** C8.  In an HTML tree, for a tag whose only child is a text that holds
    the character [<], for every named formatter policy and for entity
    substitutions that turn [<] into [&lt;]: a [<script>] tag is rendered
    with its text as it is, and a [<p>] tag is rendered with the [<] of its
    text replaced by [&lt;].  Under the null formatter [None] the text is
    rendered as it is, whatever the tag. *)
Theorem raw_tags_are_not_escaped
    (substitute_html substitute_xml substitute_xml_containing_entities
       quoted_attribute_value : string -> string)
    (h : heap) (t c : id) (a b policy : string) :
  escapes_lt substitute_html -> escapes_lt substitute_xml_containing_entities ->
  holds_one_text h t c (a ++ "<" ++ b) ->
  let render := decode substitute_html substitute_xml
                  substitute_xml_containing_entities quoted_attribute_value in
  let f := named_substitution substitute_html substitute_xml_containing_entities
             policy in
  exists n0, forall fuel, (n0 <= fuel)%nat ->
    (name h t = "script" ->
     render fuel h t (FormatterName (Some policy))
     = Ok ("<script>" ++ (a ++ "<" ++ b) ++ "</script>")) /\
    (name h t = "p" ->
     render fuel h t (FormatterName (Some policy))
     = Ok ("<p>" ++ (f a ++ "&lt;" ++ f b) ++ "</p>")) /\
    render fuel h t (FormatterName None)
    = Ok ("<" ++ name h t ++ ">" ++ (a ++ "<" ++ b) ++ "</" ++ name h t ++ ">").
Proof.
  intros Hh Hx Hone render f.
  destruct (decode_named_policy substitute_html substitute_xml
              substitute_xml_containing_entities quoted_attribute_value
              h t c _ policy Hone) as [n1 H1].
  destruct (decode_null_policy substitute_html substitute_xml
              substitute_xml_containing_entities quoted_attribute_value
              h t c _ Hone) as [n2 H2].
  exists (Nat.max n1 n2). intros fuel Hf.
  split; [|split].
  - intros Hn. unfold render. rewrite H1 by lia. now rewrite Hn.
  - intros Hn. unfold render. rewrite H1 by lia. rewrite Hn.
    cbn [str_in existsb String.eqb Ascii.eqb Bool.eqb orb].
    assert (Hf' : escapes_lt f).
    { unfold f, named_substitution. now destruct (String.eqb policy "html"). }
    now rewrite Hf'.
  - unfold render. apply H2. lia.
Qed.

(** Under the null formatter the text of [<p>a<b</p>] is rendered as it is,
    with no [&lt;]. *)
Lemma null_formatter_counterexample : ~ escaped_under_every_policy.
Proof.
  intros H. destruct (H (FormatterName None)) as [_ Hp].
  vm_compute in Hp. discriminate.
Qed.

(** [raw_tags_are_not_escaped] at [script_and_p], under the policy
    [minimal]. *)
Lemma raw_tags_are_not_escaped_witness :
  exists n0, forall fuel, (n0 <= fuel)%nat ->
    decode xml_escape xml_escape xml_escape (fun s => s) fuel script_and_p 2%nat
      (FormatterName (Some "minimal"))
    = Ok "<p>a&lt;b</p>" /\
    decode xml_escape xml_escape xml_escape (fun s => s) fuel script_and_p 0%nat
      (FormatterName (Some "minimal"))
    = Ok "<script>a<b</script>".
Proof.
  assert (H2 : holds_one_text script_and_p 2%nat 3%nat ("a" ++ "<" ++ "b")).
  { repeat split; try reflexivity. exists 4%nat. reflexivity. }
  assert (H0 : holds_one_text script_and_p 0%nat 1%nat ("a" ++ "<" ++ "b")).
  { repeat split; try reflexivity. exists 4%nat. reflexivity. }
  destruct (raw_tags_are_not_escaped xml_escape xml_escape xml_escape (fun s => s)
              script_and_p 2%nat 3%nat "a" "b" "minimal"
              xml_escape_escapes_lt xml_escape_escapes_lt H2) as [n1 Hp].
  destruct (raw_tags_are_not_escaped xml_escape xml_escape xml_escape (fun s => s)
              script_and_p 0%nat 1%nat "a" "b" "minimal"
              xml_escape_escapes_lt xml_escape_escapes_lt H0) as [n2 Hs].
  exists (Nat.max n1 n2). intros fuel Hf. split.
  - exact (proj1 (proj2 (Hp fuel ltac:(lia))) eq_refl).
  - exact (proj1 (Hs fuel ltac:(lia)) eq_refl).
Defined.

(** [is_xml_page] is no HTML tree: its root has no attribute [is_xml] and
    holds a tag named [is_xml], which [getattr] finds, so the text of its
    [<script>] is substituted under the policy [minimal]. *)
Lemma script_beside_is_xml_tag_is_escaped :
  _is_xml 8 is_xml_page 2%nat = Ok true /\
  decode xml_escape xml_escape xml_escape (fun s => s) 8 is_xml_page 2%nat
    (FormatterName (Some "minimal"))
  = Ok "<script>a&lt;b</script>".
Proof. split; vm_compute; reflexivity. Qed.

Local Close Scope string_scope.

(** C9.  For every tag whose [class] attribute is the list of [a] and [b],
    the checker that [select] builds for the token [.a.b] matches the tag,
    the checker for [.a.c] does not, and the checker of the attribute
    selector [[class~="a"]] matches it. *)
Theorem class_checkers_on_a_b (h : heap) (x : id) :
  get h x "class" = Some (AList ["a"; "b"]%string) ->
  (classify ".a.b"
   = Ok (mkRule (Some EmptyString) (Some (ClassesMatch ["a"; "b"]%string)) None) /\
   classes_match h ["a"; "b"]%string x = Ok true) /\
  (classify ".a.c"
   = Ok (mkRule (Some EmptyString) (Some (ClassesMatch ["a"; "c"]%string)) None) /\
   classes_match h ["a"; "c"]%string x = Ok false) /\
  (classify class_includes_a
   = Ok (mkRule None (Some (AttributeChecker "~" "class" "a")) None) /\
   _attribute_checker h "~" "class" "a" x = Ok true).
Proof.
  intros H. repeat split; try (vm_compute; reflexivity).
  - unfold classes_match. rewrite H. reflexivity.
  - unfold classes_match. rewrite H. reflexivity.
  - unfold _attribute_checker. cbn [String.eqb Ascii.eqb Bool.eqb].
    rewrite H. reflexivity.
Qed.

(** [class_checkers_on_a_b] at the tag 1 of [page]. *)
Lemma class_checkers_on_a_b_witness :
  (classify ".a.b"
   = Ok (mkRule (Some EmptyString) (Some (ClassesMatch ["a"; "b"]%string)) None) /\
   classes_match page ["a"; "b"]%string 1%nat = Ok true) /\
  (classify ".a.c"
   = Ok (mkRule (Some EmptyString) (Some (ClassesMatch ["a"; "c"]%string)) None) /\
   classes_match page ["a"; "c"]%string 1%nat = Ok false) /\
  (classify class_includes_a
   = Ok (mkRule None (Some (AttributeChecker "~" "class" "a")) None) /\
   _attribute_checker page "~" "class" "a" 1%nat = Ok true).
Proof. apply (class_checkers_on_a_b page 1%nat). reflexivity. Defined.

(** C10.  For a tag [t] of a well-formed tree, every position [p] and every
    plain string [s], [t.insert(p, s)] makes a new [NavigableString] with
    the text [s] and the parent [t].  For [p >= 0] and for
    [-len(t.contents) < p < 0] the call returns and this node is stored in
    [t.contents], at index [min(p, len(t.contents))] and at index
    [len(t.contents) + p].  For [p < 0] with [p <= -len(t.contents)] the call
    raises [IndexError] and [t.contents] is as it was: nothing is stored.
    No plain [str] is stored as a child. *)
Theorem insert_wraps_plain_string ht N h t p s l :
  acyclic_by ht N h -> ancestors h t l ->
  Forall (fun y => (y < fresh h)%nat) (t :: l) -> kind h t = KTag ->
  exists n0, forall fuel, (n0 <= fuel)%nat ->
  exists h' r, insert fuel t p (VStr s) h = (h', r) /\
    let u := fresh h in
    let len := Z.of_nat (length (contents h t)) in
    let k := Z.to_nat (if p <? 0 then len + p else Z.min p len) in
    kind h' u = KStr NavigableString /\ text h' u = s /\ parent h' u = Some t /\
    (0 <= p \/ - len < p ->
     r = Ok tt /\
     contents h' t = firstn k (contents h t) ++ u :: skipn k (contents h t) /\
     nth_error (contents h' t) k = Some u) /\
    (p < 0 -> p <= - len ->
     r = Raise IndexError /\ contents h' t = contents h t).
Proof.
  intros Hac Hanc Hall Kt.
  exists (Nat.max N (length l + 2)). intros fuel Hf.
  set (u := fresh h). set (pos := Z.min p (Z.of_nat (length (contents h t)))).
  assert (Hu : ~ In u (t :: l)).
  { intros Hin. rewrite Forall_forall in Hall. specialize (Hall u Hin).
    unfold u in Hall. lia. }
  assert (Hut : t <> u) by (intros ->; apply Hu; now left).
  set (hs := fst (new_NavigableString NavigableString s h)).
  assert (Ks : kind hs t = KTag) by (cbn; now rewrite upd_other).
  assert (Cs : contents hs t = contents h t) by (cbn; now rewrite upd_other).
  assert (Ps : parent hs u = None) by (cbn; now rewrite upd_same).
  assert (Hacs : acyclic_by ht N hs).
  { destruct Hac as [Hb Hd]. split; [exact Hb|]. intros x c. cbn. unfold upd.
    destruct (Nat.eqb x (fresh h)); [discriminate|]. apply Hd. }
  assert (Hancs : ancestors hs t l).
  { eapply ancestors_ext; [|exact Hanc]. intros y Hy. cbn.
    apply upd_other. intros ->. now apply Hu. }
  assert (Hrun : insert fuel t p (VStr s) h = insert_links fuel t pos u hs).
  { unfold insert.
    rewrite (bind_ok _ _ h h tt) by reflexivity.
    rewrite (bind_ok _ _ h hs (VNode u)) by reflexivity.
    rewrite (bind_ok _ _ hs hs (contents hs t))
      by (unfold get_contents; now rewrite Ks).
    rewrite Cs. fold pos.
    rewrite (bind_ok _ _ hs hs None) by (unfold read; now rewrite Ps).
    rewrite (bind_ok _ _ hs hs pos) by reflexivity.
    reflexivity. }
  rewrite Hrun.
  destruct (Z.eq_dec pos 0) as [E0|E0];
    [|destruct (Z_lt_dec (- Z.of_nat (length (contents h t))) pos) as [El|El]].
  3:{ rewrite insert_links_index_error by (try assumption; rewrite ?Cs; lia).
      do 2 eexists. split; [reflexivity|]. cbn.
      rewrite !upd_same. rewrite upd_other by assumption.
      repeat split; auto; exfalso; unfold pos in *; lia. }
  all: destruct (wp_elim _ _ _
         (insert_links_spec ht N hs fuel t pos u l Hacs ltac:(lia) Hancs ltac:(lia)
            Hu Ks ltac:(unfold linkable; rewrite Cs; unfold pos; lia)))
         as (h' & [] & -> & Ek & _ & _ & Et & _ & Ec & Ep & _).
  all: exists h', (Ok tt); split; [reflexivity|].
  all: rewrite Ek, Et, Ec, Ep, !upd_same, Cs; cbn; rewrite !upd_same.
  all: assert (Hins : py_insert (contents h t) pos u
         = firstn (Z.to_nat (if p <? 0 then Z.of_nat (length (contents h t)) + p
                             else Z.min p (Z.of_nat (length (contents h t)))))
             (contents h t)
           ++ u :: skipn (Z.to_nat (if p <? 0 then Z.of_nat (length (contents h t)) + p
                                    else Z.min p (Z.of_nat (length (contents h t)))))
                     (contents h t))
    by (unfold py_insert, pos in *; destruct (p <? 0) eqn:Ep0;
        [apply Z.ltb_lt in Ep0; rewrite Z.min_l by lia;
         destruct (p <? 0) eqn:Ep1; [|apply Z.ltb_ge in Ep1; lia];
         do 2 f_equal; try f_equal; lia
        |apply Z.ltb_ge in Ep0;
         destruct (Z.min p (Z.of_nat (length (contents h t))) <? 0) eqn:Ep1;
         [apply Z.ltb_lt in Ep1; lia|];
         do 2 f_equal; try f_equal; lia]).
  all: rewrite Hins.
  all: repeat split; auto.
  all: try (apply nth_error_insert_at; destruct (p <? 0) eqn:Ep0;
            [apply Z.ltb_lt in Ep0|apply Z.ltb_ge in Ep0]; unfold pos in *; lia).
  all: try (exfalso; unfold pos in *; lia).
Qed.

(** [insert(-5, "x")] on the tag 0 of [example_tree], whose children are 1
    and 2, raises [IndexError]; the children are then 1 and 2, and no string
    node is among them. *)
Lemma insert_out_of_range_stores_nothing_counterexample :
  ~ string_child_stored 8 example_tree 0%nat (-5) "x".
Proof.
  intros (h' & r & u & Hrun & Hin & K & _).
  apply (f_equal fst) in Hrun. cbn [fst] in Hrun. subst h'.
  vm_compute in Hin. destruct Hin as [<-|[<-|[]]]; vm_compute in K; discriminate.
Qed.

(** [insert_wraps_plain_string] at the tag 0 of [example_tree], the
    position -1 and the string [x]. *)
Lemma insert_wraps_plain_string_witness :
  exists n0, forall fuel, (n0 <= fuel)%nat ->
  exists h' r, insert fuel 0%nat (-1) (VStr "x") example_tree = (h', r) /\
    let u := fresh example_tree in
    let len := Z.of_nat (length (contents example_tree 0%nat)) in
    let k := Z.to_nat (if -1 <? 0 then len + -1 else Z.min (-1) len) in
    kind h' u = KStr NavigableString /\ text h' u = "x"%string /\
    parent h' u = Some 0%nat /\
    (0 <= -1 \/ - len < -1 ->
     r = Ok tt /\
     contents h' 0%nat
     = firstn k (contents example_tree 0%nat)
         ++ u :: skipn k (contents example_tree 0%nat) /\
     nth_error (contents h' 0%nat) k = Some u) /\
    (-1 < 0 -> -1 <= - len ->
     r = Raise IndexError /\ contents h' 0%nat = contents example_tree 0%nat).
Proof.
  apply (insert_wraps_plain_string example_height 2%nat example_tree 0%nat (-1) "x" []).
  - exact example_tree_acyclic.
  - exact example_tree_root.
  - repeat constructor.
  - reflexivity.
Defined.

(** * Further properties of the code *)

(** ** Mutations of the tree *)

Lemma example_tree_detached_root : ancestors example_tree 3%nat [].
Proof. apply ancestors_root. reflexivity. Qed.

Lemma example_tree_detached_extractable : extractable example_tree 3%nat.
Proof. split; intros x Hx; vm_compute in Hx; discriminate. Qed.

(** X1.  On a well-formed tree [extract] returns the node itself and
    detaches it: its parent and its two siblings become [None], the
    children of its parent lose the entry at the index of the node, the
    children of every other tag and the parent of every other node are
    what they were. *)
Theorem extract_detaches ht N h x :
  acyclic_by ht N h -> extractable h x ->
  exists n0, forall fuel, (n0 <= fuel)%nat ->
  exists h', extract fuel x h = (h', Ok x) /\
    parent h' x = None /\ previous_sibling h' x = None /\
    next_sibling h' x = None /\
    (forall q i, parent h x = Some q -> index_of x (contents h q) = Some i ->
                 contents h' q = remove_at i (contents h q)) /\
    (forall y, parent h x <> Some y -> contents h' y = contents h y) /\
    (forall y, y <> x -> parent h' y = parent h y).
Proof.
  intros Hac Hex. exists N. intros fuel Hf.
  destruct (wp_elim _ _ _ (extract_spec ht N h fuel x Hac Hf Hex))
    as (h' & r & Hrun & -> & Hpost).
  exists h'. split; [exact Hrun|].
  destruct Hpost as (_ & _ & _ & _ & _ & Ec & Ep & Hns & Hps & _).
  rewrite Ec, Ep, upd_same. unfold contents_without.
  repeat split; try assumption.
  - intros q i Hq Hi. rewrite Hq, Hi. apply upd_same.
  - intros y Hy. destruct (parent h x) as [q|]; [|reflexivity].
    destruct (index_of x (contents h q)); [|reflexivity].
    apply upd_other. congruence.
  - intros y Hy. now apply upd_other.
Qed.

(** [extract_detaches] at a concrete input. *)
Lemma extract_detaches_witness :
  exists n0, forall fuel, (n0 <= fuel)%nat ->
  exists h', extract fuel 1%nat example_tree = (h', Ok 1%nat) /\
    parent h' 1%nat = None /\ previous_sibling h' 1%nat = None /\
    next_sibling h' 1%nat = None /\
    (forall q i, parent example_tree 1%nat = Some q ->
                 index_of 1%nat (contents example_tree q) = Some i ->
                 contents h' q = remove_at i (contents example_tree q)) /\
    (forall y, parent example_tree 1%nat <> Some y ->
               contents h' y = contents example_tree y) /\
    (forall y, y <> 1%nat -> parent h' y = parent example_tree y).
Proof.
  apply (extract_detaches example_height 2%nat example_tree 1%nat).
  - exact example_tree_acyclic.
  - apply example_tree_extractable. now left.
Defined.

Lemma py_eq_shape fuel h1 h2 a b :
  kind h1 = kind h2 -> name h1 = name h2 -> attrs h1 = attrs h2 ->
  text h1 = text h2 -> contents h1 = contents h2 ->
  py_eq fuel h1 a b = py_eq fuel h2 a b.
Proof.
  intros Ek En Ea Et Ec. revert a b.
  induction fuel as [|f IH]; intros a b; [reflexivity|].
  cbn [py_eq]. rewrite Ek, En, Ea, Et, Ec.
  destruct (kind h2 a), (kind h2 b); try reflexivity.
  destruct (Nat.eqb a b); [reflexivity|].
  destruct (_ || _); [reflexivity|].
  generalize (contents h2 a) (contents h2 b).
  induction l as [|x l IHl]; intros [|y l']; try reflexivity.
  rewrite IH. destruct (py_eq f h2 x y) as [[|]| |]; try reflexivity. apply IHl.
Qed.

Lemma py_ne_run fuel h a b r :
  py_eq fuel h a b = Ok r -> py_ne fuel h a (Some b) = Ok (negb r).
Proof. intros H. unfold py_ne. now rewrite H. Qed.

Lemma equal_texts_tree_acyclic :
  acyclic_by equal_texts_height 2 equal_texts_tree.
Proof.
  split.
  - intros x. destruct x; cbn; lia.
  - intros x c _ Hin.
    do 4 (destruct x as [|x]; [vm_compute in Hin; cbn; intuition (subst; cbn; lia)|]).
    vm_compute in Hin. contradiction.
Qed.

Lemma equal_texts_tree_extractable : extractable equal_texts_tree 2%nat.
Proof.
  split.
  - intros q Hq. vm_compute in Hq. injection Hq as <-.
    split; [reflexivity|]. vm_compute. tauto.
  - intros s Hs _. vm_compute in Hs. injection Hs as <-. vm_compute. discriminate.
Qed.

(** X2.  [extract] closes the document-order chain over the subtree it
    removes exactly when the two neighbours differ by value.  Let [a] be
    the previous element of the node, [ld] its last descendant and [b] the
    next element of [ld], and let [a == b] and [b == a] be evaluated once
    the node has been deleted from the children of its parent.  After
    [extract], [a.next_element] is [b] unless [a == b], and then it is what
    it was; [b.previous_element] is [a] unless [b == a]; the previous
    element of the node and the next element of [ld] are [None]. *)
Theorem extract_closes_the_chain_unless_equal ht N h fuel x q i a b ld e1 e2 :
  acyclic_by ht N h -> (N <= fuel)%nat -> extractable h x ->
  parent h x = Some q -> index_of x (contents h q) = Some i ->
  let hd := set_contents q (remove_at i (contents h q)) h in
  _last_descendant fuel x true true hd = Ok (Some ld) ->
  previous_element h x = Some a -> next_element h ld = Some b ->
  a <> ld -> b <> x ->
  py_eq fuel hd a b = Ok e1 -> py_eq fuel hd b a = Ok e2 ->
  exists h', extract fuel x h = (h', Ok x) /\
    next_element h' a = (if e1 then next_element h a else Some b) /\
    previous_element h' b = (if e2 then previous_element h b else Some a) /\
    previous_element h' x = None /\ next_element h' ld = None.
Proof.
  intros Hac Hf [Hpar Hns] Hp Hi hd Hld Ha Hb Hald Hbx He1 He2.
  destruct (Hpar q Hp) as [Kq Hin].
  assert (Hacd : acyclic_by ht N hd) by now apply acyclic_remove.
  assert (H : wp (extract fuel x)
                (fun r h' => r = x /\
                   next_element h' a = (if e1 then next_element h a else Some b) /\
                   previous_element h' b
                   = (if e2 then previous_element h b else Some a) /\
                   previous_element h' x = None /\ next_element h' ld = None) h).
  { unfold extract. wp_steps. rewrite Hp.
    apply wp_conseq with (Q := fun _ h1 => h1 = hd).
    { wp_steps. apply wp_get_contents; [assumption|].
      wp_steps. apply (wp_index q x i); [assumption..|].
      wp_steps. reflexivity. }
    intros _ ? ->. cbv beta.
    wp_step. eapply wp_pure_call; [exact Hld|]. wp_steps.
    change (next_element hd ld) with (next_element h ld).
    change (previous_element hd x) with (previous_element h x).
    rewrite Ha, Hb.
    set (h1 := if e1 then hd else set_next_element a (Some b) hd).
    apply wp_conseq with (Q := fun _ h0 => h0 = h1).
    { unfold heal. wp_step. eapply wp_pure_call; [apply py_ne_run; exact He1|].
      unfold h1. destruct e1; cbn [negb]; wp_steps; reflexivity. }
    intros _ ? ->. cbv beta. wp_steps.
    assert (Hpe1 : previous_element h1 x = Some a).
    { unfold h1. destruct e1; exact Ha. }
    rewrite Hpe1.
    assert (He2' : py_eq fuel h1 b a = Ok e2).
    { rewrite <- He2. unfold h1. destruct e1; [reflexivity|].
      apply py_eq_shape; reflexivity. }
    set (h2 := if e2 then h1 else set_previous_element b (Some a) h1).
    apply wp_conseq with (Q := fun _ h0 => h0 = h2).
    { unfold heal. wp_step. eapply wp_pure_call; [apply py_ne_run; exact He2'|].
      unfold h2. destruct e2; cbn [negb]; wp_steps; reflexivity. }
    intros _ ? ->. cbv beta. wp_steps.
    match goal with |- wp _ _ ?h0 => set (h3 := h0) end.
    assert (E3 : kind h3 = kind hd /\ contents h3 = contents hd).
    { unfold h3, h2, h1. destruct e1, e2; split; reflexivity. }
    assert (Hac3 : acyclic_by ht N h3).
    { eapply acyclic_shape; [| |exact Hacd]; apply E3. }
    assert (N3 : next_element h3 a = (if e1 then next_element h a else Some b)).
    { unfold h3, h2, h1. apply Nat.eqb_neq in Hald.
      destruct e1, e2; cbn; unfold upd; rewrite ?Hald, ?Nat.eqb_refl; reflexivity. }
    assert (P3 : previous_element h3 b
                 = (if e2 then previous_element h b else Some a)).
    { unfold h3, h2, h1. apply Nat.eqb_neq in Hbx.
      destruct e1, e2; cbn; unfold upd; rewrite ?Hbx, ?Nat.eqb_refl; reflexivity. }
    assert (X3 : previous_element h3 x = None).
    { unfold h3. cbn. apply upd_same. }
    assert (L3 : next_element h3 ld = None).
    { unfold h3. cbn. apply upd_same. }
    eapply wp_conseq; [apply (wp_heal ht N); assumption|].
    cbv beta. intros _ h4 H4. wp_steps.
    eapply wp_conseq.
    { apply (wp_heal ht N); [|assumption].
      destruct H4 as [-> | (a' & _ & ->)]; [assumption|].
      eapply acyclic_shape; [| |exact Hac3]; reflexivity. }
    cbv beta. intros _ h5 H5. wp_steps. split; [reflexivity|].
    destruct H4 as [-> | (a' & _ & ->)], H5 as [-> | (b' & _ & ->)];
      cbn [set_next_sibling set_previous_sibling next_element previous_element];
      rewrite N3, P3, X3, L3; repeat split. }
  destruct (wp_elim _ _ _ H) as (h' & r & Hrun & -> & Hrest).
  exists h'. split; assumption.
Qed.

(** [extract_closes_the_chain_unless_equal] at a concrete input. *)
Lemma extract_closes_the_chain_unless_equal_witness :
  (exists h', extract 8 2%nat equal_texts_tree = (h', Ok 2%nat) /\
     next_element h' 1%nat = next_element equal_texts_tree 1%nat /\
     previous_element h' 3%nat = previous_element equal_texts_tree 3%nat /\
     previous_element h' 2%nat = None /\ next_element h' 2%nat = None) /\
  (exists h', extract 8 1%nat example_tree = (h', Ok 1%nat) /\
     next_element h' 0%nat = Some 2%nat /\
     previous_element h' 2%nat = Some 0%nat /\
     previous_element h' 1%nat = None /\ next_element h' 1%nat = None).
Proof.
  split.
  - apply (extract_closes_the_chain_unless_equal equal_texts_height 2%nat equal_texts_tree 8
             2%nat 0%nat 1%nat 1%nat 3%nat 2%nat true true).
    + exact equal_texts_tree_acyclic.
    + lia.
    + exact equal_texts_tree_extractable.
    + reflexivity.
    + reflexivity.
    + vm_compute. reflexivity.
    + reflexivity.
    + reflexivity.
    + discriminate.
    + discriminate.
    + vm_compute. reflexivity.
    + vm_compute. reflexivity.
  - apply (extract_closes_the_chain_unless_equal example_height 2%nat example_tree 8
             1%nat 0%nat 0%nat 0%nat 2%nat 1%nat false false).
    + exact example_tree_acyclic.
    + lia.
    + apply example_tree_extractable. now left.
    + reflexivity.
    + reflexivity.
    + vm_compute. reflexivity.
    + reflexivity.
    + reflexivity.
    + discriminate.
    + discriminate.
    + vm_compute. reflexivity.
    + vm_compute. reflexivity.
Defined.

(** X3.  On a well-formed tree, [t.append(c)] for a node [c] that is
    detached or held by its parent, and is neither [t] nor an ancestor of
    [t], returns and makes [c] the last child of [t]: the children are the
    former children without [c], followed by [c]; [c.parent] is [t] and
    [c.next_sibling] is [None]. *)
Theorem append_places_last ht N h t c l :
  acyclic_by ht N h -> ancestors h t l -> ~ In c (t :: l) ->
  kind h t = KTag -> (parent h c = None \/ extractable h c) ->
  exists n0, forall fuel, (n0 <= fuel)%nat ->
  exists h', append fuel t (VNode c) h = (h', Ok tt) /\
    contents h' t = children_before_insert h t c ++ [c] /\
    parent h' c = Some t /\ next_sibling h' c = None.
Proof.
  intros Hac Hanc Hc Kt Hex.
  exists (Nat.max N (length l + 2)). intros fuel Hf.
  set (p := Z.of_nat (length (contents h t))).
  assert (Hp : 0 <= p) by (unfold p; lia).
  destruct (wp_elim _ _ _
    (insert_node_spec ht N h fuel t p c l Hac ltac:(lia) Hanc ltac:(lia) Hc Kt Hp Hex))
    as (h' & [] & Hrun & h1 & H1 & Hpost).
  exists h'. split.
  { unfold append, get_contents, bind. rewrite Kt. exact Hrun. }
  assert (E1 : contents h1 t = children_before_insert h t c).
  { unfold children_before_insert.
    destruct H1 as [[-> ->]|[Hn H1]]; [reflexivity|].
    destruct H1 as (_ & _ & _ & _ & _ & -> & _).
    destruct (parent h c); [reflexivity|congruence]. }
  assert (Epos : insert_position h t p c
                 = Z.of_nat (length (children_before_insert h t c))).
  { unfold insert_position, children_before_insert, contents_without, p.
    rewrite Z.min_id.
    destruct (parent h c) as [q|] eqn:Ep; [|reflexivity].
    destruct Hex as [Hex|Hex]; [congruence|].
    destruct (proj1 Hex q Ep) as [Kq Hin].
    destruct (index_of_In _ _ Hin) as [i Hi]. rewrite Hi.
    destruct (Nat.eqb q t) eqn:E.
    - apply Nat.eqb_eq in E. subst q. rewrite Hi, upd_same.
      destruct (index_of_Some _ _ _ Hi) as [_ Hlt].
      rewrite length_remove_at by exact Hlt.
      destruct (Z.of_nat i <? _) eqn:E2; [lia|apply Z.ltb_ge in E2; lia].
    - rewrite upd_other; [reflexivity|]. apply Nat.eqb_neq in E. congruence. }
  rewrite Epos in Hpost.
  destruct Hpost as (_ & _ & _ & _ & _ & Ec & Epar & Ens & _).
  rewrite Ec, Epar, Ens, !upd_same, E1.
  rewrite py_insert_in_range by lia.
  rewrite Nat2Z.id, firstn_all, skipn_all.
  split; [reflexivity|]. split; [reflexivity|].
  unfold next_child_of. rewrite E1.
  destruct (_ >=? _) eqn:E; [reflexivity|]. lia.
Qed.

(** [append_places_last] at a concrete input. *)
Lemma append_places_last_witness :
  exists n0, forall fuel, (n0 <= fuel)%nat ->
  exists h', append fuel 0%nat (VNode 1%nat) example_tree = (h', Ok tt) /\
    contents h' 0%nat = children_before_insert example_tree 0%nat 1%nat ++ [1%nat] /\
    parent h' 1%nat = Some 0%nat /\ next_sibling h' 1%nat = None.
Proof.
  apply (append_places_last example_height 2%nat example_tree 0%nat 1%nat []).
  - exact example_tree_acyclic.
  - exact example_tree_root.
  - intros [H|[]]. discriminate.
  - reflexivity.
  - right. apply example_tree_extractable. now left.
Defined.

Lemma nth_error_insert_before {A} (j k : nat) (l : list A) (x : A) :
  (j < k)%nat -> (k <= length l)%nat ->
  nth_error (firstn k l ++ x :: skipn k l) j = nth_error l j.
Proof.
  intros Hj Hk. rewrite nth_error_app1 by (rewrite length_firstn; lia).
  rewrite nth_error_firstn. apply Nat.ltb_lt in Hj. now rewrite Hj.
Qed.

Lemma nth_error_insert_after {A} (k : nat) (l : list A) (x : A) :
  (k <= length l)%nat ->
  nth_error (firstn k l ++ x :: skipn k l) (S k) = nth_error l k.
Proof.
  intros Hk. rewrite nth_error_app2 by (rewrite length_firstn; lia).
  rewrite length_firstn, Nat.min_l by exact Hk.
  replace (S k - k)%nat with 1%nat by lia.
  change (nth_error (x :: skipn k l) 1) with (nth_error (skipn k l) 0).
  rewrite nth_error_skipn. f_equal. lia.
Qed.

Lemma In_remove_at_other (x m : id) (l : list id) (i : nat) :
  In x l -> index_of m l = Some i -> x <> m -> In x (remove_at i l).
Proof.
  revert i. induction l as [|y l IH]; intros i Hin Hi Hx; [contradiction|].
  cbn [index_of] in Hi. destruct (Nat.eqb y m) eqn:E.
  - injection Hi as <-. apply Nat.eqb_eq in E. subst y.
    unfold remove_at. cbn. destruct Hin as [->|Hin]; [congruence|exact Hin].
  - destruct (index_of m l) as [j|]; [|discriminate]. injection Hi as <-.
    unfold remove_at. cbn [firstn skipn app].
    destruct Hin as [->|Hin]; [now left|right].
    apply (IH j); auto.
Qed.

(** X4.  After [t.insert(p, c)] with [p >= 0], on a well-formed tree whose
    tag [t] holds no child twice, the sibling links around the new child
    agree with [t.contents]: [c.next_sibling] is the child stored after [c]
    and [c.previous_sibling] the child stored before it ([None] at the
    ends), and these two neighbours point back to [c]. *)
Theorem insert_links_siblings ht N h t p c l :
  acyclic_by ht N h -> ancestors h t l -> ~ In c (t :: l) ->
  kind h t = KTag -> (parent h c = None \/ extractable h c) -> 0 <= p ->
  NoDup (contents h t) -> (parent h c <> Some t -> ~ In c (contents h t)) ->
  exists n0, forall fuel, (n0 <= fuel)%nat ->
  exists h' k, insert fuel t p (VNode c) h = (h', Ok tt) /\
    nth_error (contents h' t) k = Some c /\
    next_sibling h' c = nth_error (contents h' t) (S k) /\
    previous_sibling h' c
    = match k with O => None | S j => nth_error (contents h' t) j end /\
    (forall y, nth_error (contents h' t) (S k) = Some y ->
               previous_sibling h' y = Some c) /\
    (forall j y, k = S j -> nth_error (contents h' t) j = Some y ->
                 next_sibling h' y = Some c).
Proof.
  intros Hac Hanc Hc Kt Hex Hp Hnd Hfree.
  exists (Nat.max N (length l + 2)). intros fuel Hf.
  destruct (wp_elim _ _ _
    (insert_node_spec ht N h fuel t p c l Hac ltac:(lia) Hanc ltac:(lia) Hc Kt Hp Hex))
    as (h' & [] & Hrun & h1 & H1 & Hpost).
  pose proof (insert_position_range h t p c Hp (attached_child h c Hex)) as Hrange.
  set (pos := insert_position h t p c) in *.
  assert (E1 : contents h1 t = contents_without h c t).
  { unfold contents_without.
    destruct H1 as [[-> ->]|[Hn H1]]; [reflexivity|].
    now destruct H1 as (_ & _ & _ & _ & _ & -> & _). }
  assert (Hnot : ~ In c (contents h1 t)).
  { rewrite E1. unfold contents_without.
    destruct (parent h c) as [q|] eqn:Ep; [|apply Hfree; discriminate].
    destruct (index_of c (contents h q)) as [i|] eqn:Ei.
    - unfold upd. destruct (Nat.eqb t q) eqn:E.
      + apply Nat.eqb_eq in E. subst q.
        apply NoDup_remove_at; [exact Hnd|]. now apply index_of_Some.
      + apply Hfree. apply Nat.eqb_neq in E. congruence.
    - destruct Hex as [Hex|Hex]; [congruence|].
      destruct (proj1 Hex q Ep) as [_ Hin].
      destruct (index_of_In _ _ Hin) as [i Hi]. congruence. }
  rewrite <- E1 in Hrange.
  set (L := contents h1 t) in *.
  exists h', (Z.to_nat pos). split; [exact Hrun|].
  destruct Hpost as (_ & _ & _ & _ & _ & Ec & _ & Ens & Eps & _).
  assert (EL : contents h' t = firstn (Z.to_nat pos) L ++ c :: skipn (Z.to_nat pos) L).
  { rewrite Ec, upd_same. now apply py_insert_in_range. }
  assert (Enext : next_child_of h1 t pos = nth_error L (Z.to_nat pos)).
  { unfold next_child_of. fold L. destruct (pos >=? _) eqn:E.
    - symmetry. apply nth_error_None. lia.
    - apply py_nth_in_range. lia. }
  assert (Eprev : previous_child_of h1 t pos
                  = match Z.to_nat pos with
                    | O => None
                    | S j => nth_error L j
                    end).
  { unfold previous_child_of. fold L. destruct (pos =? 0) eqn:E.
    - apply Z.eqb_eq in E. now rewrite E.
    - apply Z.eqb_neq in E. rewrite py_nth_in_range by lia.
      destruct (Z.to_nat pos) as [|j] eqn:Ej; [lia|].
      f_equal. lia. }
  assert (Hafter : nth_error (contents h' t) (S (Z.to_nat pos))
                   = nth_error L (Z.to_nat pos)).
  { rewrite EL. apply nth_error_insert_after. lia. }
  rewrite Hafter, Ens, Eps. cbv zeta. rewrite Enext, Eprev.
  split; [rewrite EL; apply nth_error_insert_at; lia|].
  split; [apply upd_same|].
  split.
  { destruct (nth_error L (Z.to_nat pos)) as [nc|] eqn:En.
    - rewrite upd_other.
      + rewrite upd_same. destruct (Z.to_nat pos) as [|j] eqn:Ej; [reflexivity|].
        rewrite EL. symmetry. apply nth_error_insert_before; lia.
      + intros ->. apply Hnot. eapply nth_error_In; eassumption.
    - rewrite upd_same. destruct (Z.to_nat pos) as [|j] eqn:Ej; [reflexivity|].
      rewrite EL. symmetry. apply nth_error_insert_before; lia. }
  split.
  { intros y Hy. rewrite Hy. apply upd_same. }
  intros j y Ej Hy. rewrite Ej.
  assert (Hy' : nth_error L j = Some y).
  { rewrite EL in Hy. rewrite nth_error_insert_before in Hy by lia. exact Hy. }
  rewrite Hy'. rewrite upd_other.
  - apply upd_same.
  - intros ->. apply Hnot. eapply nth_error_In; eassumption.
Qed.

(** [insert_links_siblings] at a concrete input. *)
Lemma insert_links_siblings_witness :
  exists n0, forall fuel, (n0 <= fuel)%nat ->
  exists h' k, insert fuel 0%nat 1 (VNode 3%nat) example_tree = (h', Ok tt) /\
    nth_error (contents h' 0%nat) k = Some 3%nat /\
    next_sibling h' 3%nat = nth_error (contents h' 0%nat) (S k) /\
    previous_sibling h' 3%nat
    = match k with O => None | S j => nth_error (contents h' 0%nat) j end /\
    (forall y, nth_error (contents h' 0%nat) (S k) = Some y ->
               previous_sibling h' y = Some 3%nat) /\
    (forall j y, k = S j -> nth_error (contents h' 0%nat) j = Some y ->
                 next_sibling h' y = Some 3%nat).
Proof.
  apply (insert_links_siblings example_height 2%nat example_tree 0%nat 1 3%nat []).
  - exact example_tree_acyclic.
  - exact example_tree_root.
  - intros [H|[]]. discriminate.
  - reflexivity.
  - left. reflexivity.
  - lia.
  - vm_compute. repeat constructor; intros H; cbn in H; intuition discriminate.
  - intros _. vm_compute. intuition discriminate.
Defined.

(** The two calls [extract] and [insert] that end [insert_before] and
    [insert_after]: [m] is detached and stored at the index of [n] plus
    [d]. *)
Lemma insert_beside_spec ht N h fuel n q m l (d : nat) (k : nat -> M unit) :
  acyclic_by ht N h -> (N <= fuel)%nat -> ancestors h q l ->
  (length l + 1 < fuel)%nat ->
  kind h q = KTag -> In n (contents h q) -> m <> n -> ~ In m (q :: l) ->
  extractable h m -> (d <= 1)%nat ->
  (forall i, k i = insert fuel q (Z.of_nat (i + d)) (VNode m)) ->
  wp (match VNode m with
      | VNode m' => extract fuel m' ;;; ret tt
      | _ => ret tt
      end ;;;
      i <- index q n ;; k i)
     (fun _ h' => exists L i,
        nth_error L i = Some n /\ (i < length L)%nat /\
        contents h' q = firstn (i + d) L ++ m :: skipn (i + d) L /\
        parent h' m = Some q) h.
Proof.
  intros Hac Hf Hanc Hfl Kq Hin Hmn Hm Hex Hd Hk.
  wp_steps.
  eapply wp_conseq; [apply (extract_spec ht N); eassumption|].
  cbv beta. intros r h1 [-> Hpost]. wp_steps.
  pose proof Hpost as (Ek & _ & _ & _ & _ & Ec & Epar & _).
  assert (Hin1 : In n (contents h1 q)).
  { rewrite Ec. unfold contents_without.
    destruct (parent h m) as [q'|] eqn:Ep; [|exact Hin].
    destruct (index_of m (contents h q')) as [j|] eqn:Ej; [|exact Hin].
    unfold upd. destruct (Nat.eqb q q') eqn:E; [|exact Hin].
    apply Nat.eqb_eq in E. subst q'. eapply In_remove_at_other; eauto. }
  destruct (index_of_In _ _ Hin1) as [i Hi].
  destruct (index_of_Some _ _ _ Hi) as [Hnth Hlt].
  apply (wp_index q n i); [now rewrite Ek|exact Hi|]. rewrite Hk.
  destruct (ancestors_detach h h1 q l m Epar Hanc) as (l' & Hanc' & Hlen & Hsub).
  assert (Hpm : parent h1 m = None) by (rewrite Epar; apply upd_same).
  eapply wp_conseq.
  { apply (insert_node_spec ht N h1 fuel q (Z.of_nat (i + d)) m l').
    - eapply acyclic_without; eassumption.
    - exact Hf.
    - exact Hanc'.
    - lia.
    - intros [->|Hy]; [apply Hm; now left|]. apply Hm. right. now apply Hsub.
    - now rewrite Ek.
    - lia.
    - now left. }
  cbv beta. intros _ h2 (h1' & H1 & H2).
  destruct H1 as [[-> _]|[Hn _]]; [|congruence].
  unfold insert_position in H2. rewrite Hpm in H2.
  rewrite Z.min_l in H2 by lia.
  destruct H2 as (_ & _ & _ & _ & _ & Ec2 & Ep2 & _).
  exists (contents h1 q), i. split; [exact Hnth|]. split; [exact Hlt|].
  rewrite Ec2, Ep2, !upd_same. split; [|reflexivity].
  rewrite py_insert_in_range by lia. now rewrite Nat2Z.id.
Qed.

(** X5.  On a well-formed tree, [n.insert_before(m)] for a node [m] other
    than [n] that is neither the parent of [n] nor an ancestor of it
    returns, and [m] is then stored immediately before [n] among the
    children of the parent of [n], with that parent as [m.parent]. *)
Theorem insert_before_places_before ht N h n q m l :
  acyclic_by ht N h -> ancestors h q l -> parent h n = Some q ->
  kind h q = KTag -> In n (contents h q) -> m <> n -> ~ In m (q :: l) ->
  extractable h m ->
  exists n0, forall fuel, (n0 <= fuel)%nat ->
  exists h' i, insert_before fuel n (VNode m) h = (h', Ok tt) /\
    nth_error (contents h' q) i = Some m /\
    nth_error (contents h' q) (S i) = Some n /\
    parent h' m = Some q.
Proof.
  intros Hac Hanc Hp Kq Hin Hmn Hm Hex.
  exists (Nat.max N (length l + 2)). intros fuel Hf.
  assert (H : wp (insert_before fuel n (VNode m))
                (fun _ h' => exists L i,
                   nth_error L i = Some n /\ (i < length L)%nat /\
                   contents h' q = firstn (i + 0) L ++ m :: skipn (i + 0) L /\
                   parent h' m = Some q) h).
  { unfold insert_before. apply Nat.eqb_neq in Hmn. rewrite Hmn.
    apply Nat.eqb_neq in Hmn. wp_steps. rewrite Hp.
    apply (insert_beside_spec ht N h fuel n q m l 0); try assumption; try lia.
    intros i. now rewrite Nat.add_0_r. }
  destruct (wp_elim _ _ _ H) as (h' & [] & Hrun & L & i & Hnth & Hlt & Ec & Epar).
  exists h', i. split; [exact Hrun|]. rewrite Ec, Nat.add_0_r.
  split; [apply nth_error_insert_at; lia|].
  split; [|exact Epar]. rewrite nth_error_insert_after by lia. exact Hnth.
Qed.

(** [insert_before_places_before] at a concrete input. *)
Lemma insert_before_places_before_witness :
  exists n0, forall fuel, (n0 <= fuel)%nat ->
  exists h' i, insert_before fuel 1%nat (VNode 2%nat) example_tree = (h', Ok tt) /\
    nth_error (contents h' 0%nat) i = Some 2%nat /\
    nth_error (contents h' 0%nat) (S i) = Some 1%nat /\
    parent h' 2%nat = Some 0%nat.
Proof.
  apply (insert_before_places_before example_height 2%nat example_tree
           1%nat 0%nat 2%nat []).
  - exact example_tree_acyclic.
  - exact example_tree_root.
  - reflexivity.
  - reflexivity.
  - vm_compute. now left.
  - discriminate.
  - intros [H|[]]. discriminate.
  - apply example_tree_extractable. now right.
Defined.

(** X6.  On a well-formed tree, [n.insert_after(m)] for a node [m] other
    than [n] that is neither the parent of [n] nor an ancestor of it
    returns, and [m] is then stored immediately after [n] among the
    children of the parent of [n], with that parent as [m.parent]. *)
Theorem insert_after_places_after ht N h n q m l :
  acyclic_by ht N h -> ancestors h q l -> parent h n = Some q ->
  kind h q = KTag -> In n (contents h q) -> m <> n -> ~ In m (q :: l) ->
  extractable h m ->
  exists n0, forall fuel, (n0 <= fuel)%nat ->
  exists h' i, insert_after fuel n (VNode m) h = (h', Ok tt) /\
    nth_error (contents h' q) i = Some n /\
    nth_error (contents h' q) (S i) = Some m /\
    parent h' m = Some q.
Proof.
  intros Hac Hanc Hp Kq Hin Hmn Hm Hex.
  exists (Nat.max N (length l + 2)). intros fuel Hf.
  assert (H : wp (insert_after fuel n (VNode m))
                (fun _ h' => exists L i,
                   nth_error L i = Some n /\ (i < length L)%nat /\
                   contents h' q = firstn (i + 1) L ++ m :: skipn (i + 1) L /\
                   parent h' m = Some q) h).
  { unfold insert_after. apply Nat.eqb_neq in Hmn. rewrite Hmn.
    apply Nat.eqb_neq in Hmn. wp_steps. rewrite Hp.
    apply (insert_beside_spec ht N h fuel n q m l 1); try assumption; try lia.
    intros i. f_equal. lia. }
  destruct (wp_elim _ _ _ H) as (h' & [] & Hrun & L & i & Hnth & Hlt & Ec & Epar).
  exists h', i. split; [exact Hrun|]. rewrite Ec.
  split; [rewrite nth_error_insert_before by lia; exact Hnth|].
  split; [|exact Epar]. replace (S i) with (i + 1)%nat by lia.
  apply nth_error_insert_at. lia.
Qed.

(** [insert_after_places_after] at a concrete input. *)
Lemma insert_after_places_after_witness :
  exists n0, forall fuel, (n0 <= fuel)%nat ->
  exists h' i, insert_after fuel 2%nat (VNode 1%nat) example_tree = (h', Ok tt) /\
    nth_error (contents h' 0%nat) i = Some 2%nat /\
    nth_error (contents h' 0%nat) (S i) = Some 1%nat /\
    parent h' 1%nat = Some 0%nat.
Proof.
  apply (insert_after_places_after example_height 2%nat example_tree
           2%nat 0%nat 1%nat []).
  - exact example_tree_acyclic.
  - exact example_tree_root.
  - reflexivity.
  - reflexivity.
  - vm_compute. right. now left.
  - discriminate.
  - intros [H|[]]. discriminate.
  - apply example_tree_extractable. now left.
Defined.

Lemma insert_detached_run fuel h t p c :
  c <> t -> kind h t = KTag -> parent h c = None ->
  insert fuel t p (VNode c) h
  = insert_links fuel t (Z.min p (Z.of_nat (length (contents h t)))) c h.
Proof.
  intros Hct Kt Pc. unfold insert. apply Nat.eqb_neq in Hct. rewrite Hct.
  rewrite (bind_ok _ _ h h tt) by reflexivity.
  rewrite (bind_ok _ _ h h (VNode c)) by reflexivity.
  rewrite (bind_ok _ _ h h (contents h t))
    by (unfold get_contents; now rewrite Kt).
  rewrite (bind_ok _ _ h h None) by (unfold read; now rewrite Pc).
  rewrite (bind_ok _ _ h h (Z.min p (Z.of_nat (length (contents h t)))))
    by reflexivity.
  reflexivity.
Qed.

(** X7.  For a detached node [c] and a negative position [p] with
    [-len(t.contents) < p < 0], [t.insert(p, c)] returns and stores [c] at
    index [len(t.contents) + p], as [list.insert] does: a negative position
    counts from the end. *)
Theorem insert_negative_position_counts_from_end ht N h t p c l :
  acyclic_by ht N h -> ancestors h t l -> ~ In c (t :: l) ->
  kind h t = KTag -> parent h c = None ->
  - Z.of_nat (length (contents h t)) < p < 0 ->
  exists n0, forall fuel, (n0 <= fuel)%nat ->
  exists h', insert fuel t p (VNode c) h = (h', Ok tt) /\
    let k := (length (contents h t) - Z.to_nat (- p))%nat in
    contents h' t = firstn k (contents h t) ++ c :: skipn k (contents h t) /\
    parent h' c = Some t.
Proof.
  intros Hac Hanc Hc Kt Pc Hp.
  exists (Nat.max N (length l + 2)). intros fuel Hf.
  assert (Hct : c <> t) by (intros ->; apply Hc; now left).
  rewrite (insert_detached_run fuel h t p c Hct Kt Pc).
  rewrite Z.min_l by lia.
  destruct (wp_elim _ _ _
    (insert_links_spec ht N h fuel t p c l Hac ltac:(lia) Hanc ltac:(lia) Hc Kt
       ltac:(unfold linkable; lia)))
    as (h' & [] & Hrun & _ & _ & _ & _ & _ & Ec & Ep & _).
  exists h'. split; [exact Hrun|]. cbv zeta.
  rewrite Ec, Ep, !upd_same. split; [|reflexivity].
  unfold py_insert. destruct (p <? 0) eqn:E; [|apply Z.ltb_ge in E; lia].
  replace (Z.to_nat (Z.max 0 (Z.of_nat (length (contents h t)) + p)))
    with (length (contents h t) - Z.to_nat (- p))%nat by lia.
  reflexivity.
Qed.

(** [insert_negative_position_counts_from_end] at a concrete input. *)
Lemma insert_negative_position_counts_from_end_witness :
  exists n0, forall fuel, (n0 <= fuel)%nat ->
  exists h', insert fuel 0%nat (-1) (VNode 3%nat) example_tree = (h', Ok tt) /\
    let k := (length (contents example_tree 0%nat) - Z.to_nat (- -1))%nat in
    contents h' 0%nat
    = firstn k (contents example_tree 0%nat)
        ++ 3%nat :: skipn k (contents example_tree 0%nat) /\
    parent h' 3%nat = Some 0%nat.
Proof.
  apply (insert_negative_position_counts_from_end example_height 2%nat example_tree
           0%nat (-1) 3%nat []).
  - exact example_tree_acyclic.
  - exact example_tree_root.
  - intros [H|[]]. discriminate.
  - reflexivity.
  - reflexivity.
  - vm_compute. split; reflexivity.
Defined.

(** X8.  For a detached node [c] other than [t] and a negative position
    [p <= -len(t.contents)], [t.insert(p, c)] raises [IndexError] at
    [self.contents[position - 1]], after [new_child.parent = self] has been
    done: the store after the error differs from the one before in the
    parent of [c] and in nothing else. *)
Theorem insert_out_of_range_sets_parent_then_raises fuel h t p c :
  kind h t = KTag -> c <> t -> parent h c = None ->
  p < 0 -> p <= - Z.of_nat (length (contents h t)) ->
  insert fuel t p (VNode c) h = (set_parent c (Some t) h, Raise IndexError).
Proof.
  intros Kt Hct Pc Hp Hle.
  rewrite (insert_detached_run fuel h t p c Hct Kt Pc).
  rewrite Z.min_l by lia.
  apply insert_links_index_error; [assumption|lia|assumption].
Qed.

(** [insert_out_of_range_sets_parent_then_raises] at a concrete input. *)
Lemma insert_out_of_range_sets_parent_then_raises_witness :
  insert 8 0%nat (-5) (VNode 3%nat) example_tree
  = (set_parent 3%nat (Some 0%nat) example_tree, Raise IndexError).
Proof.
  apply (insert_out_of_range_sets_parent_then_raises 8 example_tree 0%nat (-5) 3%nat).
  - reflexivity.
  - discriminate.
  - reflexivity.
  - lia.
  - vm_compute. discriminate.
Defined.

(** X9.  [insert] rejects a child that is the tag itself and nothing
    else.  For a tag [t] without a next sibling whose parent [a] is the root
    of a well-formed tree, [t.append(a)] raises nothing and does not return:
    once [a.parent] is [t], the loop of lines 368-375 walks up from [t] to
    [a] to [t] without end, whatever the fuel. *)
Theorem append_of_parent_never_returns ht N h t a :
  acyclic_by ht N h -> kind h t = KTag ->
  parent h t = Some a -> parent h a = None -> next_sibling h t = None ->
  exists n0, forall fuel, (n0 <= fuel)%nat ->
    snd (append fuel t (VNode a) h) = OutOfFuel.
Proof.
  intros Hac Kt Pt Pa Nt. exists N. intros fuel Hf.
  assert (Hta : a <> t) by congruence.
  set (len := Z.of_nat (length (contents h t))).
  assert (Hlink : linkable (contents h t) len)
    by (apply linkable_index; unfold len; lia).
  assert (Hlp := link_previous_spec ht N h fuel t len a Hac Hf Kt Hlink).
  destruct (wp_elim _ _ _ Hlp) as (h1 & [] & Hrun1 & Hpost).
  destruct Hpost as (Ek & _ & _ & _ & _ & Ec & Ep & _ & Ens).
  destruct (last_descendant_walk_total ht N fuel h1 a
              (acyclic_shape ht N h h1 Ek Ec Hac) Hf) as [ld Hld].
  assert (Nt1 : next_sibling h1 t = None).
  { rewrite Ens. destruct (previous_child_of h t len) as [pc|] eqn:Epc; [|exact Nt].
    rewrite upd_other; [exact Nt|]. intros ->.
    apply (acyclic_irrefl ht N h pc Hac Kt).
    unfold previous_child_of in Epc. destruct (len =? 0); [discriminate|].
    eapply py_nth_In; eassumption. }
  assert (Hgc : forall h0, kind h0 t = KTag ->
                  get_contents t h0 = (h0, Ok (contents h0 t))).
  { intros h0 K0. unfold get_contents. now rewrite K0. }
  unfold append. rewrite (bind_ok _ _ _ _ _ (Hgc h Kt)).
  unfold insert. apply Nat.eqb_neq in Hta. rewrite Hta.
  rewrite (bind_ok _ _ h h tt eq_refl).
  rewrite (bind_ok _ _ h h (VNode a) eq_refl).
  rewrite (bind_ok _ _ _ _ _ (Hgc h Kt)).
  rewrite (bind_ok _ _ h h (parent h a) eq_refl).
  rewrite Pa. fold len. rewrite Z.min_id.
  rewrite (bind_ok _ _ h h len eq_refl).
  unfold insert_links.
  rewrite (bind_ok _ _ _ _ _ Hrun1).
  unfold link_next.
  rewrite (bind_ok _ _ h1 h1 (Some ld)) by (unfold pure_call; now rewrite Hld).
  rewrite (bind_ok _ _ h1 h1 ld eq_refl).
  rewrite (bind_ok _ _ _ _ _ (Hgc h1 ltac:(now rewrite Ek))).
  rewrite Ec. fold len. destruct (len >=? len) eqn:E; [|lia].
  set (h2 := set_next_sibling a None h1).
  assert (Hclimb : climb fuel h2 (Some t) = OutOfFuel).
  { assert (Hat : (t =? a)%nat = false) by (rewrite Nat.eqb_sym; exact Hta).
    apply (climb_round fuel h2 t a); cbn.
    - rewrite Ep. unfold upd. now rewrite Hat.
    - rewrite Ep. unfold upd. now rewrite Nat.eqb_refl.
    - unfold upd. now rewrite Hat.
    - unfold upd. now rewrite Nat.eqb_refl. }
  unfold bind, write, pure_call. fold h2. now rewrite Hclimb.
Qed.

(** [append_of_parent_never_returns] at a concrete input. *)
Lemma append_of_parent_never_returns_witness :
  exists n0, forall fuel, (n0 <= fuel)%nat ->
    snd (append fuel 2%nat (VNode 0%nat) example_tree) = OutOfFuel.
Proof.
  apply (append_of_parent_never_returns example_height 2%nat example_tree 2%nat 0%nat).
  - exact example_tree_acyclic.
  - reflexivity.
  - reflexivity.
  - reflexivity.
  - reflexivity.
Defined.

(** X10.  On a well-formed tree, [unwrap] on an attached tag without
    children returns the tag and removes it: the children of its parent
    lose the entry at its index, and its parent becomes [None]. *)
Theorem unwrap_childless_tag_removes_it ht N h n q :
  acyclic_by ht N h -> parent h n = Some q -> extractable h n ->
  kind h n = KTag -> contents h n = [] ->
  exists n0, forall fuel, (n0 <= fuel)%nat ->
  exists h' i, unwrap fuel n h = (h', Ok n) /\
    index_of n (contents h q) = Some i /\
    contents h' q = remove_at i (contents h q) /\
    parent h' n = None.
Proof.
  intros Hac Hp Hex Kn Cn. exists N. intros fuel Hf.
  destruct (proj1 Hex q Hp) as [Kq Hin].
  destruct (index_of_In _ _ Hin) as [i Hi].
  assert (Hqn : q <> n).
  { intros ->. now apply (acyclic_irrefl ht N h n Hac Kn). }
  assert (H : wp (unwrap fuel n)
                (fun r h' => r = n /\ contents h' q = remove_at i (contents h q)
                             /\ parent h' n = None) h).
  { unfold unwrap. wp_steps. rewrite Hp.
    unfold pure_call. eapply wp_intro; [reflexivity|].
    cbn [opt_truthy]. unfold truthy. rewrite Kq. cbn [negb].
    wp_steps. apply (wp_index q n i); [assumption..|]. wp_steps.
    eapply wp_conseq; [apply (extract_spec ht N); eassumption|].
    cbv beta. intros r h1 [-> (Ek & _ & _ & _ & _ & Ec & Epar & _)]. wp_steps.
    assert (Cn1 : contents h1 n = []).
    { rewrite Ec. unfold contents_without. rewrite Hp, Hi.
      rewrite upd_other by congruence. exact Cn. }
    apply wp_get_contents; [now rewrite Ek|]. rewrite Cn1. cbn [rev for_each].
    wp_steps. split; [reflexivity|]. rewrite Ec, Epar. unfold contents_without.
    rewrite Hp, Hi, !upd_same. split; reflexivity. }
  destruct (wp_elim _ _ _ H) as (h' & r & Hrun & -> & Hc & Hpar).
  exists h', i. repeat split; assumption.
Qed.

(** [unwrap_childless_tag_removes_it] at a concrete input. *)
Lemma unwrap_childless_tag_removes_it_witness :
  exists n0, forall fuel, (n0 <= fuel)%nat ->
  exists h' i, unwrap fuel 1%nat example_tree = (h', Ok 1%nat) /\
    index_of 1%nat (contents example_tree 0%nat) = Some i /\
    contents h' 0%nat = remove_at i (contents example_tree 0%nat) /\
    parent h' 1%nat = None.
Proof.
  apply (unwrap_childless_tag_removes_it example_height 2%nat example_tree 1%nat 0%nat).
  - exact example_tree_acyclic.
  - reflexivity.
  - apply example_tree_extractable. now left.
  - reflexivity.
  - reflexivity.
Defined.

(** X11.  On a well-formed tree, [n.wrap(c)] with a detached container
    [c] that has no children returns [c]; [c] then stands at the index that
    [n] had among the children of its parent, every other entry of that
    list is where it was, and [n] is the only child of [c]. *)
Theorem wrap_places_container ht N h n q c l :
  acyclic_by ht N h -> ancestors h q l -> parent h n = Some q ->
  ~ In n (q :: l) -> ~ In c (n :: q :: l) ->
  kind h q = KTag -> extractable h n -> NoDup (contents h q) ->
  kind h c = KTag -> contents h c = [] -> parent h c = None ->
  (forall x, kind h x = KTag -> ~ In c (contents h x)) ->
  exists n0, forall fuel, (n0 <= fuel)%nat ->
  exists h' i, wrap fuel n (VNode c) h = (h', Ok (VNode c)) /\
    index_of n (contents h q) = Some i /\
    nth_error (contents h' q) i = Some c /\
    length (contents h' q) = length (contents h q) /\
    (forall j, j <> i -> nth_error (contents h' q) j = nth_error (contents h q) j) /\
    contents h' c = [n].
Proof.
  intros Hac Hanc Hpn Hn Hc Kq Hex Hnd Kc Cc Pc Hfree.
  destruct (index_of_In n (contents h q) (proj2 (proj1 Hex q Hpn))) as [i Hi].
  exists (Nat.max (2 * N + 2) (length l + 4)). intros fuel Hf.
  assert (Hw1 : wp (wrap fuel n (VNode c))
                  (fun r h3 => r = VNode c /\ wrapped h n q c i h3) h).
  { eapply wrap_spec with (ht := ht) (N := N) (l := l); eauto; lia. }
  destruct (wp_elim _ _ _ Hw1) as (h1 & r1 & Hrun1 & -> & Hw).
  exists h1, i. split; [exact Hrun1|]. split; [exact Hi|].
  destruct Hw as (_ & Ec & Ecc & _).
  destruct (index_of_Some _ _ _ Hi) as [Hnth Hlt].
  set (L := remove_at i (contents h q)) in *.
  assert (HL : (i <= length L)%nat) by (unfold L; rewrite length_remove_at; lia).
  assert (EL : contents h q = firstn i L ++ n :: skipn i L).
  { symmetry. now apply insert_remove_at. }
  rewrite Ec. split; [now apply nth_error_insert_at|].
  rewrite EL. clearbody L. clear EL.
  split.
  { rewrite !length_app. cbn [length]. reflexivity. }
  split; [|exact Ecc].
  intros j Hj.
  destruct (Nat.lt_ge_cases j i) as [Hlt'|Hge].
  - rewrite !nth_error_app1 by (rewrite length_firstn; lia). reflexivity.
  - rewrite !nth_error_app2 by (rewrite length_firstn; lia).
    rewrite length_firstn, Nat.min_l by exact HL.
    destruct (j - i)%nat as [|k] eqn:E; [lia|]. reflexivity.
Qed.

(** [wrap_places_container] at a concrete input. *)
Lemma wrap_places_container_witness :
  exists n0, forall fuel, (n0 <= fuel)%nat ->
  exists h' i, wrap fuel 2%nat (VNode 3%nat) example_tree = (h', Ok (VNode 3%nat)) /\
    index_of 2%nat (contents example_tree 0%nat) = Some i /\
    nth_error (contents h' 0%nat) i = Some 3%nat /\
    length (contents h' 0%nat) = length (contents example_tree 0%nat) /\
    (forall j, j <> i ->
       nth_error (contents h' 0%nat) j = nth_error (contents example_tree 0%nat) j) /\
    contents h' 3%nat = [2%nat].
Proof.
  apply (wrap_places_container example_height 2%nat example_tree
           2%nat 0%nat 3%nat []).
  - exact example_tree_acyclic.
  - exact example_tree_root.
  - reflexivity.
  - intros [H|[]]. discriminate.
  - intros [H|[H|[]]]; discriminate.
  - reflexivity.
  - apply example_tree_extractable. now right.
  - vm_compute. repeat constructor; cbn; intuition discriminate.
  - reflexivity.
  - reflexivity.
  - reflexivity.
  - intros x _.
    do 6 (destruct x as [|x]; [vm_compute; intuition discriminate|]).
    vm_compute. tauto.
Defined.

Lemma index_of_first (x : id) (l : list id) (i : nat) :
  index_of x l = Some i ->
  forall j, (j < i)%nat -> nth_error l j <> Some x.
Proof.
  revert i. induction l as [|y l IH]; intros i Hi j Hj; [discriminate|].
  cbn [index_of] in Hi. destruct (Nat.eqb y x) eqn:E.
  - injection Hi as <-. lia.
  - destruct (index_of x l) as [k|]; [|discriminate]. injection Hi as <-.
    destruct j as [|j]; cbn [nth_error].
    + apply Nat.eqb_neq in E. congruence.
    + apply (IH k eq_refl). lia.
Qed.

(** X12.  [Tag.index] changes nothing.  For an element that the tag
    holds it returns the first index at which this very node is stored;
    for any other element it raises [ValueError]. *)
Theorem index_by_identity (h : heap) (t x : id) :
  kind h t = KTag ->
  (In x (contents h t) ->
   exists i, index t x h = (h, Ok i) /\
     nth_error (contents h t) i = Some x /\
     forall j, (j < i)%nat -> nth_error (contents h t) j <> Some x) /\
  (~ In x (contents h t) ->
   index t x h = (h, Raise (ValueError "Tag.index: element not in tag"))).
Proof.
  intros Kt. unfold index. rewrite Kt. split.
  - intros Hin. destruct (index_of_In _ _ Hin) as [i Hi]. rewrite Hi.
    exists i. split; [reflexivity|]. split; [now apply index_of_Some|].
    now apply index_of_first.
  - intros Hn. now rewrite (index_of_not_In _ _ Hn).
Qed.

(** [index_by_identity] at a concrete input. *)
Lemma index_by_identity_witness :
  (exists i, index 0%nat 2%nat example_tree = (example_tree, Ok i) /\
     nth_error (contents example_tree 0%nat) i = Some 2%nat /\
     forall j, (j < i)%nat -> nth_error (contents example_tree 0%nat) j <> Some 2%nat) /\
  index 0%nat 3%nat example_tree
  = (example_tree, Raise (ValueError "Tag.index: element not in tag")).
Proof.
  split.
  - apply (proj1 (index_by_identity example_tree 0%nat 2%nat eq_refl)).
    vm_compute. tauto.
  - apply (proj2 (index_by_identity example_tree 0%nat 3%nat eq_refl)).
    vm_compute. intuition discriminate.
Defined.

Lemma last_app_r {A} (l1 l2 : list A) (d : A) :
  l2 <> [] -> last (l1 ++ l2) d = last l2 d.
Proof.
  intros Hl. induction l1 as [|a l1 IH]; [reflexivity|].
  cbn [app last]. destruct (l1 ++ l2) eqn:E; [|exact IH].
  apply app_eq_nil in E. tauto.
Qed.

Lemma nth_error_last {A} (l : list A) (d : A) :
  l <> [] -> nth_error l (length l - 1) = Some (last l d).
Proof.
  induction l as [|a l IH]; [congruence|]. intros _.
  destruct l as [|b l]; [reflexivity|].
  cbn [length] in *. replace (S (S (length l)) - 1)%nat with (S (S (length l) - 1)) by lia.
  cbn [nth_error]. rewrite IH by discriminate. reflexivity.
Qed.

Lemma py_nth_last {A} (l : list A) (d : A) :
  l <> [] -> py_nth l (-1) = Some (last l d).
Proof.
  intros Hl. rewrite <- (nth_error_last l d Hl). unfold py_nth.
  assert (Hlen : (0 < length l)%nat) by (destruct l; [congruence|cbn; lia]).
  destruct (_ && _) eqn:E; [apply andb_prop in E; lia|].
  destruct ((- Z.of_nat (length l) <=? -1) && (-1 <? 0)) eqn:E2.
  - f_equal. lia.
  - apply andb_false_iff in E2.
    destruct E2 as [E2|E2]; [apply Z.leb_gt in E2|apply Z.ltb_ge in E2]; lia.
Qed.

Lemma last_cons_flat_map {A B} (g : A -> list B) (l : list A) (x d : B) (a : A) :
  l <> [] -> g (last l a) <> [] ->
  last (x :: flat_map g l) d = last (g (last l a)) d.
Proof.
  intros Hl Hg.
  rewrite (app_removelast_last a Hl) at 1.
  rewrite flat_map_app. cbn [flat_map]. rewrite app_nil_r.
  change (x :: ?u ++ ?v) with ((x :: u) ++ v).
  now apply last_app_r.
Qed.

Lemma pre_order_head fuel h x : pre_order (S fuel) h x <> [].
Proof. cbn [pre_order]. discriminate. Qed.

Lemma last_default {A} (l : list A) (d d' : A) :
  l <> [] -> last l d = last l d'.
Proof.
  induction l as [|a l IH]; [congruence|]. intros _.
  destruct l as [|b l]; [reflexivity|]. cbn [last] in *. apply IH. discriminate.
Qed.

(** X13.  On a well-formed tree, [_last_descendant(False)] returns the
    last node of the subtree in pre-order, as read off [contents]: the node
    itself when it has no children. *)
Theorem last_descendant_is_last_in_pre_order ht N h x :
  acyclic_by ht N h ->
  exists n0, forall fuel, (n0 <= fuel)%nat ->
    _last_descendant fuel x false true h = Ok (Some (last (pre_order fuel h x) x)).
Proof.
  intros [Hb Hac]. exists N. intros fuel Hf.
  assert (H : forall f y, (ht y < f)%nat ->
                descend f h y = Ok (last (pre_order f h y) y)).
  { induction f as [|f IH]; intros y Hy; [lia|].
    cbn [descend pre_order]. destruct (kind h y) eqn:K; [|reflexivity].
    destruct (contents h y) as [|c0 l0] eqn:Ec; [reflexivity|].
    assert (Hne : c0 :: l0 <> []) by discriminate.
    rewrite (py_nth_last _ y Hne).
    assert (Hin : In (last (c0 :: l0) y) (contents h y)).
    { rewrite Ec. destruct (exists_last Hne) as (l' & a & E). rewrite E.
      rewrite last_last. apply in_or_app. right. now left. }
    pose proof (Hac y _ K Hin) as Hlt.
    rewrite IH by lia.
    destruct f as [|f]; [lia|].
    rewrite (last_cons_flat_map _ _ _ _ y Hne) by apply pre_order_head.
    apply f_equal. apply last_default. apply pre_order_head. }
  unfold _last_descendant. cbn [andb rbind negb].
  rewrite H by (specialize (Hb x); lia). reflexivity.
Qed.

(** [last_descendant_is_last_in_pre_order] at a concrete input. *)
Lemma last_descendant_is_last_in_pre_order_witness :
  exists n0, forall fuel, (n0 <= fuel)%nat ->
    _last_descendant fuel 4%nat false true example_tree
    = Ok (Some (last (pre_order fuel example_tree 4%nat) 4%nat)).
Proof.
  apply (last_descendant_is_last_in_pre_order example_height 2%nat example_tree 4%nat).
  exact example_tree_acyclic.
Defined.

(** ** Attributes and the single string of a tag *)

Lemma attr_lookup_dict_set_same key value d :
  attr_lookup key (dict_set key value d) = Some value.
Proof.
  induction d as [|[k v] d IH]; cbn [dict_set attr_lookup].
  - now rewrite String.eqb_refl.
  - destruct (String.eqb k key) eqn:E; cbn [attr_lookup]; rewrite E; auto.
Qed.

Lemma attr_lookup_dict_set_other key key' value d :
  key' <> key -> attr_lookup key' (dict_set key value d) = attr_lookup key' d.
Proof.
  intros Hk. induction d as [|[k v] d IH]; cbn [dict_set attr_lookup].
  - apply String.eqb_neq in Hk. rewrite String.eqb_sym in Hk. now rewrite Hk.
  - destruct (String.eqb k key) eqn:E; cbn [attr_lookup].
    + apply String.eqb_eq in E. subst k.
      apply String.eqb_neq in Hk. rewrite String.eqb_sym in Hk. now rewrite Hk.
    + now rewrite IH.
Qed.

Lemma attr_lookup_not_in key d :
  ~ In key (map fst d) -> attr_lookup key d = None.
Proof.
  induction d as [|[k v] d IH]; [reflexivity|]. cbn [map fst In attr_lookup].
  intros H. destruct (String.eqb k key) eqn:E.
  - apply String.eqb_eq in E. tauto.
  - apply IH. tauto.
Qed.

Lemma attr_lookup_dict_pop_same key d :
  NoDup (map fst d) -> attr_lookup key (dict_pop key d) = None.
Proof.
  induction d as [|[k v] d IH]; [reflexivity|]. cbn [map fst dict_pop].
  intros Hnd. inversion Hnd as [|? ? Hk Hnd']; subst.
  destruct (String.eqb k key) eqn:E.
  - apply String.eqb_eq in E. subst k. now apply attr_lookup_not_in.
  - cbn [attr_lookup]. rewrite E. now apply IH.
Qed.

Lemma attr_lookup_dict_pop_other key key' d :
  key' <> key -> attr_lookup key' (dict_pop key d) = attr_lookup key' d.
Proof.
  intros Hk. induction d as [|[k v] d IH]; [reflexivity|]. cbn [dict_pop attr_lookup].
  destruct (String.eqb k key) eqn:E.
  - apply String.eqb_eq in E. subst k.
    apply String.eqb_neq in Hk. rewrite String.eqb_sym in Hk. now rewrite Hk.
  - cbn [attr_lookup]. now rewrite IH.
Qed.

Lemma dict_pop_missing key d :
  attr_lookup key d = None -> dict_pop key d = d.
Proof.
  induction d as [|[k v] d IH]; [reflexivity|]. cbn [dict_pop attr_lookup].
  destruct (String.eqb k key); [discriminate|]. intros H. now rewrite IH.
Qed.

(** X14.  For a tag, after [tag[key] = value] the call [tag.get(key)]
    answers [value]; the values under the other keys, the attributes of the
    other nodes and the links of the tree are what they were. *)
Theorem setitem_then_get (h : heap) (t : id) (key : string) (value : attrval) :
  kind h t = KTag ->
  exists h', __setitem__ t key value h = (h', Ok tt) /\
    get h' t key = Some value /\
    (forall key', key' <> key -> get h' t key' = get h t key') /\
    (forall x, x <> t -> attrs h' x = attrs h x) /\
    contents h' = contents h /\ parent h' = parent h.
Proof.
  intros Kt. unfold __setitem__. rewrite Kt. eexists. split; [reflexivity|].
  unfold get. cbn. rewrite upd_same.
  repeat split.
  - apply attr_lookup_dict_set_same.
  - intros key' Hk. now apply attr_lookup_dict_set_other.
  - intros x Hx. now apply upd_other.
Qed.

(** [setitem_then_get] at a concrete input. *)
Lemma setitem_then_get_witness :
  exists h', __setitem__ 1%nat "lang" (AStr "en") page = (h', Ok tt) /\
    get h' 1%nat "lang" = Some (AStr "en") /\
    (forall key', key' <> "lang"%string -> get h' 1%nat key' = get page 1%nat key') /\
    (forall x, x <> 1%nat -> attrs h' x = attrs page x) /\
    contents h' = contents page /\ parent h' = parent page.
Proof. apply (setitem_then_get page 1%nat "lang" (AStr "en")). reflexivity. Defined.

(** X15.  For a tag, [del tag[key]] raises nothing; afterwards
    [tag.has_attr(key)] is [False] and the values under the other keys are
    what they were; when the key was absent the attributes are unchanged. *)
Theorem delitem_then_has_attr (h : heap) (t : id) (key : string) :
  kind h t = KTag -> NoDup (map fst (attrs h t)) ->
  exists h', __delitem__ t key h = (h', Ok tt) /\
    has_attr h' t key = Ok false /\
    (forall key', key' <> key -> get h' t key' = get h t key') /\
    (get h t key = None -> attrs h' t = attrs h t).
Proof.
  intros Kt Hnd. unfold __delitem__. rewrite Kt. eexists. split; [reflexivity|].
  unfold has_attr, get. cbn. rewrite Kt, upd_same.
  repeat split.
  - now rewrite attr_lookup_dict_pop_same.
  - intros key' Hk. now apply attr_lookup_dict_pop_other.
  - apply dict_pop_missing.
Qed.

(** [delitem_then_has_attr] at a concrete input. *)
Lemma delitem_then_has_attr_witness :
  exists h', __delitem__ 1%nat "class" page = (h', Ok tt) /\
    has_attr h' 1%nat "class" = Ok false /\
    (forall key', key' <> "class"%string -> get h' 1%nat key' = get page 1%nat key') /\
    (get page 1%nat "class" = None -> attrs h' 1%nat = attrs page 1%nat).
Proof.
  apply (delitem_then_has_attr page 1%nat "class").
  - reflexivity.
  - vm_compute. repeat constructor. intros [].
Defined.

(** X16.  For a tag [t] without children in a well-formed tree, after
    [t.append(s)] with a plain string [s] the property [t.string] is the
    new [NavigableString], and its text is [s]. *)
Theorem append_string_then_string ht N h t s l :
  acyclic_by ht N h -> ancestors h t l ->
  Forall (fun y => (y < fresh h)%nat) (t :: l) ->
  kind h t = KTag -> contents h t = [] ->
  exists n0, forall fuel, (n0 <= fuel)%nat ->
  exists h', append fuel t (VStr s) h = (h', Ok tt) /\
    Tag_string fuel h' t = Ok (Some (fresh h)) /\
    kind h' (fresh h) = KStr NavigableString /\
    text h' (fresh h) = s.
Proof.
  intros Hac Hanc Hall Kt Ct.
  exists (Nat.max N (length l + 2)). intros fuel Hf.
  set (u := fresh h).
  assert (Hu : ~ In u (t :: l)).
  { intros Hin. rewrite Forall_forall in Hall. specialize (Hall u Hin).
    unfold u in Hall. lia. }
  assert (Hut : t <> u) by (intros ->; apply Hu; now left).
  set (hs := fst (new_NavigableString NavigableString s h)).
  assert (Ks : kind hs t = KTag) by (cbn; now rewrite upd_other).
  assert (Cs : contents hs t = contents h t) by (cbn; now rewrite upd_other).
  assert (Ps : parent hs u = None) by (cbn; now rewrite upd_same).
  assert (Hacs : acyclic_by ht N hs).
  { destruct Hac as [Hb Hd]. split; [exact Hb|]. intros x c. cbn. unfold upd.
    destruct (Nat.eqb x (fresh h)); [discriminate|]. apply Hd. }
  assert (Hancs : ancestors hs t l).
  { eapply ancestors_ext; [|exact Hanc]. intros y Hy. cbn.
    apply upd_other. intros ->. now apply Hu. }
  assert (Hrun : append fuel t (VStr s) h = insert_links fuel t 0 u hs).
  { unfold append.
    rewrite (bind_ok _ _ h h (contents h t))
      by (unfold get_contents; now rewrite Kt).
    rewrite Ct. cbn [length]. unfold insert.
    rewrite (bind_ok _ _ h h tt) by reflexivity.
    rewrite (bind_ok _ _ h hs (VNode u)) by reflexivity.
    rewrite (bind_ok _ _ hs hs (contents hs t))
      by (unfold get_contents; now rewrite Ks).
    rewrite Cs, Ct. cbn [length].
    rewrite (bind_ok _ _ hs hs None) by (unfold read; now rewrite Ps).
    rewrite (bind_ok _ _ hs hs 0) by reflexivity.
    reflexivity. }
  rewrite Hrun.
  destruct (wp_elim _ _ _
         (insert_links_spec ht N hs fuel t 0 u l Hacs ltac:(lia) Hancs ltac:(lia)
            Hu Ks ltac:(unfold linkable; rewrite Cs; lia)))
         as (h' & [] & -> & Ek & _ & _ & Et & _ & Ec & _).
  exists h'. split; [reflexivity|].
  assert (Ku : kind h' u = KStr NavigableString).
  { rewrite Ek. cbn. apply upd_same. }
  split; [|split; [exact Ku|]].
  - destruct fuel as [|f]; [lia|]. cbn [Tag_string].
    rewrite Ek, Ks, Ec, upd_same, Cs, Ct.
    change (py_insert [] 0 u) with [u]. rewrite <- Ek. now rewrite Ku.
  - rewrite Et. cbn. apply upd_same.
Qed.

(** [append_string_then_string] at a concrete input. *)
Lemma append_string_then_string_witness :
  exists n0, forall fuel, (n0 <= fuel)%nat ->
  exists h', append fuel 3%nat (VStr "hi") example_tree = (h', Ok tt) /\
    Tag_string fuel h' 3%nat = Ok (Some (fresh example_tree)) /\
    kind h' (fresh example_tree) = KStr NavigableString /\
    text h' (fresh example_tree) = "hi"%string.
Proof.
  apply (append_string_then_string example_height 2%nat example_tree 3%nat "hi" []).
  - exact example_tree_acyclic.
  - exact example_tree_detached_root.
  - repeat constructor.
  - reflexivity.
  - reflexivity.
Defined.

(** ** Selectors *)

(** X17.  Whenever [select] returns, the list it returns holds no node
    twice. *)
Theorem select_has_no_duplicates fuel h self selector g limit r :
  select fuel h self selector g limit = Ok r -> NoDup r.
Proof. apply select_NoDup. Qed.

(** [select_has_no_duplicates] at a concrete input. *)
Lemma select_has_no_duplicates_witness : NoDup [1; 3; 5; 4]%nat.
Proof.
  apply (select_has_no_duplicates 20 page 0%nat "p,a" None None).
  vm_compute. reflexivity.
Defined.

Section TagsOnly.

Variables (h : heap) (fuel : nat).

Variable select_rec : id -> string -> option candgen -> res (list id).

Local Abbreviation tags := (Forall (fun x => kind h x = KTag)).

Lemma candidates_tags n rule limit g nc count r :
  tags nc -> candidates h n rule limit g nc count = Ok r -> tags (fst r).
Proof.
  revert g nc count. induction n as [|n IH]; intros g nc count Hnd; [discriminate|].
  cbn [candidates]. destruct (gen_next h g) as [[[cand g']|]|e|]; cbn [rbind];
    try discriminate; [|now intros [= <-]].
  destruct cand as [c|]; [|now apply IH].
  destruct (kind h c) eqn:K; [|now apply IH].
  destruct (_ && _); [now apply IH|].
  assert (Hc : tags (nc ++ [c])).
  { apply Forall_app. split; [assumption|]. now repeat constructor. }
  destruct (match rule_checker rule with Some _ => _ | None => _ end)
    as [[[[|]|] count']|e|]; cbn [rbind]; try discriminate.
  - destruct (existsb (Nat.eqb c) nc) eqn:E; [now apply IH|].
    destruct (limit_reached limit (nc ++ [c])).
    + now intros [= <-].
    + now apply IH.
  - now apply IH.
  - now intros [= <-].
Qed.

Lemma over_context_tags rule u limit ctx nc count r :
  tags nc ->
  over_context h fuel select_rec rule u limit ctx nc count = Ok r -> tags r.
Proof.
  revert nc count. induction ctx as [|tag ctx IH]; intros nc count Hnd.
  - now intros [= <-].
  - cbn [over_context]. destruct (start_generator _ _ _ _ _) as [g| |]; cbn [rbind];
      try discriminate.
    destruct (candidates h fuel rule limit g nc count) as [r'| |] eqn:E; cbn [rbind];
      try discriminate.
    apply IH. eapply candidates_tags; eassumption.
Qed.

Lemma over_group_tags tokens index g limit ctx alts nc r :
  tags nc ->
  over_group h fuel select_rec tokens index g limit ctx alts nc = Ok r -> tags r.
Proof.
  revert nc. induction alts as [|tok alts IH]; intros nc Hnd.
  - now intros [= <-].
  - cbn [over_group]. destruct (classify tok) as [rule| |]; cbn [rbind];
      try discriminate.
    destruct (match recursive_candidate_generator rule with
              | Some _ => _ | None => _ end) as [u| |]; cbn [rbind]; try discriminate.
    destruct (over_context _ _ _ _ _ _ _ _ _) as [nc'| |] eqn:E; cbn [rbind];
      try discriminate.
    apply IH. eapply over_context_tags; eassumption.
Qed.

Lemma over_tokens_tags tokens g limit index todo ctx r :
  tags ctx ->
  over_tokens h fuel select_rec tokens g limit index todo ctx = Ok r -> tags r.
Proof.
  revert index ctx. induction todo as [|tg todo IH]; intros index ctx Hnd.
  - now intros [= <-].
  - cbn [over_tokens]. destruct (str_in _ _); [discriminate|].
    destruct (match py_nth tokens (index - 1) with
              | Some t => is_combinator t | None => false end); [now apply IH|].
    destruct (over_group _ _ _ _ _ _ _ _ _ _) as [nc| |] eqn:E; cbn [rbind];
      try discriminate.
    apply IH. eapply over_group_tags; [|eassumption]. constructor.
Qed.

End TagsOnly.

Lemma py_nth_nil_or_cons {A} (l : list A) (x : A) :
  py_nth l (-1) = Some x -> exists a l', l = a :: l'.
Proof.
  destruct l as [|a l']; [discriminate|]. eauto.
Qed.

(** X18.  Whenever [select] returns, every element of the list is a
    tag: no string node is ever selected. *)
Theorem select_returns_tags fuel h self selector g limit r :
  select fuel h self selector g limit = Ok r ->
  Forall (fun x => kind h x = KTag) r.
Proof.
  destruct fuel as [|f]; [discriminate|].
  cbn [select]. unfold select_body.
  destruct (py_nth (tokenize selector) (-1)) as [t|] eqn:Et; [|discriminate].
  destruct (is_combinator t) eqn:Ec; [discriminate|].
  destruct (py_nth_nil_or_cons _ _ Et) as (t0 & rest & E).
  rewrite E at 2. cbn [over_tokens].
  destruct (str_in _ _); [discriminate|].
  change (0 - 1) with (-1). rewrite Et, Ec.
  destruct (over_group _ _ _ _ _ _ _ _ _ _) as [nc| |] eqn:Eg; cbn [rbind];
    try discriminate.
  apply over_tokens_tags. eapply over_group_tags; [|eassumption]. constructor.
Qed.

(** [select_returns_tags] at a concrete input. *)
Lemma select_returns_tags_witness :
  Forall (fun x => kind page x = KTag) [1; 3; 5; 4]%nat.
Proof.
  apply (select_returns_tags 20 page 0%nat "p,a" None None).
  vm_compute. reflexivity.
Defined.

Lemma is_space_not_comma (c : ascii) :
  is_space c = true -> Ascii.eqb c "," = false.
Proof.
  destruct c as [[] [] [] [] [] [] [] []]; vm_compute; congruence.
Qed.

Lemma strip_after_commas_spaces (s : list ascii) :
  forallb is_space s = true -> strip_after_commas false s = s.
Proof.
  induction s as [|c s IH]; [reflexivity|]. cbn [forallb strip_after_commas andb].
  intros H. apply andb_prop in H. destruct H as [Hc Hs].
  rewrite (is_space_not_comma c Hc), IH by exact Hs. reflexivity.
Qed.

Lemma split_by_spaces (s : list ascii) (cur : list ascii) :
  forallb is_space s = true ->
  filter (fun p => negb (Nat.eqb (length p) 0)) (split_by is_space s cur)
  = filter (fun p => negb (Nat.eqb (length p) 0)) [rev cur].
Proof.
  revert cur. induction s as [|c s IH]; intros cur H; [reflexivity|].
  cbn [forallb] in H. apply andb_prop in H. destruct H as [Hc Hs].
  cbn [split_by]. rewrite Hc. cbn [filter]. rewrite (IH [] Hs). cbn.
  now destruct (negb _).
Qed.

(** X19.  On a tag, for a selector that is empty or holds white space
    only, [select] raises [IndexError]: the list of tokens is empty and
    [tokens[-1]] fails before any other check. *)
Theorem select_blank_selector fuel h self selector g limit :
  kind h self = KTag ->
  forallb is_space (chars selector) = true ->
  select (S fuel) h self selector g limit = Raise IndexError.
Proof.
  intros _ H. cbn [select]. unfold select_body, tokenize, split_ws.
  rewrite strip_after_commas_spaces by exact H.
  unfold chars, str. rewrite list_ascii_of_string_of_list_ascii.
  rewrite split_by_spaces by exact H. reflexivity.
Qed.

(** [select_blank_selector] at a concrete input. *)
Lemma select_blank_selector_witness :
  select 20 page 0%nat "  " None None = Raise IndexError.
Proof.
  apply (select_blank_selector 19 page 0%nat "  " None None); reflexivity.
Defined.

Section LimitZero.

Variables (h : heap) (fuel : nat).

Variable select_rec : id -> string -> option candgen -> res (list id).

Lemma candidates_limit_zero n rule g nc count :
  candidates h n rule (Some 0) g nc count = candidates h n rule None g nc count.
Proof.
  revert g nc count. induction n as [|n IH]; intros g nc count; [reflexivity|].
  cbn [candidates]. destruct (gen_next h g) as [[[cand g']|]|e|]; cbn [rbind];
    try reflexivity.
  destruct cand as [c|]; [|apply IH].
  destruct (kind h c); [|apply IH].
  destruct (_ && _); [apply IH|].
  destruct (match rule_checker rule with Some _ => _ | None => _ end)
    as [[[[|]|] count']|e|]; cbn [rbind]; try reflexivity.
  - destruct (existsb (Nat.eqb c) nc); [apply IH|].
    cbn [limit_reached Z.eqb negb andb]. apply IH.
  - apply IH.
Qed.

Lemma over_context_limit_zero rule u ctx nc count :
  over_context h fuel select_rec rule u (Some 0) ctx nc count
  = over_context h fuel select_rec rule u None ctx nc count.
Proof.
  revert nc count. induction ctx as [|tag ctx IH]; intros nc count; [reflexivity|].
  cbn [over_context]. destruct (start_generator _ _ _ _ _) as [g| |]; cbn [rbind];
    try reflexivity.
  rewrite candidates_limit_zero.
  destruct (candidates h fuel rule None g nc count) as [r'| |]; cbn [rbind];
    try reflexivity.
  apply IH.
Qed.

Lemma over_group_limit_zero tokens index g ctx alts nc :
  over_group h fuel select_rec tokens index g (Some 0) ctx alts nc
  = over_group h fuel select_rec tokens index g None ctx alts nc.
Proof.
  revert nc. induction alts as [|tok alts IH]; intros nc; [reflexivity|].
  cbn [over_group]. destruct (classify tok) as [rule| |]; cbn [rbind];
    try reflexivity.
  destruct (match recursive_candidate_generator rule with
            | Some _ => _ | None => _ end) as [u| |]; cbn [rbind]; try reflexivity.
  rewrite over_context_limit_zero.
  destruct (over_context _ _ _ _ _ _ _ _ _) as [nc'| |]; cbn [rbind];
    try reflexivity.
  apply IH.
Qed.

Lemma over_tokens_limit_zero tokens g index todo ctx :
  over_tokens h fuel select_rec tokens g (Some 0) index todo ctx
  = over_tokens h fuel select_rec tokens g None index todo ctx.
Proof.
  revert index ctx. induction todo as [|tg todo IH]; intros index ctx; [reflexivity|].
  cbn [over_tokens]. destruct (str_in _ _); [reflexivity|].
  destruct (match py_nth tokens (index - 1) with
            | Some t => is_combinator t | None => false end); [apply IH|].
  rewrite over_group_limit_zero.
  destruct (over_group _ _ _ _ _ _ _ _ _ _) as [nc| |]; cbn [rbind];
    try reflexivity.
  apply IH.
Qed.

End LimitZero.

(** X20.  [select] with [limit=0] is [select] without a limit: the
    outcome is the same for every element and every selector. *)
Theorem select_limit_zero_is_no_limit fuel h self selector g :
  select fuel h self selector g (Some 0) = select fuel h self selector g None.
Proof.
  destruct fuel as [|f]; [reflexivity|].
  cbn [select]. unfold select_body.
  destruct (py_nth (tokenize selector) (-1)) as [t|]; [|reflexivity].
  destruct (is_combinator t); [reflexivity|].
  apply over_tokens_limit_zero.
Qed.

Section NthOfType.

Variables (h : heap) (fuel : nat).

Variable select_rec : id -> string -> option candgen -> res (list id).

Variables (tn : option string) (d : Z) (rg : option candgen).

Local Abbreviation rule := (mkRule tn (Some (NthChildOfType d)) rg).

Lemma candidates_nth_of_type n limit g nc count nc' count' :
  candidates h n rule limit g nc count = Ok (nc', count') ->
  (d <= count -> nc' = nc /\ d <= count') /\
  (count < d -> nc' = nc \/ (length nc' = S (length nc) /\ d <= count')).
Proof.
  revert g nc count. induction n as [|n IH]; intros g nc count; [discriminate|].
  cbn [candidates]. destruct (gen_next h g) as [[[cand g']|]|e|]; cbn [rbind];
    try discriminate.
  2:{ intros [= <- <-]. split; [intros; split; [reflexivity|assumption]|now left]. }
  destruct cand as [c|]; [|apply IH].
  destruct (kind h c); [|apply IH].
  destruct (_ && _); [apply IH|].
  cbn [rule_checker run_checker].
  destruct (count + 1 =? d) eqn:E1; cbn [rbind].
  - apply Z.eqb_eq in E1.
    destruct (existsb (Nat.eqb c) nc).
    + intros H. destruct (proj1 (IH _ _ _ H) ltac:(lia)) as [-> Hd].
      split; [intros; lia|]. now left.
    + destruct (limit_reached limit (nc ++ [c])).
      * intros [= <- <-]. split; [intros; lia|]. intros _. right.
        rewrite length_app. cbn. split; lia.
      * intros H. destruct (proj1 (IH _ _ _ H) ltac:(lia)) as [-> Hd].
        split; [intros; lia|]. intros _. right.
        rewrite length_app. cbn. split; lia.
  - apply Z.eqb_neq in E1. destruct (count + 1 >? d) eqn:E2; cbn [rbind].
    + intros [= <- <-]. split; [intros; split; [reflexivity|lia]|now left].
    + assert (count + 1 < d) by (pose proof (Zgt_cases (count + 1) d); rewrite E2 in *; lia).
      intros H'. destruct (IH _ _ _ H') as [_ IH2].
      split; [intros; lia|]. intros _. apply IH2. lia.
Qed.

Lemma over_context_nth_of_type u limit ctx nc count r :
  over_context h fuel select_rec rule u limit ctx nc count = Ok r ->
  (d <= count -> r = nc) /\ (length r <= S (length nc))%nat.
Proof.
  revert nc count. induction ctx as [|tag ctx IH]; intros nc count.
  - intros [= <-]. split; [reflexivity|lia].
  - cbn [over_context]. destruct (start_generator _ _ _ _ _) as [g| |]; cbn [rbind];
      try discriminate.
    destruct (candidates h fuel rule limit g nc count) as [[nc' count']| |] eqn:E;
      cbn [rbind fst snd]; try discriminate.
    intros H. destruct (IH _ _ H) as [IH1 IH2].
    destruct (candidates_nth_of_type _ _ _ _ _ _ _ E) as [C1 C2].
    split.
    + intros Hd. destruct (C1 Hd) as [-> Hd']. now apply IH1.
    + destruct (Z_lt_le_dec count d) as [Hlt|Hle].
      * destruct (C2 Hlt) as [->|[Hlen Hd']]; [exact IH2|].
        rewrite (IH1 Hd'). lia.
      * destruct (C1 Hle) as [-> Hd']. exact IH2.
Qed.

End NthOfType.

(** X21.  For a selector whose last token is [tag:nth-of-type(n)], with
    no comma and not the operand of a combinator, [select] returns at most
    one element: the counter of the checker is shared by all the tags of
    the context, so the token picks the [n]-th candidate of them all. *)
Theorem nth_of_type_selects_at_most_one fuel h self selector g limit
    pre token tn d r :
  tokenize selector = pre ++ [token] ->
  consumed (tokenize selector) (Z.of_nat (length pre)) = false ->
  split_on "," token = [token] ->
  classify token = Ok (mkRule tn (Some (NthChildOfType d)) None) ->
  select fuel h self selector g limit = Ok r -> (length r <= 1)%nat.
Proof.
  intros Htok Hcons Hsplit Hcl.
  destruct fuel as [|f]; [discriminate|].
  cbn [select]. unfold select_body.
  destruct (py_nth (tokenize selector) (-1)) as [t|] eqn:Et; [|discriminate].
  destruct (is_combinator t) eqn:Ec; [discriminate|].
  rewrite Htok at 2. rewrite over_tokens_app.
  destruct (over_tokens _ _ _ _ _ _ _ pre _) as [ctx| |]; cbn [rbind];
    try discriminate.
  cbn [over_tokens]. rewrite Hsplit.
  destruct (str_in _ _); [discriminate|].
  unfold consumed in Hcons.
  replace (0 + Z.of_nat (length pre) - 1) with (Z.of_nat (length pre) - 1) by lia.
  rewrite Hcons. cbn [over_group]. rewrite Hcl. cbn [rbind recursive_candidate_generator].
  destruct g as [g0|]; cbn [rbind].
  - destruct (over_context _ _ _ _ _ _ _ _ _) as [nc| |] eqn:E; cbn [rbind];
      try discriminate.
    intros [= <-]. apply over_context_nth_of_type in E. cbn in E. lia.
  - destruct (over_context _ _ _ _ _ _ _ _ _) as [nc| |] eqn:E; cbn [rbind];
      try discriminate.
    intros [= <-]. apply over_context_nth_of_type in E. cbn in E. lia.
Qed.

(** [nth_of_type_selects_at_most_one] at a concrete input. *)
Lemma nth_of_type_selects_at_most_one_witness :
  (length [3%nat] <= 1)%nat.
Proof.
  apply (nth_of_type_selects_at_most_one 20 page 0%nat "span p:nth-of-type(1)" None None
           ["span"%string] "p:nth-of-type(1)"%string (Some "p"%string) 1 [3%nat]);
    vm_compute; reflexivity.
Defined.



(** ** Rendering *)

Local Open Scope string_scope.

Lemma xml_page_root : ancestors xml_page 0%nat [].
Proof. apply ancestors_root. reflexivity. Qed.

Lemma xml_page_child (x : id) :
  (x = 1 \/ x = 3 \/ x = 4)%nat -> ancestors xml_page x [0%nat].
Proof.
  intros [->|[->| ->]]; (eapply ancestors_step; [reflexivity|exact xml_page_root]).
Qed.

Lemma xml_page_script : holds_text xml_page 1%nat 2%nat "a<b".
Proof. repeat split; reflexivity. Qed.

Lemma xml_page_text : ancestors xml_page 2%nat [1; 0]%nat.
Proof.
  eapply ancestors_step; [reflexivity|]. apply xml_page_child. now left.
Qed.

Lemma is_xml_page_acyclic : acyclic_by is_xml_page_height 3 is_xml_page.
Proof.
  split.
  - intros x. do 3 (destruct x as [|x]; [cbn; lia|]). cbn. lia.
  - intros x c _ Hin.
    do 4 (destruct x as [|x]; [vm_compute in Hin; cbn; intuition (subst; cbn; lia)|]).
    vm_compute in Hin. contradiction.
Qed.

Lemma is_xml_page_text : ancestors is_xml_page 3%nat [2; 0]%nat.
Proof.
  eapply ancestors_step; [reflexivity|].
  eapply ancestors_step; [reflexivity|]. apply ancestors_root. reflexivity.
Qed.

Lemma is_xml_at_root h x l :
  ancestors h x l ->
  forall fuel, _is_xml (length l + S fuel) h x = getattr_is_xml fuel h (last l x).
Proof.
  induction 1 as [x Hp|x p l Hp Hanc IH]; intros fuel.
  - cbn [length Nat.add _is_xml last]. now rewrite Hp.
  - cbn [length Nat.add _is_xml]. rewrite Hp, IH. f_equal.
    destruct l as [|q l']; [reflexivity|].
    change (last (p :: q :: l') x) with (last (q :: l') x).
    apply last_default. discriminate.
Qed.

Lemma is_xml_root h x l b :
  ancestors h x l -> is_xml h (last l x) = Some b ->
  forall fuel, (length l < fuel)%nat -> _is_xml fuel h x = Ok b.
Proof.
  intros Hanc Hb fuel Hf.
  replace fuel with (length l + S (fuel - S (length l)))%nat by lia.
  rewrite (is_xml_at_root h x l Hanc). unfold getattr_is_xml. now rewrite Hb.
Qed.

Lemma descend_height ht N h k x y :
  acyclic_by ht N h -> descend k h x = Ok y -> (ht y <= ht x)%nat.
Proof.
  intros [_ Hd]. revert x. induction k as [|k IH]; intros x; [discriminate|].
  cbn [descend]. destruct (kind h x) eqn:K.
  - destruct (py_nth (contents h x) (-1)) as [c|] eqn:E.
    + intros H. apply IH in H. apply py_nth_In in E.
      specialize (Hd x c K E). lia.
    + intros [= ->]. lia.
  - intros [= ->]. lia.
Qed.

Lemma first_child_named_is_xml ht N h r c0 rest :
  acyclic_by ht N h -> is_xml h r = None -> kind h r = KTag ->
  next_sibling h r = None -> contents h r = c0 :: rest ->
  kind h c0 = KTag -> name h c0 = "is_xml" ->
  (forall y, next_element h y = Some c0 -> y = r) ->
  forall fuel, (N <= fuel)%nat -> getattr_is_xml fuel h r = Ok true.
Proof.
  intros Hac Hx K Hns Hc Kc Nc Hpe fuel Hf.
  assert (HN : (ht r < fuel)%nat) by (destruct Hac as [Hb _]; specialize (Hb r); lia).
  destruct (descend_total ht N h fuel r Hac HN) as [ld E].
  assert (Hld : next_element h ld <> Some c0).
  { intros Hn. apply Hpe in Hn. subst ld.
    destruct fuel as [|f]; [discriminate|]. cbn [descend] in E.
    rewrite K, Hc in E.
    destruct (py_nth_Some (c0 :: rest) (-1)) as [c Ec]; [cbn [length]; lia|].
    rewrite Ec in E.
    apply (descend_height ht N) in E; [|assumption].
    apply py_nth_In in Ec. rewrite <- Hc in Ec.
    destruct Hac as [_ Hd]. specialize (Hd r c K Ec). lia. }
  assert (Hfind : find fuel h r "is_xml" = Ok (Some c0)).
  { unfold find, descendants, _last_descendant.
    rewrite K, Hc, Hns. cbn [opt_truthy andb]. rewrite E. cbn [rbind negb].
    destruct fuel as [|f]; [lia|]. cbn [find_in gen_next].
    replace (opt_id_eqb (Some c0) (next_element h ld)) with false.
    - cbn [rbind]. unfold truthy. rewrite Kc, Nc. reflexivity.
    - symmetry. destruct (next_element h ld) as [z|]; [|reflexivity].
      cbn [opt_id_eqb]. apply Nat.eqb_neq. congruence. }
  unfold getattr_is_xml. now rewrite Hx, K, Hfind.
Qed.

(** X23.  Whether a node counts as XML is decided at the root of its tree.
    Where the root has the attribute [is_xml], [_is_xml] is that attribute
    for every node of the tree, whatever the attributes of the nodes on the
    way.  Where the root is a tag without the attribute, the lookup is
    answered by [find('is_xml')]: every node of a tree whose root has a tag
    named [is_xml] as its first child counts as XML. *)
Theorem is_xml_is_decided_at_the_root ht N h x l :
  ancestors h x l ->
  (forall b, is_xml h (last l x) = Some b ->
     forall fuel, (length l < fuel)%nat -> _is_xml fuel h x = Ok b) /\
  (forall c0 rest,
     acyclic_by ht N h ->
     is_xml h (last l x) = None -> kind h (last l x) = KTag ->
     next_sibling h (last l x) = None -> contents h (last l x) = c0 :: rest ->
     kind h c0 = KTag -> name h c0 = "is_xml" ->
     (forall y, next_element h y = Some c0 -> y = last l x) ->
     forall fuel, (length l + S N <= fuel)%nat -> _is_xml fuel h x = Ok true).
Proof.
  intros Hanc. split.
  - intros b Hb. now apply is_xml_root.
  - intros c0 rest Hac Hx K Hns Hc Kc Nc Hpe fuel Hf.
    replace fuel with (length l + S (fuel - S (length l)))%nat by lia.
    rewrite (is_xml_at_root h x l Hanc).
    apply (first_child_named_is_xml ht N h _ c0 rest); try assumption. lia.
Qed.

(** [is_xml_is_decided_at_the_root] at concrete inputs. *)
Lemma is_xml_is_decided_at_the_root_witness :
  _is_xml 3 xml_page 2%nat = Ok true /\
  _is_xml 6 is_xml_page 3%nat = Ok true.
Proof.
  split.
  - apply (proj1 (is_xml_is_decided_at_the_root (fun _ => 0%nat) 0 xml_page 2%nat
                    [1; 0]%nat xml_page_text) true eq_refl 3%nat).
    cbn. lia.
  - apply (proj2 (is_xml_is_decided_at_the_root is_xml_page_height 3 is_xml_page
                    3%nat [2; 0]%nat is_xml_page_text)
             1%nat [2%nat] is_xml_page_acyclic eq_refl eq_refl eq_refl eq_refl
             eq_refl eq_refl).
    + intros y E. do 4 (destruct y as [|y]; [try reflexivity; discriminate E|]).
      discriminate E.
    + cbn. lia.
Defined.

Lemma resolve_returns h x fm fuel :
  (forall n, fm = FormatterName n -> exists b, _is_xml fuel h x = Ok b) ->
  exists r, resolve fuel h x fm = Ok r.
Proof.
  intros H. destruct fm as [n|f]; cbn [resolve]; [|eauto].
  unfold _formatter_for_name. destruct (H n eq_refl) as [b ->]. cbn [rbind]. eauto.
Qed.

(** X24.  A string node of a class other than [NavigableString] (CDATA,
    processing instruction, comment, declaration, doctype) is rendered as
    its prefix, its text as it is and its suffix, under every formatter.
    A named formatter is looked up with [_is_xml], and the statement is for
    the stores in which this lookup returns. *)
Theorem preformatted_strings_are_not_substituted
    (substitute_html substitute_xml substitute_xml_containing_entities
       : string -> string)
    (h : heap) (x : id) (c : strclass) (fm : formatter) (fuel : nat) :
  kind h x = KStr c -> c <> NavigableString ->
  (forall n, fm = FormatterName n -> exists b, _is_xml fuel h x = Ok b) ->
  output_ready substitute_html substitute_xml substitute_xml_containing_entities
    fuel h x fm
  = Ok (PREFIX c ++ text h x ++ SUFFIX c).
Proof.
  intros K Hc Hx. unfold output_ready, format_string. rewrite K.
  destruct (resolve_returns h x fm fuel Hx) as [r ->]. cbn [rbind].
  destruct c; try reflexivity. congruence.
Qed.

(** [preformatted_strings_are_not_substituted] at a concrete input. *)
Lemma preformatted_strings_are_not_substituted_witness :
  output_ready xml_escape xml_escape xml_escape 2 xml_page 3%nat
    (FormatterName (Some "minimal"))
  = Ok (PREFIX Comment ++ text xml_page 3%nat ++ SUFFIX Comment).
Proof.
  apply (preformatted_strings_are_not_substituted xml_escape xml_escape xml_escape
           xml_page 3%nat Comment (FormatterName (Some "minimal")) 2).
  - reflexivity.
  - discriminate.
  - intros n _. exists true. reflexivity.
Defined.

(** X25.  In an XML tree, a tag whose only child is a text is rendered
    with the text passed through the substitution of the named policy
    ([substitute_html] for [html], [substitute_xml_containing_entities] for
    [minimal], [substitute_xml] for any other name), whatever the name of
    the tag: the text of [<script>] is substituted as well. *)
Theorem xml_tree_substitutes_script_text
    (substitute_html substitute_xml substitute_xml_containing_entities
       quoted_attribute_value : string -> string)
    (h : heap) (t c : id) (s policy : string) (k : nat) :
  holds_text h t c s -> _is_xml k h t = Ok true ->
  forall fuel, (S k <= fuel)%nat ->
  decode substitute_html substitute_xml substitute_xml_containing_entities
    quoted_attribute_value fuel h t (FormatterName (Some policy))
  = Ok ("<" ++ name h t ++ ">"
        ++ xml_named_substitution substitute_html substitute_xml
             substitute_xml_containing_entities policy s
        ++ "</" ++ name h t ++ ">").
Proof.
  intros (Kt & Ct & At & Pt & Ht & Kc & Tc & Pc) Hk fuel Hf.
  destruct fuel as [|f]; [lia|].
  cbn [decode resolve]. unfold _formatter_for_name.
  rewrite (_is_xml_mono k (S f) h t true Hk) by lia. cbn [rbind].
  rewrite At, Pt, Ct, Ht, Kc.
  cbn [sorted_items fold_right render_attrs rbind length Nat.eqb andb].
  unfold output_ready, format_string, xml_named_substitution.
  rewrite Kc, Tc.
  destruct (String.eqb policy "html"); [|destruct (String.eqb policy "minimal")];
    cbn [hand_on resolve rbind call_formatter PREFIX SUFFIX];
    rewrite ?append_empty_r; reflexivity.
Qed.

(** [xml_tree_substitutes_script_text] at a concrete input. *)
Lemma xml_tree_substitutes_script_text_witness :
  decode xml_escape xml_escape xml_escape (fun s => s) 3 xml_page 1%nat
    (FormatterName (Some "minimal"))
  = Ok ("<" ++ name xml_page 1%nat ++ ">"
        ++ xml_named_substitution xml_escape xml_escape xml_escape "minimal" "a<b"
        ++ "</" ++ name xml_page 1%nat ++ ">").
Proof.
  apply (xml_tree_substitutes_script_text xml_escape xml_escape xml_escape
           (fun s => s) xml_page 1%nat 2%nat "a<b" "minimal" 2).
  - exact xml_page_script.
  - reflexivity.
  - lia.
Defined.

(** X26.  Under a formatter that is a function, a tag whose only child is
    a text is rendered with the function applied to the text, whatever the
    name of the tag and whatever the tree. *)
Theorem custom_formatter_reaches_script_text
    (substitute_html substitute_xml substitute_xml_containing_entities
       quoted_attribute_value : string -> string)
    (h : heap) (t c : id) (s : string) (f : string -> string) (fuel : nat) :
  holds_text h t c s -> (2 <= fuel)%nat ->
  decode substitute_html substitute_xml substitute_xml_containing_entities
    quoted_attribute_value fuel h t (FormatterFunction (Custom f))
  = Ok ("<" ++ name h t ++ ">" ++ f s ++ "</" ++ name h t ++ ">").
Proof.
  intros (Kt & Ct & At & Pt & Ht & Kc & Tc & Pc) Hf.
  destruct fuel as [|fu]; [lia|].
  cbn [decode resolve rbind]. rewrite At, Pt, Ct, Ht, Kc.
  cbn [sorted_items fold_right render_attrs rbind length Nat.eqb andb].
  unfold output_ready, format_string. rewrite Kc, Tc.
  cbn [hand_on resolve rbind call_formatter PREFIX SUFFIX].
  rewrite ?append_empty_r. reflexivity.
Qed.

(** [custom_formatter_reaches_script_text] at a concrete input. *)
Lemma custom_formatter_reaches_script_text_witness :
  decode xml_escape xml_escape xml_escape (fun s => s) 2 xml_page 1%nat
    (FormatterFunction (Custom xml_escape))
  = Ok ("<" ++ name xml_page 1%nat ++ ">" ++ xml_escape "a<b"
        ++ "</" ++ name xml_page 1%nat ++ ">").
Proof.
  apply (custom_formatter_reaches_script_text xml_escape xml_escape xml_escape
           (fun s => s) xml_page 1%nat 2%nat "a<b" xml_escape 2).
  - exact xml_page_script.
  - lia.
Defined.

(** X27.  A tag without children, attributes and prefix is rendered as
    [<name/>] when it can be an empty element and as [<name></name>]
    otherwise, under every formatter.  A named formatter is looked up with
    [_is_xml], and the statement is for the stores in which this lookup
    returns. *)
Theorem childless_tag_rendering
    (substitute_html substitute_xml substitute_xml_containing_entities
       quoted_attribute_value : string -> string)
    (h : heap) (t : id) (fm : formatter) (fuel : nat) :
  kind h t = KTag -> contents h t = [] -> attrs h t = [] ->
  prefix h t = None -> hidden h t = false -> (0 < fuel)%nat ->
  (forall n, fm = FormatterName n -> exists b, _is_xml fuel h t = Ok b) ->
  decode substitute_html substitute_xml substitute_xml_containing_entities
    quoted_attribute_value fuel h t fm
  = Ok (if can_be_empty_element h t then "<" ++ name h t ++ "/>"
        else "<" ++ name h t ++ "></" ++ name h t ++ ">").
Proof.
  intros Kt Ct At Pt Ht Hf Hx. destruct fuel as [|f]; [lia|].
  cbn [decode].
  destruct (resolve_returns h t fm (S f) Hx) as [r ->].
  cbn [rbind]. rewrite At, Pt, Ct, Ht.
  cbn [sorted_items fold_right render_attrs rbind length Nat.eqb andb].
  destruct (can_be_empty_element h t); reflexivity.
Qed.

(** [childless_tag_rendering] at a concrete input. *)
Lemma childless_tag_rendering_witness :
  decode xml_escape xml_escape xml_escape (fun s => s) 2 xml_page 4%nat
    (FormatterName (Some "minimal"))
  = Ok (if can_be_empty_element xml_page 4%nat
        then "<" ++ name xml_page 4%nat ++ "/>"
        else "<" ++ name xml_page 4%nat ++ "></" ++ name xml_page 4%nat ++ ">").
Proof.
  apply (childless_tag_rendering xml_escape xml_escape xml_escape (fun s => s)
           xml_page 4%nat (FormatterName (Some "minimal")) 2).
  - reflexivity.
  - reflexivity.
  - reflexivity.
  - reflexivity.
  - reflexivity.
  - lia.
  - intros n _. exists true. reflexivity.
Defined.

Local Close Scope string_scope.

Lemma ascii_compare_lt_trans (a b c : ascii) :
  Ascii.compare a b = Lt -> Ascii.compare b c = Lt -> Ascii.compare a c = Lt.
Proof.
  unfold Ascii.compare. rewrite !N.compare_lt_iff. apply N.lt_trans.
Qed.

Lemma string_compare_lt_trans (s1 s2 s3 : string) :
  String.compare s1 s2 = Lt -> String.compare s2 s3 = Lt ->
  String.compare s1 s3 = Lt.
Proof.
  revert s2 s3. induction s1 as [|c1 s1 IH]; intros [|c2 s2] [|c3 s3];
    cbn [String.compare]; try discriminate; try reflexivity.
  destruct (Ascii.compare c1 c2) eqn:E12; try discriminate;
    destruct (Ascii.compare c2 c3) eqn:E23; try discriminate.
  - apply Ascii.compare_eq_iff in E12, E23. subst.
    replace (Ascii.compare c3 c3) with Eq
      by (symmetry; unfold Ascii.compare; apply N.compare_refl).
    apply IH.
  - apply Ascii.compare_eq_iff in E12. subst. rewrite E23. reflexivity.
  - apply Ascii.compare_eq_iff in E23. subst. rewrite E12. reflexivity.
  - rewrite (ascii_compare_lt_trans _ _ _ E12 E23). reflexivity.
Qed.

Lemma string_compare_refl (s : string) : String.compare s s = Eq.
Proof.
  induction s as [|c s IH]; [reflexivity|]. cbn [String.compare].
  replace (Ascii.compare c c) with Eq
    by (symmetry; unfold Ascii.compare; apply N.compare_refl).
  exact IH.
Qed.

Lemma string_leb_trans (s1 s2 s3 : string) :
  String.leb s1 s2 = true -> String.leb s2 s3 = true -> String.leb s1 s3 = true.
Proof.
  unfold String.leb.
  destruct (String.compare s1 s2) eqn:E12; try discriminate;
    destruct (String.compare s2 s3) eqn:E23; try discriminate; intros _ _.
  - apply String.compare_eq_iff in E12, E23. subst.
    now rewrite string_compare_refl.
  - apply String.compare_eq_iff in E12. subst. now rewrite E23.
  - apply String.compare_eq_iff in E23. subst. now rewrite E12.
  - now rewrite (string_compare_lt_trans _ _ _ E12 E23).
Qed.

Lemma insert_sorted_comm (a b : string * attrval) (l : list (string * attrval)) :
  fst a <> fst b ->
  insert_sorted a (insert_sorted b l) = insert_sorted b (insert_sorted a l).
Proof.
  intros Hab.
  assert (Hx : String.leb (fst a) (fst b) = negb (String.leb (fst b) (fst a))).
  { destruct (String.leb (fst a) (fst b)) eqn:E1, (String.leb (fst b) (fst a)) eqn:E2;
      try reflexivity.
    - exfalso. apply Hab. now apply String.leb_antisym.
    - destruct (String.leb_total (fst a) (fst b)); congruence. }
  induction l as [|x l IH]; cbn [insert_sorted].
  - rewrite Hx. now destruct (String.leb (fst b) (fst a)).
  - destruct (String.leb (fst a) (fst x)) eqn:Ea, (String.leb (fst b) (fst x)) eqn:Eb;
      cbn [insert_sorted]; rewrite ?Ea, ?Eb.
    + rewrite Hx. now destruct (String.leb (fst b) (fst a)).
    + destruct (String.leb (fst b) (fst a)) eqn:Eba; [|reflexivity].
      rewrite (string_leb_trans _ _ _ Eba Ea) in Eb. discriminate.
    + destruct (String.leb (fst a) (fst b)) eqn:Eab; [|reflexivity].
      rewrite (string_leb_trans _ _ _ Eab Eb) in Ea. discriminate.
    + now rewrite IH.
Qed.

Lemma sorted_items_permutation (l l' : list (string * attrval)) :
  Permutation l l' -> NoDup (map fst l) -> sorted_items l = sorted_items l'.
Proof.
  unfold sorted_items. induction 1 as [|x l l' HP IH|x y l|l l' l'' HP1 IH1 HP2 IH2];
    intros Hnd.
  - reflexivity.
  - cbn [fold_right]. rewrite IH; [reflexivity|]. now inversion Hnd.
  - cbn [fold_right]. apply insert_sorted_comm.
    cbn [map] in Hnd. inversion Hnd as [|? ? Hin _]; subst.
    intros E. apply Hin. left. now symmetry.
  - rewrite IH1 by exact Hnd. apply IH2.
    eapply Permutation_NoDup; [|exact Hnd]. now apply Permutation_map.
Qed.

Section AttributeOrder.

Variables substitute_html substitute_xml substitute_xml_containing_entities
          quoted_attribute_value : string -> string.

Variables (h : heap) (t : id) (d : list (string * attrval)).

Hypothesis Hd : sorted_items d = sorted_items (attrs h t).

Local Abbreviation h' := (set_attrs t d h).

Lemma descend_set_attrs fuel x : descend fuel h' x = descend fuel h x.
Proof.
  revert x. induction fuel as [|f IH]; intros x; [reflexivity|].
  cbn [descend]. change (kind h' x) with (kind h x).
  change (contents h' x) with (contents h x).
  destruct (kind h x); [|reflexivity].
  destruct (py_nth (contents h x) (-1)); [apply IH|reflexivity].
Qed.

Lemma find_in_set_attrs fuel nm g : find_in fuel h' nm g = find_in fuel h nm g.
Proof.
  revert g. induction fuel as [|f IH]; intros g; [reflexivity|].
  cbn [find_in]. change (gen_next h' g) with (gen_next h g).
  destruct (gen_next h g) as [[[[i|] g']|]| |]; cbn [rbind]; try reflexivity;
    try apply IH.
  change (truthy h' i) with (truthy h i). change (kind h' i) with (kind h i).
  change (name h' i) with (name h i). now rewrite !IH.
Qed.

Lemma descendants_set_attrs fuel x :
  descendants fuel h' x = descendants fuel h x.
Proof.
  unfold descendants, _last_descendant. rewrite descend_set_attrs. reflexivity.
Qed.

Lemma find_set_attrs fuel x nm : find fuel h' x nm = find fuel h x nm.
Proof.
  unfold find. rewrite descendants_set_attrs.
  destruct (descendants fuel h x); cbn [rbind]; try reflexivity.
  apply find_in_set_attrs.
Qed.

Lemma getattr_is_xml_set_attrs fuel x :
  getattr_is_xml fuel h' x = getattr_is_xml fuel h x.
Proof.
  unfold getattr_is_xml. rewrite find_set_attrs. reflexivity.
Qed.

Lemma is_xml_set_attrs fuel x : _is_xml fuel h' x = _is_xml fuel h x.
Proof.
  revert x. induction fuel as [|f IH]; intros x; [reflexivity|].
  cbn [_is_xml]. change (parent h' x) with (parent h x).
  destruct (parent h x); [apply IH|apply getattr_is_xml_set_attrs].
Qed.

Lemma resolve_set_attrs fuel x fm : resolve fuel h' x fm = resolve fuel h x fm.
Proof.
  destruct fm as [n|f]; [|reflexivity]. cbn [resolve].
  unfold _formatter_for_name. now rewrite is_xml_set_attrs.
Qed.

Lemma format_string_set_attrs fuel x ns s fm :
  format_string substitute_html substitute_xml substitute_xml_containing_entities
    fuel h' x ns s fm
  = format_string substitute_html substitute_xml substitute_xml_containing_entities
      fuel h x ns s fm.
Proof.
  unfold format_string. rewrite resolve_set_attrs. reflexivity.
Qed.

Lemma output_ready_set_attrs fuel x fm :
  output_ready substitute_html substitute_xml substitute_xml_containing_entities
    fuel h' x fm
  = output_ready substitute_html substitute_xml substitute_xml_containing_entities
      fuel h x fm.
Proof.
  unfold output_ready. change (kind h' x) with (kind h x).
  destruct (kind h x); [reflexivity|].
  change (text h' x) with (text h x). now rewrite format_string_set_attrs.
Qed.

Lemma render_attrs_set_attrs fuel x fm items :
  render_attrs substitute_html substitute_xml substitute_xml_containing_entities
    quoted_attribute_value fuel h' x fm items
  = render_attrs substitute_html substitute_xml substitute_xml_containing_entities
      quoted_attribute_value fuel h x fm items.
Proof.
  induction items as [|[key val] items IH]; [reflexivity|].
  cbn [render_attrs]. rewrite IH.
  destruct val; rewrite ?format_string_set_attrs; reflexivity.
Qed.

Lemma sorted_items_set_attrs x :
  sorted_items (attrs h' x) = sorted_items (attrs h x).
Proof.
  cbn. unfold upd. destruct (Nat.eqb x t) eqn:E; [|reflexivity].
  apply Nat.eqb_eq in E. subst x. exact Hd.
Qed.

Lemma decode_set_attrs fuel x fm :
  decode substitute_html substitute_xml substitute_xml_containing_entities
    quoted_attribute_value fuel h' x fm
  = decode substitute_html substitute_xml substitute_xml_containing_entities
      quoted_attribute_value fuel h x fm.
Proof.
  revert x fm. induction fuel as [|f IH]; intros x fm; [reflexivity|].
  cbn [decode]. rewrite resolve_set_attrs.
  destruct (resolve (S f) h x fm) as [r| |]; cbn [rbind]; try reflexivity.
  rewrite sorted_items_set_attrs, render_attrs_set_attrs.
  destruct (render_attrs _ _ _ _ _ _ _ _ _) as [ats| |]; cbn [rbind]; try reflexivity.
  change (prefix h' x) with (prefix h x). change (contents h' x) with (contents h x).
  change (can_be_empty_element h' x) with (can_be_empty_element h x).
  change (name h' x) with (name h x). change (hidden h' x) with (hidden h x).
  match goal with
  | |- rbind ?A _ = rbind ?B _ => assert (E : A = B)
  end.
  { induction (contents h x) as [|c cs IHc]; [reflexivity|].
    change (kind h' c) with (kind h c).
    rewrite IHc. destruct (kind h c).
    - now rewrite IH.
    - now rewrite output_ready_set_attrs. }
  rewrite E. reflexivity.
Qed.

End AttributeOrder.

(** X28.  [decode] sorts the attributes by key: a tag whose dictionary of
    attributes holds the same items in another order is rendered in the
    same way, under every formatter. *)
Theorem rendering_ignores_attribute_order
    (substitute_html substitute_xml substitute_xml_containing_entities
       quoted_attribute_value : string -> string)
    (h : heap) (t : id) (d : list (string * attrval)) (fm : formatter) (fuel : nat) :
  Permutation (attrs h t) d -> NoDup (map fst (attrs h t)) ->
  decode substitute_html substitute_xml substitute_xml_containing_entities
    quoted_attribute_value fuel (set_attrs t d h) t fm
  = decode substitute_html substitute_xml substitute_xml_containing_entities
      quoted_attribute_value fuel h t fm.
Proof.
  intros HP Hnd. apply decode_set_attrs. symmetry.
  now apply sorted_items_permutation.
Qed.

(** [rendering_ignores_attribute_order] at a concrete input. *)
Lemma rendering_ignores_attribute_order_witness :
  decode xml_escape xml_escape xml_escape (fun s => s) 3
    (set_attrs 1%nat [("class", AList ["a"; "b"]); ("id", AStr "x")]%string
       two_attributes) 1%nat (FormatterName (Some "minimal"%string))
  = decode xml_escape xml_escape xml_escape (fun s => s) 3 two_attributes 1%nat
      (FormatterName (Some "minimal"%string)).
Proof.
  apply (rendering_ignores_attribute_order xml_escape xml_escape xml_escape
           (fun s => s) two_attributes 1%nat
           [("class", AList ["a"; "b"]); ("id", AStr "x")]%string
           (FormatterName (Some "minimal"%string)) 3).
  - vm_compute. apply perm_swap.
  - vm_compute. repeat constructor; cbn; intuition discriminate.
Defined.
